(** * Relativistic Doppler visualisation: the numerical core of [main.cpp]

    The program computes in C++ [float].  Every [float] is modelled as an
    IEEE-754 binary32 datum ([spec_float] at precision 24, [emax] 128) and
    every arithmetic operator as the correctly rounded operation of the
    standard library's executable specification [SpecFloat], so the
    definitions below can be evaluated on concrete inputs, bit for bit.

    What lies outside the source file is taken as follows.
    - GLM ([glm::vec3], [glm::dot], [glm::normalize], [glm::clamp]) is
      written out the way GLM computes it on scalars.
    - [sin] and [cos] are parameters (they are libm's); [sqrt] is the
      correctly rounded square root.
    - The three random draws of each loop iteration of [initializeStars]
      are inputs: a function from the loop index to the drawn triple.
    - The OpenGL calls have no effect on the modelled state. *)

From Stdlib Require Import ZArith String List Bool Ascii Lia.
From Stdlib Require Import SpecFloat.
From Stdlib Require Import Reals Lra.
Import ListNotations.

Open Scope Z_scope.

(** ** binary32 *)

Module F32.

Definition prec : Z := 24.
Definition emax : Z := 128.

Definition float32 := spec_float.

Definition add : float32 -> float32 -> float32 := SFadd prec emax.
Definition sub : float32 -> float32 -> float32 := SFsub prec emax.
Definition mul : float32 -> float32 -> float32 := SFmul prec emax.
Definition div : float32 -> float32 -> float32 := SFdiv prec emax.
Definition sqrt : float32 -> float32 := SFsqrt prec emax.
Definition neg : float32 -> float32 := SFopp.

(** The C++ comparisons; each is false as soon as an operand is NaN. *)
Definition ltb (x y : float32) : bool := SFltb x y.
Definition leb (x y : float32) : bool := SFleb x y.
Definition gtb (x y : float32) : bool := SFltb y x.
Definition geb (x y : float32) : bool := SFleb y x.

(** An integer constant, and the decimal literal [n/d] rounded to nearest
    (both [n] and [d] are exactly representable wherever it is used). *)
Definition of_Z (n : Z) : float32 := binary_normalize prec emax n 0 false.
Definition lit (n d : Z) : float32 := div (of_Z n) (of_Z d).

Definition valid (x : float32) : bool := valid_binary prec emax x.

Definition is_nan (x : float32) : bool :=
  match x with S754_nan => true | _ => false end.

(** finite and strictly positive *)
Definition is_finite_pos (x : float32) : bool :=
  match x with S754_finite false _ _ => true | _ => false end.

End F32.

Export F32.

Declare Scope f32_scope.
Delimit Scope f32_scope with f32.
Bind Scope f32_scope with float32.
Infix "+" := add : f32_scope.
Infix "-" := sub : f32_scope.
Infix "*" := mul : f32_scope.
Infix "/" := div : f32_scope.
Notation "- x" := (neg x) : f32_scope.
Infix "<?" := ltb : f32_scope.
Infix "<=?" := leb : f32_scope.
Infix ">?" := gtb : f32_scope.
Infix ">=?" := geb : f32_scope.

(** The literals of the source. *)
Definition f0 : float32 := Eval vm_compute in of_Z 0.        (* 0.0f *)
Definition f1 : float32 := Eval vm_compute in of_Z 1.        (* 1.0f *)
Definition f5 : float32 := Eval vm_compute in of_Z 5.        (* 5.0f *)
Definition f360 : float32 := Eval vm_compute in of_Z 360.    (* 360.0f *)
Definition f0_5 : float32 := Eval vm_compute in lit 1 2.     (* 0.5f *)
Definition f0_25 : float32 := Eval vm_compute in lit 25 100. (* 0.25f *)
Definition f0_4 : float32 := Eval vm_compute in lit 4 10.    (* 0.4f *)
Definition f0_55 : float32 := Eval vm_compute in lit 55 100. (* 0.55f *)
Definition f0_6 : float32 := Eval vm_compute in lit 6 10.    (* 0.6f *)
Definition f0_75 : float32 := Eval vm_compute in lit 75 100. (* 0.75f *)
Definition f0_15 : float32 := Eval vm_compute in lit 15 100. (* 0.15f *)
Definition f0_05 : float32 := Eval vm_compute in lit 5 100.  (* 0.05f *)
Definition f0_99 : float32 := Eval vm_compute in lit 99 100. (* 0.99f *)
Definition f0_1 : float32 := Eval vm_compute in lit 1 10.    (* 0.1f *)
Definition f0_01 : float32 := Eval vm_compute in lit 1 100.  (* 0.01f *)
Definition f0_9 : float32 := Eval vm_compute in lit 9 10.    (* 0.9f *)

(** ** The part of GLM the program uses *)

Module glm.

Record vec3 := mkvec3 { vx : float32; vy : float32; vz : float32 }.

(** [a - b] on vectors *)
Definition vsub (a b : vec3) : vec3 :=
  mkvec3 (vx a - vx b)%f32 (vy a - vy b)%f32 (vz a - vz b)%f32.

(** [v * s], vector by scalar *)
Definition vscale (v : vec3) (s : float32) : vec3 :=
  mkvec3 (vx v * s)%f32 (vy v * s)%f32 (vz v * s)%f32.

(** [glm::dot]: the three products, summed left to right *)
Definition dot (a b : vec3) : float32 :=
  ((vx a * vx b + vy a * vy b) + vz a * vz b)%f32.

(** [glm::inversesqrt] *)
Definition inversesqrt (x : float32) : float32 := (f1 / sqrt x)%f32.

(** [glm::normalize] *)
Definition normalize (v : vec3) : vec3 := vscale v (inversesqrt (dot v v)).

(** [glm::max], [glm::min], [glm::clamp] on scalars *)
Definition max (x y : float32) : float32 := if (x <? y)%f32 then y else x.
Definition min (x y : float32) : float32 := if (y <? x)%f32 then y else x.
Definition clamp (x minVal maxVal : float32) : float32 :=
  min (max x minVal) maxVal.

End glm.

Export glm.

(** ** Constants *)

Definition NUM_STARS : Z := 100000.
Definition GALAXY_RADIUS : float32 := Eval vm_compute in of_Z 15.
Definition MAX_VELOCITY : float32 := f0_5.
Definition SPEED_OF_LIGHT : float32 := f1.
Definition FLAT_ROTATION_VELOCITY : float32 := f0_5.
Definition OBSERVER_POSITION_Z : float32 := Eval vm_compute in of_Z 20.

(** ** Spectrum mapper *)

(** The [float rgb[3]] out-parameter is the returned triple. *)
Definition rgb := (float32 * float32 * float32)%type.

Definition wavelengthToRGB (wavelength : float32) : rgb :=
  if (wavelength <=? f0_25)%f32 then
    ((f0_5 * (wavelength / f0_25))%f32,
     f0,
     (f0_5 + f0_5 * (wavelength / f0_25))%f32)
  else if (wavelength <=? f0_4)%f32 then
    (f0, ((wavelength - f0_25) / f0_15)%f32, f1)
  else if (wavelength <=? f0_55)%f32 then
    (f0, f1, (f1 - (wavelength - f0_4) / f0_15)%f32)
  else if (wavelength <=? f0_6)%f32 then
    (((wavelength - f0_55) / f0_05)%f32, f1, f0)
  else if (wavelength <=? f0_75)%f32 then
    (f1, (f1 - (wavelength - f0_6) / f0_15)%f32, f0)
  else
    (f1, f0, f0).

(** ** Doppler calculator *)

Definition calculateRelativisticDopplerShift
  (starVelocity observerVelocity : vec3) : float32 :=
  let lineOfSight :=
    normalize (vsub (mkvec3 f0 f0 OBSERVER_POSITION_Z) starVelocity) in
  let relativeVelocity := dot (vsub starVelocity observerVelocity) lineOfSight in
  let beta := (relativeVelocity / SPEED_OF_LIGHT)%f32 in
  let beta := if (beta >=? f1)%f32 then f0_99 else beta in
  let beta := if (beta <=? - f1)%f32 then (- f0_99)%f32 else beta in
  let dopplerFactor := sqrt ((f1 + beta) / (f1 - beta))%f32 in
  dopplerFactor.

(** ** Stars and the program state *)

Record Star := mkStar {
  position : vec3;
  velocity : vec3;
  color : vec3;
  dopplerShiftedColor : rgb
}.

Record State := mkState {
  windowWidth : Z;
  windowHeight : Z;
  showKeplerian : bool;
  showFlatRotation : bool;
  viewAngle : float32;
  observerVelocity : float32;
  keplerianStars : list Star;
  flatRotationStars : list Star
}.

(** The globals as their initialisers leave them. *)
Definition initial_state : State :=
  mkState 1200 600 true true f0 f0 [] [].

(** The colour both [initializeStars] and [updateDopplerShifts] store:
    the wavelength 0.5 scaled by the Doppler factor, clamped, mapped. *)
Definition shiftedColor (starVelocity : vec3) (obsVel : float32) : rgb :=
  let dopplerFactor :=
    calculateRelativisticDopplerShift starVelocity (mkvec3 f0 f0 obsVel) in
  let shiftedWavelength := (f0_5 * dopplerFactor)%f32 in
  let shiftedWavelength := clamp shiftedWavelength f0 f1 in
  wavelengthToRGB shiftedWavelength.

Section Generator.

(** [sin] and [cos] on [float], and the draws of iteration [i]:
    (angle, radius, height). *)
Variables sin cos : float32 -> float32.
Variable draw : nat -> float32 * float32 * float32.

(** One iteration of the loop of [initializeStars]: the Keplerian star and
    the flat-rotation star made from one triple of draws. *)
Definition initializeStars_body (obsVel : float32)
  (d : float32 * float32 * float32) : Star * Star :=
  let '(angle, radius, height) := d in
  let position :=
    mkvec3 (radius * cos angle)%f32 height (radius * sin angle)%f32 in
  let wavelength := f0_5 in
  let '(b0, b1, b2) := wavelengthToRGB wavelength in
  let keplerianSpeed :=
    (MAX_VELOCITY * sqrt (GALAXY_RADIUS / (radius + f0_1)))%f32 in
  let tangentX := (- sin angle)%f32 in
  let tangentZ := cos angle in
  let kvel :=
    mkvec3 (keplerianSpeed * tangentX)%f32 f0 (keplerianSpeed * tangentZ)%f32 in
  let keplerianStar :=
    mkStar position kvel (mkvec3 b0 b1 b2) (shiftedColor kvel obsVel) in
  let fvel :=
    mkvec3 (FLAT_ROTATION_VELOCITY * tangentX)%f32 f0
           (FLAT_ROTATION_VELOCITY * tangentZ)%f32 in
  let flatStar :=
    mkStar position fvel (mkvec3 b0 b1 b2) (shiftedColor fvel obsVel) in
  (keplerianStar, flatStar).

(** [count] iterations; the program runs [NUM_STARS] of them. *)
Definition initializeStarsN (count : nat) (st : State) : State :=
  let made :=
    map (fun i => initializeStars_body (observerVelocity st) (draw i))
        (seq 0 count) in
  mkState (windowWidth st) (windowHeight st)
          (showKeplerian st) (showFlatRotation st)
          (viewAngle st) (observerVelocity st)
          (map fst made) (map snd made).

Definition initializeStars (st : State) : State :=
  initializeStarsN (Z.to_nat NUM_STARS) st.

End Generator.

(** ** Shift updater *)

Definition updateStar (obsVel : float32) (star : Star) : Star :=
  mkStar (position star) (velocity star) (color star)
         (shiftedColor (velocity star) obsVel).

Definition updateDopplerShifts (st : State) : State :=
  mkState (windowWidth st) (windowHeight st)
          (showKeplerian st) (showFlatRotation st)
          (viewAngle st) (observerVelocity st)
          (map (updateStar (observerVelocity st)) (keplerianStars st))
          (map (updateStar (observerVelocity st)) (flatRotationStars st)).

(** ** Input handling *)

Definition set_observerVelocity (v : float32) (st : State) : State :=
  mkState (windowWidth st) (windowHeight st)
          (showKeplerian st) (showFlatRotation st)
          (viewAngle st) v (keplerianStars st) (flatRotationStars st).

Definition set_viewAngle (a : float32) (st : State) : State :=
  mkState (windowWidth st) (windowHeight st)
          (showKeplerian st) (showFlatRotation st)
          a (observerVelocity st) (keplerianStars st) (flatRotationStars st).

Definition set_show (k f : bool) (st : State) : State :=
  mkState (windowWidth st) (windowHeight st) k f
          (viewAngle st) (observerVelocity st)
          (keplerianStars st) (flatRotationStars st).

(** The two assignments of the ['w'] case, and of the ['s'] case. *)
Definition increaseVelocity (v : float32) : float32 :=
  let v := (v + f0_01)%f32 in
  if (v >? f0_9)%f32 then f0_9 else v.

Definition decreaseVelocity (v : float32) : float32 :=
  let v := (v - f0_01)%f32 in
  if (v <? - f0_9)%f32 then (- f0_9)%f32 else v.

(** [keyboard]: [None] is [exit(0)]. *)
Definition keyboard (key : ascii) (st : State) : option State :=
  if (key =? "w")%char || (key =? "W")%char then
    Some (updateDopplerShifts
            (set_observerVelocity (increaseVelocity (observerVelocity st)) st))
  else if (key =? "s")%char || (key =? "S")%char then
    Some (updateDopplerShifts
            (set_observerVelocity (decreaseVelocity (observerVelocity st)) st))
  else if (key =? "a")%char || (key =? "A")%char then
    Some (set_viewAngle (viewAngle st - f5)%f32 st)
  else if (key =? "d")%char || (key =? "D")%char then
    Some (set_viewAngle (viewAngle st + f5)%f32 st)
  else if (key =? "k")%char || (key =? "K")%char then
    Some (set_show (negb (showKeplerian st)) (showFlatRotation st) st)
  else if (key =? "f")%char || (key =? "F")%char then
    Some (set_show (showKeplerian st) (negb (showFlatRotation st)) st)
  else if (key =? "r")%char || (key =? "R")%char then
    Some (updateDopplerShifts
            (set_observerVelocity f0 (set_show true true (set_viewAngle f0 st))))
  else if (key =? "027")%char then
    None
  else
    Some st.

Definition reshape (w h : Z) (st : State) : State :=
  mkState w h (showKeplerian st) (showFlatRotation st)
          (viewAngle st) (observerVelocity st)
          (keplerianStars st) (flatRotationStars st).

(** The two statements of [idle] on [viewAngle]. *)
Definition idleAngle (a : float32) : float32 :=
  let a := (a + f0_1)%f32 in
  if (a >? f360)%f32 then (a - f360)%f32 else a.

Definition idle (st : State) : State := set_viewAngle (idleAngle (viewAngle st)) st.

(** What GLUT can deliver to the callbacks. *)
Inductive event :=
| EvKey (key : ascii)
| EvReshape (w h : Z)
| EvIdle
| EvDisplay.

Definition step (ev : event) (st : State) : option State :=
  match ev with
  | EvKey key => keyboard key st
  | EvReshape w h => Some (reshape w h st)
  | EvIdle => Some (idle st)
  | EvDisplay => Some st
  end.

(** * Reading binary32 as real numbers, and the notions the theorems use *)

Definition bpow (e : Z) : R := powerRZ 2 e.
Definition val (m e : Z) : R := (IZR m * bpow e)%R.

Definition SF2R (x : float32) : R :=
  match x with
  | S754_finite s m e => val (cond_Zopp s (Zpos m)) e
  | _ => 0%R
  end.

Definition cmp_rel (c : comparison) (x mid : R) : Prop :=
  match c with
  | Lt => (x < mid)%R
  | Eq => x = mid
  | Gt => (mid < x)%R
  end.

Definition locates (x : R) (m e : Z) (l : location) : Prop :=
  match l with
  | loc_Exact => x = val m e
  | loc_Inexact c =>
      (val m e < x < val (m + 1) e)%R /\ cmp_rel c x (val (2 * m + 1) (e - 1))
  end.

Definition locates_rec (x : R) (mrs : shr_record) (e : Z) : Prop :=
  locates x (shr_m mrs) e (loc_of_shr_record mrs).

Definition emin : Z := SpecFloat.emin prec emax.
Definition fexp32 (e : Z) : Z := fexp prec emax e.

(** [E] is the exponent binary32 gives to a positive real [x]. *)
Definition Eok (x : R) (E : Z) : Prop :=
  (E = emin /\ (x < bpow (emin + prec))%R) \/
  (emin < E /\ (bpow (E + prec - 1) <= x < bpow (E + prec))%R).

(** mantissa [n] (after rounding) at exponent [E], made a datum *)
Definition pack (s : bool) (n E : Z) : float32 :=
  if n =? 0 then S754_zero s
  else
    let '(n', E') := if n =? 2 ^ prec then (2 ^ (prec - 1), E + 1) else (n, E) in
    if E' <=? emax - prec then S754_finite s (Z.to_pos n') E'
    else S754_infinity s.

Definition pos_rounds (x : R) (s : bool) (r : float32) : Prop :=
  exists E m l,
    Eok x E /\ locates x m E l /\ 0 <= m /\
    r = pack s (round_nearest_even m l) E.

(** zero or finite: a datum with a real value *)
Definition is_finite (x : float32) : bool :=
  match x with
  | S754_zero _ | S754_finite _ _ _ => true
  | _ => false
  end.

(** [r] is what binary32 rounding to nearest-even makes of the real [x] *)
Definition rounds_to (x : R) (r : float32) : Prop :=
  (x = 0%R /\ exists s, r = S754_zero s) \/
  ((0 < x)%R /\ pos_rounds x false r) \/
  ((x < 0)%R /\ pos_rounds (- x) true r).

Definition is_nonneg (r : float32) : bool :=
  match r with
  | S754_zero _ | S754_finite false _ _ | S754_infinity false => true
  | _ => false
  end.

Definition is_nonpos (r : float32) : bool :=
  match r with
  | S754_zero _ | S754_finite true _ _ | S754_infinity true => true
  | _ => false
  end.

(** the exponent [pack] ends with *)
Definition pack_exp (n E : Z) : Z := if n =? 2 ^ prec then E + 1 else E.

(** a well-formed datum that is a number: zero or finite *)
Definition proper (x : float32) : bool := valid x && is_finite x.

(** [lo <= x <= hi], all three proper *)
Definition within (lo hi x : float32) : bool :=
  proper lo && proper hi && proper x && SFleb lo x && SFleb x hi.

(** *** The steps of [calculateRelativisticDopplerShift], one by one *)

(** line 100: the direction from [starVelocity] to the observer point *)
Definition lineOfSight (starVelocity : vec3) : vec3 :=
  normalize (vsub (mkvec3 f0 f0 OBSERVER_POSITION_Z) starVelocity).

(** lines 101 and 105: [beta] before the two guards *)
Definition rawBeta (starVelocity observerVelocity : vec3) : float32 :=
  (dot (vsub starVelocity observerVelocity) (lineOfSight starVelocity)
   / SPEED_OF_LIGHT)%f32.

(** lines 108 and 109: the two guards, in sequence *)
Definition clampBeta (beta : float32) : float32 :=
  let beta := if (beta >=? f1)%f32 then f0_99 else beta in
  if (beta <=? - f1)%f32 then (- f0_99)%f32 else beta.

(** line 111 *)
Definition dopplerOfBeta (beta : float32) : float32 :=
  sqrt ((f1 + beta) / (f1 - beta))%f32.

(** the largest binary32 number below 1, [1 - 2^-24] *)
Definition pred_one : float32 := S754_finite false 16777215 (-24).

(** 0.995f, a [beta] between the two thresholds 0.99 and 1 *)
Definition f0_995 : float32 := Eval vm_compute in lit 995 1000.

(** *** A grid on (-1, 1), to tell betas apart *)

(** 2^-10, a distance between two betas that the factor always resolves *)
Definition betaGap : float32 := S754_finite false 8388608 (-33).

(** 2^-30, a beta the factor does not tell from 0 *)
Definition tinyBeta : float32 := S754_finite false 8388608 (-53).

(** the multiples of 2^-11 *)
Definition gridPoint (k : Z) : float32 := binary_normalize prec emax k (-11) false.

(** [gridPoint k] holds [k * 2^-11] exactly *)
Definition gridExact (k : Z) : bool :=
  match gridPoint k with
  | S754_zero _ => k =? 0
  | S754_finite s m e =>
      (e <=? -11) && (cond_Zopp s (Zpos m) =? k * 2 ^ (-11 - e))
  | _ => false
  end.

(** the factor grows strictly from one grid point to the next *)
Definition gridStrict (k : Z) : bool :=
  (dopplerOfBeta (gridPoint k) <? dopplerOfBeta (gridPoint (k + 1)))%f32.

(** adding [betaGap] to a grid point reaches the next but one *)
Definition gridShift (k : Z) : bool :=
  (gridPoint (k + 2) <=? gridPoint k + betaGap)%f32.

Definition gridRange (lo : Z) (n : nat) : list Z :=
  map (fun i => Z.of_nat i + lo) (seq 0 n).

(** *** Rounding errors *)

(** one unit in the last place of a number in [1, 2), and the smallest
    positive binary32 number *)
Definition ulp32 : R := bpow (-23).
Definition eta32 : R := bpow (-149).

(** [r] is a number and holds [x] up to the rounding error *)
Definition approximates (x : R) (r : float32) : Prop :=
  proper r = true /\ (Rabs (SF2R r - x) <= ulp32 * Rabs x + eta32)%R.

(** the squared length of a vector, as a real number *)
Definition lengthSq (v : vec3) : R :=
  (SF2R (vx v) * SF2R (vx v) + SF2R (vy v) * SF2R (vy v)
   + SF2R (vz v) * SF2R (vz v))%R.

(** a vector of three numbers *)
Definition properVec (v : vec3) : bool :=
  proper (vx v) && proper (vy v) && proper (vz v).

(** 16.0f, 4.0f and 36.0f: the box of star velocities and what it leaves
    of the distance to the observer point *)
Definition f16 : float32 := Eval vm_compute in of_Z 16.
Definition f4 : float32 := Eval vm_compute in of_Z 4.
Definition f36 : float32 := Eval vm_compute in of_Z 36.

(** *** The six formulas of the spectrum table (section 4.1 of the
    specification), each on its own, in binary32 *)

Definition violetToBlue (w : float32) : rgb :=
  ((f0_5 * (w / f0_25))%f32, f0, (f0_5 + f0_5 * (w / f0_25))%f32).
Definition blueToCyan (w : float32) : rgb :=
  (f0, ((w - f0_25) / f0_15)%f32, f1).
Definition cyanToGreen (w : float32) : rgb :=
  (f0, f1, (f1 - (w - f0_4) / f0_15)%f32).
Definition greenToYellow (w : float32) : rgb :=
  (((w - f0_55) / f0_05)%f32, f1, f0).
Definition yellowToRed (w : float32) : rgb :=
  (f1, (f1 - (w - f0_6) / f0_15)%f32, f0).
Definition deepRed (w : float32) : rgb := (f1, f0, f0).

(** The table read as the specification writes it: a row applies when [w]
    lies in its range, each boundary belonging to the lower row. *)
Definition spectrumTable (w : float32) (c : rgb) : Prop :=
  ((w <=? f0_25)%f32 = true /\ c = violetToBlue w) \/
  ((f0_25 <? w)%f32 = true /\ (w <=? f0_4)%f32 = true /\ c = blueToCyan w) \/
  ((f0_4 <? w)%f32 = true /\ (w <=? f0_55)%f32 = true /\ c = cyanToGreen w) \/
  ((f0_55 <? w)%f32 = true /\ (w <=? f0_6)%f32 = true /\ c = greenToYellow w) \/
  ((f0_6 <? w)%f32 = true /\ (w <=? f0_75)%f32 = true /\ c = yellowToRed w) \/
  ((f0_75 <? w)%f32 = true /\ c = deepRed w).

(** 1 + 2^-22, two units in the last place above 1 *)
Definition one_plus_2ulp : float32 := S754_finite false 8388610 (-23).

Definition redOf (c : rgb) : float32 := fst (fst c).
Definition greenOf (c : rgb) : float32 := snd (fst c).
Definition blueOf (c : rgb) : float32 := snd c.

(** ** The running program *)

(** line 138 *)
Definition keplerianSpeed (radius : float32) : float32 :=
  (MAX_VELOCITY * sqrt (GALAXY_RADIUS / (radius + f0_1)))%f32.

(** [glutMainLoop]: the callbacks run on the events, in order, until one
    of them exits. *)
Fixpoint run (evs : list event) (st : State) : option State :=
  match evs with
  | [] => Some st
  | ev :: rest =>
      match step ev st with
      | Some st' => run rest st'
      | None => None
      end
  end.

Section Program.

Variables sin cos : float32 -> float32.
Variable draw : nat -> float32 * float32 * float32.

(** [main]: the stars are generated once, from the initial globals. *)
Definition start : State := initializeStars sin cos draw initial_state.

Definition reachable (st : State) : Prop := exists evs, run evs start = Some st.

End Program.

(** [observerVelocity] is kept derived: what every star shows is computed
    from its velocity and the current observer velocity. *)
Definition colorDerived (obsVel : float32) (s : Star) : Prop :=
  dopplerShiftedColor s =
  wavelengthToRGB
    (clamp (f0_5 * calculateRelativisticDopplerShift
                     (velocity s) (mkvec3 f0 f0 obsVel))%f32 f0 f1).

(** the largest binary32 number, and 720.0f, two full turns *)
Definition fmax : float32 := S754_finite false 16777215 104.
Definition f720 : float32 := Eval vm_compute in of_Z 720.

(** what generation fixes and no later step touches: the positions and the
    velocities of both populations, in order *)
Definition kinematics (st : State) : list (vec3 * vec3) * list (vec3 * vec3) :=
  (map (fun s => (position s, velocity s)) (keplerianStars st),
   map (fun s => (position s, velocity s)) (flatRotationStars st)).

(** every star of both populations shows the colour its velocity and the
    current observer velocity give *)
Definition colorsDerived (st : State) : Prop :=
  Forall (colorDerived (observerVelocity st)) (keplerianStars st) /\
  Forall (colorDerived (observerVelocity st)) (flatRotationStars st).

(** 0.385f: from this beta on, half the Doppler factor is above 0.75 *)
Definition f0_385 : float32 := Eval vm_compute in lit 385 1000.

(** the colour of the unshifted wavelength 0.5: (0, 1, 1 - (0.5f - 0.4f)/0.15f) *)
Definition baseColor : rgb := (f0, f1, S754_finite false 11184812 (-25)).

(** 2^27 = 134217728.0f: from here on adding 5 or 0.1 to a float changes
    nothing *)
Definition viewAngleBound : float32 := Eval vm_compute in of_Z 134217728.

(** the keys [keyboard] has a case for *)
Definition boundKeys : list ascii :=
  ["w"; "W"; "s"; "S"; "a"; "A"; "d"; "D"; "k"; "K"; "f"; "F"; "r"; "R"; "027"]%char.

(** ** Rendering: the OpenGL and GLUT calls [display] makes, in order

    [int] is read as an unbounded integer ([windowWidth / 2] truncates,
    [windowHeight - 20] is assumed not to overflow); an [int] passed where a
    [float] is expected is rounded to nearest.  What [sprintf] writes into
    [velocityInfo] is a parameter. *)

Inductive matrix_mode := GL_PROJECTION | GL_MODELVIEW.

Inductive glut_font := GLUT_BITMAP_HELVETICA_18 | GLUT_BITMAP_HELVETICA_12.

Inductive glcall :=
| glClear
| glViewport (x y width height : Z)
| glMatrixMode (mode : matrix_mode)
| glLoadIdentity
| gluPerspective (fovy aspect zNear zFar : float32)
| gluLookAt (eye center up : vec3)
| glPointSize (size : float32)
| glBegin_POINTS
| glColor3fv (c : rgb)
| glVertex3fv (v : vec3)
| glEnd
| glColor3f (r g b : float32)
| glRasterPos3f (x y z : float32)
| glOrtho (left right bottom top zNear zFar : Z)
| glRasterPos2f (x y : float32)
| glutBitmapCharacter (font : glut_font) (c : ascii)
| glutSwapBuffers.

(** [for (const char* c = s; *c != '\0'; c++) glutBitmapCharacter(font, *c);] *)
Definition drawString (font : glut_font) (s : list ascii) : list glcall :=
  map (glutBitmapCharacter font) s.

(** the projection and camera of one half of the window, whose viewport
    starts at column [x] *)
Definition setupHalf (x : Z) (st : State) : list glcall :=
  [ glViewport x 0 (Z.quot (windowWidth st) 2) (windowHeight st);
    glMatrixMode GL_PROJECTION;
    glLoadIdentity;
    gluPerspective (of_Z 45)
      (of_Z (Z.quot (windowWidth st) 2) / of_Z (windowHeight st))%f32
      f0_1 (of_Z 100);
    glMatrixMode GL_MODELVIEW;
    glLoadIdentity;
    gluLookAt (mkvec3 f0 (of_Z 10) OBSERVER_POSITION_Z)
              (mkvec3 f0 f0 f0) (mkvec3 f0 f1 f0) ].

(** [glBegin(GL_POINTS); for (star : stars) { ... } glEnd();] *)
Definition drawStars (stars : list Star) : list glcall :=
  [glPointSize (of_Z 2); glBegin_POINTS]
  ++ flat_map (fun star =>
                 [glColor3fv (dopplerShiftedColor star);
                  glVertex3fv (position star)]) stars
  ++ [glEnd].

Definition drawLabel (label : string) : list glcall :=
  [glColor3f f1 f1 f1; glRasterPos3f (- f5)%f32 (of_Z 8) f0]
  ++ drawString GLUT_BITMAP_HELVETICA_18 (list_ascii_of_string label).

Section Display.

(** the text [sprintf] produces from observerVelocity and viewAngle *)
Variable velocityInfo : float32 -> float32 -> list ascii.

Definition display (st : State) : list glcall :=
  [glClear]
  ++ (if showKeplerian st then
        setupHalf 0 st
        ++ drawStars (keplerianStars st)
        ++ drawLabel "Keplerian Orbit Model"
      else [])
  ++ (if showFlatRotation st then
        setupHalf (Z.quot (windowWidth st) 2) st
        ++ drawStars (flatRotationStars st)
        ++ drawLabel "Flat Rotation Curve Model"
      else [])
  ++ [ glViewport 0 0 (windowWidth st) (windowHeight st);
       glMatrixMode GL_PROJECTION;
       glLoadIdentity;
       glOrtho 0 (windowWidth st) 0 (windowHeight st) (-1) 1;
       glMatrixMode GL_MODELVIEW;
       glLoadIdentity;
       glColor3f f1 f1 f1;
       glRasterPos2f (of_Z 10) (of_Z (windowHeight st - 20)) ]
  ++ drawString GLUT_BITMAP_HELVETICA_12
       (velocityInfo (observerVelocity st) (viewAngle st))
  ++ [glRasterPos2f (of_Z 10) (of_Z 20)]
  ++ drawString GLUT_BITMAP_HELVETICA_12
       (list_ascii_of_string
          "Redshift = Moving Away (Redder) | Blueshift = Moving Toward (Bluer)")
  ++ [glutSwapBuffers].

End Display.

(** The points a call sequence draws: at each [glVertex3fv], the vertex
    with the colour current at that moment ([current] before the first
    colour call). *)
Fixpoint drawnPoints (current : rgb) (calls : list glcall) : list (rgb * vec3) :=
  match calls with
  | [] => []
  | glColor3fv c :: rest => drawnPoints c rest
  | glColor3f r g b :: rest => drawnPoints (r, g, b) rest
  | glVertex3fv v :: rest => (current, v) :: drawnPoints current rest
  | _ :: rest => drawnPoints current rest
  end.

(** the colour current after a call sequence *)
Fixpoint currentColor (current : rgb) (calls : list glcall) : rgb :=
  match calls with
  | [] => current
  | glColor3fv c :: rest => currentColor c rest
  | glColor3f r g b :: rest => currentColor (r, g, b) rest
  | _ :: rest => currentColor current rest
  end.

Definition shown (s : Star) : rgb * vec3 := (dopplerShiftedColor s, position s).

Definition isText (c : glcall) : bool :=
  match c with glutBitmapCharacter _ _ => true | _ => false end.

(** the calls that are not characters of a text *)
Definition scene (calls : list glcall) : list glcall :=
  filter (fun c => negb (isText c)) calls.

(** the aspect ratio [display] hands to [gluPerspective] *)
Definition aspectRatio (st : State) : float32 :=
  (of_Z (Z.quot (windowWidth st) 2) / of_Z (windowHeight st))%f32.

(** * Theorems *)

(** ** Powers of two, values, digits *)

Lemma bpow_gt_0 e : (0 < bpow e)%R.
Proof. apply powerRZ_lt; lra. Qed.

Lemma bpow_plus a b : bpow (a + b) = (bpow a * bpow b)%R.
Proof. apply powerRZ_add; lra. Qed.

Lemma bpow_0 : bpow 0 = 1%R.
Proof. reflexivity. Qed.

Lemma bpow_1 : bpow 1 = 2%R.
Proof. unfold bpow; simpl; lra. Qed.

Lemma bpow_succ e : bpow (e + 1) = (2 * bpow e)%R.
Proof. rewrite bpow_plus, bpow_1; lra. Qed.

Lemma bpow_pred e : bpow (e - 1) = (bpow e / 2)%R.
Proof.
  replace e with ((e - 1) + 1) at 2 by lia. rewrite bpow_succ. lra.
Qed.

Lemma bpow_IZR k : 0 <= k -> bpow k = IZR (2 ^ k).
Proof.
  intros Hk. pattern k. apply natlike_ind; [reflexivity | | assumption].
  intros x Hx IH. unfold Z.succ. rewrite bpow_succ, IH, Z.pow_add_r by lia.
  rewrite mult_IZR. change (2 ^ 1) with 2. lra.
Qed.

Lemma bpow_ge_1 e : 0 <= e -> (1 <= bpow e)%R.
Proof.
  intros H. rewrite bpow_IZR by assumption. apply IZR_le.
  pose proof (Z.pow_pos_nonneg 2 e). lia.
Qed.

Lemma bpow_le a b : a <= b -> (bpow a <= bpow b)%R.
Proof.
  intros H. replace b with (a + (b - a)) by lia. rewrite bpow_plus.
  pose proof (bpow_gt_0 a). pose proof (bpow_ge_1 (b - a) ltac:(lia)). nra.
Qed.

Lemma bpow_lt a b : a < b -> (bpow a < bpow b)%R.
Proof.
  intros H. replace b with (a + 1 + (b - a - 1)) by lia.
  rewrite bpow_plus, bpow_succ.
  pose proof (bpow_gt_0 a). pose proof (bpow_ge_1 (b - a - 1) ltac:(lia)).
  nra.
Qed.

Lemma bpow_lt_inv a b : (bpow a < bpow b)%R -> a < b.
Proof.
  intros H. destruct (Z_lt_le_dec a b) as [|Hle]; [assumption|].
  apply bpow_le in Hle. lra.
Qed.

Lemma bpow_le_inv a b : (bpow a <= bpow b)%R -> a <= b.
Proof.
  intros H. destruct (Z_le_gt_dec a b) as [|Hgt]; [assumption|].
  assert (b < a) as Hlt by lia. apply bpow_lt in Hlt. lra.
Qed.

Lemma val_shift m e k : 0 <= k -> val (m * 2 ^ k) (e - k) = val m e.
Proof.
  intros Hk. unfold val. rewrite mult_IZR, <- bpow_IZR by assumption.
  replace e with ((e - k) + k) at 2 by lia. rewrite bpow_plus. lra.
Qed.

Lemma val_le_iff m1 m2 e : (val m1 e <= val m2 e)%R <-> m1 <= m2.
Proof.
  unfold val. pose proof (bpow_gt_0 e). split; intros H1.
  - apply le_IZR. nra.
  - apply IZR_le in H1. nra.
Qed.

Lemma val_lt_iff m1 m2 e : (val m1 e < val m2 e)%R <-> m1 < m2.
Proof.
  unfold val. pose proof (bpow_gt_0 e). split; intros H1.
  - apply lt_IZR. nra.
  - apply IZR_lt in H1. nra.
Qed.

Lemma val_plus m1 m2 e : val (m1 + m2) e = (val m1 e + val m2 e)%R.
Proof. unfold val. rewrite plus_IZR. lra. Qed.

Lemma val_opp m e : val (- m) e = (- val m e)%R.
Proof. unfold val. rewrite opp_IZR. lra. Qed.

Lemma val_double m e : val (2 * m) (e - 1) = val m e.
Proof. unfold val. rewrite mult_IZR, bpow_pred. lra. Qed.

(* digits *)

Lemma digits2_pos_bounds p :
  2 ^ (Zpos (digits2_pos p) - 1) <= Zpos p < 2 ^ Zpos (digits2_pos p).
Proof.
  induction p as [p IH | p IH |]; simpl digits2_pos.
  - rewrite Pos2Z.inj_succ, (Pos2Z.inj_xI p).
    replace (Z.succ (Zpos (digits2_pos p)) - 1) with (Z.succ (Zpos (digits2_pos p) - 1)) by lia.
    rewrite !Z.pow_succ_r by lia. lia.
  - rewrite Pos2Z.inj_succ, (Pos2Z.inj_xO p).
    replace (Z.succ (Zpos (digits2_pos p)) - 1) with (Z.succ (Zpos (digits2_pos p) - 1)) by lia.
    rewrite !Z.pow_succ_r by lia. lia.
  - simpl. lia.
Qed.

Lemma Zdigits2_bounds m : 0 < m ->
  2 ^ (Zdigits2 m - 1) <= m < 2 ^ Zdigits2 m.
Proof.
  destruct m as [|p|p]; try lia. intros _. apply digits2_pos_bounds.
Qed.

Lemma Zdigits2_pos m : 0 < m -> 0 < Zdigits2 m.
Proof. destruct m; simpl; lia. Qed.

Lemma Zdigits2_unique m d : 0 < d -> 2 ^ (d - 1) <= m < 2 ^ d -> Zdigits2 m = d.
Proof.
  intros Hd [H1 H2].
  assert (0 < m) as Hm by (pose proof (Z.pow_pos_nonneg 2 (d - 1)); lia).
  pose proof (Zdigits2_bounds m Hm) as [H3 H4].
  pose proof (Zdigits2_pos m Hm) as H5.
  destruct (Z.lt_trichotomy (Zdigits2 m) d) as [H|[H|H]]; [|assumption|].
  - assert (2 ^ Zdigits2 m <= 2 ^ (d - 1)) by (apply Z.pow_le_mono_r; lia). lia.
  - assert (2 ^ d <= 2 ^ (Zdigits2 m - 1)) by (apply Z.pow_le_mono_r; lia). lia.
Qed.

Lemma val_digits_bounds m e : 0 < m ->
  (bpow (Zdigits2 m + e - 1) <= val m e < bpow (Zdigits2 m + e))%R.
Proof.
  intros Hm. pose proof (Zdigits2_bounds m Hm) as [H1 H2].
  pose proof (Zdigits2_pos m Hm) as H3.
  replace (Zdigits2 m + e - 1) with ((Zdigits2 m - 1) + e) by lia.
  rewrite !bpow_plus, (bpow_IZR (Zdigits2 m - 1)), (bpow_IZR (Zdigits2 m)) by lia. unfold val.
  apply IZR_le in H1. apply IZR_lt in H2. pose proof (bpow_gt_0 e). nra.
Qed.

(** ** What [binary_round_aux] computes *)

Lemma fexp32_eq e : fexp32 e = Z.max (e - 24) (-149).
Proof. reflexivity. Qed.

Lemma emin_eq : emin = -149.
Proof. reflexivity. Qed.

Lemma prec_eq : prec = 24.
Proof. reflexivity. Qed.

Lemma IZR_xO p : IZR (Zpos p~0) = (2 * IZR (Zpos p))%R.
Proof. rewrite (Pos2Z.inj_xO p), mult_IZR. reflexivity. Qed.

Lemma IZR_xI p : IZR (Zpos p~1) = (2 * IZR (Zpos p) + 1)%R.
Proof. rewrite (Pos2Z.inj_xI p), plus_IZR, mult_IZR. reflexivity. Qed.

Lemma loc_of_shr_record_of_loc m l :
  loc_of_shr_record (shr_record_of_loc m l) = l.
Proof. destruct l as [|[ | | ]]; reflexivity. Qed.

Lemma shr_m_record_of_loc m l : shr_m (shr_record_of_loc m l) = m.
Proof. destruct l as [|[ | | ]]; reflexivity. Qed.

Lemma shr_1_locates x mrs e :
  0 <= shr_m mrs -> locates_rec x mrs e ->
  locates_rec x (shr_1 mrs) (e + 1) /\ 0 <= shr_m (shr_1 mrs).
Proof.
  destruct mrs as [m r s]. unfold locates_rec. simpl shr_m.
  intros Hm H. pose proof (bpow_gt_0 e) as Hb.
  destruct m as [|[p|p|]|p]; try lia;
    destruct r, s; cbn [shr_1 shr_m loc_of_shr_record orb] in H |- *;
    unfold locates, cmp_rel in *;
    (split; [|lia]); unfold val in *;
    replace (e + 1 - 1) with e by lia;
    rewrite ?bpow_succ, ?bpow_pred in *;
    rewrite ?plus_IZR, ?mult_IZR, ?(IZR_xO p), ?(IZR_xI p) in *;
    lra.
Qed.

Lemma iter_pos_locates x (p : positive) : forall mrs e,
  0 <= shr_m mrs -> locates_rec x mrs e ->
  locates_rec x (SpecFloat.iter_pos shr_1 p mrs) (e + Zpos p) /\
  0 <= shr_m (SpecFloat.iter_pos shr_1 p mrs).
Proof.
  induction p as [p IH | p IH |]; intros mrs e Hm H; cbn [SpecFloat.iter_pos].
  - destruct (shr_1_locates x mrs e Hm H) as [H1 Hm1].
    destruct (IH _ _ Hm1 H1) as [H2 Hm2].
    destruct (IH _ _ Hm2 H2) as [H3 Hm3].
    replace (e + Zpos p~1) with (e + 1 + Zpos p + Zpos p) by lia. auto.
  - destruct (IH _ _ Hm H) as [H2 Hm2].
    destruct (IH _ _ Hm2 H2) as [H3 Hm3].
    replace (e + Zpos p~0) with (e + Zpos p + Zpos p) by lia. auto.
  - apply shr_1_locates; assumption.
Qed.

Lemma shr_locates x mrs e n :
  0 <= shr_m mrs -> locates_rec x mrs e ->
  locates_rec x (fst (shr mrs e n)) (snd (shr mrs e n)) /\
  0 <= shr_m (fst (shr mrs e n)) /\
  snd (shr mrs e n) = e + Z.max n 0.
Proof.
  intros Hm H. destruct n as [|p|p]; simpl.
  - rewrite Z.add_0_r. auto.
  - destruct (iter_pos_locates x p mrs e Hm H). auto.
  - rewrite Z.add_0_r. auto.
Qed.

Lemma shr_fexp_locates x m e l :
  0 <= m -> locates x m e l ->
  let r := shr_fexp prec emax m e l in
  locates_rec x (fst r) (snd r) /\ 0 <= shr_m (fst r) /\
  snd r = Z.max e (fexp32 (Zdigits2 m + e)).
Proof.
  intros Hm H. unfold shr_fexp.
  destruct (shr_locates x (shr_record_of_loc m l) e
              (fexp prec emax (Zdigits2 m + e) - e)) as (H1 & H2 & H3).
  - rewrite shr_m_record_of_loc. assumption.
  - unfold locates_rec. rewrite shr_m_record_of_loc, loc_of_shr_record_of_loc.
    assumption.
  - cbv zeta. repeat split; try assumption. rewrite H3. unfold fexp32. lia.
Qed.

Lemma round_nearest_even_range m l :
  m <= round_nearest_even m l <= m + 1.
Proof.
  destruct l as [|[ | | ]]; simpl; try lia. destruct (Z.even m); lia.
Qed.

Lemma round_nearest_even_exact x m e l :
  locates x m e l -> round_nearest_even m l <> m -> (val m e < x)%R.
Proof.
  destruct l as [|c]; simpl.
  - intros _ H. congruence.
  - intros [[H _] _] _. assumption.
Qed.

Lemma locates_bounds x m e l :
  locates x m e l -> (val m e <= x < val (m + 1) e)%R.
Proof.
  destruct l as [|c]; simpl.
  - intros ->. split; [lra|]. apply val_lt_iff. lia.
  - intros [[H1 H2] _]. lra.
Qed.

(** the mantissa range that [Eok] forces *)
Lemma Eok_mantissa x E m l :
  Eok x E -> locates x m E l -> 0 <= m ->
  m < 2 ^ 24 /\ (emin < E -> 2 ^ 23 <= m) /\ emin <= E.
Proof.
  intros HE Hl Hm. apply locates_bounds in Hl. destruct Hl as [Hl1 Hl2].
  assert (Hup : (x < bpow (E + prec))%R).
  { destruct HE as [[-> H]|[_ H]]; lra. }
  assert (Hm24 : m < 2 ^ 24).
  { apply (val_lt_iff m (2 ^ 24) E).
    replace (val (2 ^ 24) E) with (bpow (E + prec)); [lra|].
    unfold val. rewrite <- (bpow_IZR 24), (Z.add_comm E), bpow_plus by lia.
    reflexivity. }
  repeat split; try assumption.
  - intros HEm. destruct HE as [[-> _]|[_ [H _]]]; [lia|].
    assert (2 ^ 23 < m + 1); [|lia].
    apply (val_lt_iff (2 ^ 23) (m + 1) E).
    replace (val (2 ^ 23) E) with (bpow (E + prec - 1)); [lra|].
    unfold val. rewrite <- (bpow_IZR 23) by lia.
    replace (E + prec - 1) with (23 + E) by (unfold prec; lia).
    apply bpow_plus.
  - destruct HE as [[-> _]|[H _]]; lia.
Qed.

(** the last two steps of [binary_round_aux] *)
Lemma renormalize_pack s n E :
  0 <= n <= 2 ^ 24 -> emin <= E -> (emin < E -> 2 ^ 23 <= n) ->
  (let '(mrs, e) := shr_fexp prec emax n E loc_Exact in
   match shr_m mrs with
   | Z0 => S754_zero s
   | Zpos m => if e <=? emax - prec then S754_finite s m e else S754_infinity s
   | Zneg _ => S754_nan
   end) = pack s n E.
Proof.
  intros Hn HE Hnorm. unfold pack, emin, SpecFloat.emin, emax, prec in *.
  destruct (Z.eqb_spec n 0) as [->|Hn0].
  { unfold shr_fexp, fexp, SpecFloat.emin. simpl Zdigits2.
    destruct (Z.max (0 + E - 24) (3 - 128 - 24) - E) eqn:Hk; try lia; reflexivity. }
  destruct (Z.eqb_spec n (2 ^ 24)) as [->|Hn24].
  { unfold shr_fexp, fexp, SpecFloat.emin. simpl Zdigits2.
    replace (Z.max (25 + E - 24) (3 - 128 - 24) - E) with 1 by lia.
    reflexivity. }
  assert (Hd : Zdigits2 n <= 24).
  { assert (0 < n) as Hpos by lia.
    pose proof (Zdigits2_bounds n Hpos) as [H1 _].
    destruct (Z_le_gt_dec (Zdigits2 n) 24) as [|Hgt]; [assumption|].
    assert (2 ^ 24 <= 2 ^ (Zdigits2 n - 1)) by (apply Z.pow_le_mono_r; lia).
    lia. }
  assert (Hd' : E = 3 - 128 - 24 \/ Zdigits2 n = 24).
  { destruct (Z.eq_dec E (3 - 128 - 24)) as [|HE']; [left; assumption|right].
    apply Zdigits2_unique; lia. }
  unfold shr_fexp, fexp, SpecFloat.emin.
  destruct (Z.max (Zdigits2 n + E - 24) (3 - 128 - 24) - E) eqn:Hk; try lia;
    destruct n; try lia; reflexivity.
Qed.

Theorem binary_round_aux_rounds x s m e l :
  (0 < x)%R -> 0 <= m -> locates x m e l ->
  e <= fexp32 (Zdigits2 m + e) ->
  pos_rounds x s (binary_round_aux prec emax s m e l).
Proof.
  intros Hx Hm Hl He.
  pose proof (shr_fexp_locates x m e l Hm Hl) as H. cbv zeta in H.
  unfold binary_round_aux.
  destruct (shr_fexp prec emax m e l) as [mrs' e'] eqn:Hshr.
  simpl fst in H; simpl snd in H. destruct H as (Hloc & Hm' & He').
  rewrite Z.max_r in He' by assumption.
  assert (HE : Eok x e').
  { subst e'. rewrite fexp32_eq in *.
    destruct (Z.eq_dec m 0) as [->|Hm0].
    - simpl Zdigits2 in *. left. split; [rewrite emin_eq; lia|].
      apply locates_bounds in Hl. simpl in Hl.
      assert (val 1 e <= bpow (emin + prec))%R; [|lra].
      unfold val. rewrite Rmult_1_l. apply bpow_le. rewrite emin_eq, prec_eq. lia.
    - assert (0 < m) as Hpos by lia.
      pose proof (val_digits_bounds m e Hpos) as [Hb1 Hb2].
      pose proof (Zdigits2_bounds m Hpos) as [_ Hd2].
      apply locates_bounds in Hl. destruct Hl as [Hl1 Hl2].
      assert (Hup : (x < bpow (Zdigits2 m + e))%R).
      { assert (val (m + 1) e <= bpow (Zdigits2 m + e))%R; [|lra].
        pose proof (Zdigits2_pos m Hpos).
        rewrite bpow_plus, (bpow_IZR (Zdigits2 m)) by lia.
        unfold val. apply Rmult_le_compat_r; [pose proof (bpow_gt_0 e); lra|].
        apply IZR_le. lia. }
      destruct (Z_le_gt_dec (Zdigits2 m + e - 24) (-149)) as [Hc|Hc].
      + left. split; [rewrite emin_eq; lia|].
        assert (bpow (Zdigits2 m + e) <= bpow (emin + prec))%R; [|lra].
        apply bpow_le. rewrite emin_eq, prec_eq. lia.
      + right. rewrite Z.max_l by lia. split; [rewrite emin_eq; lia|].
        replace (Zdigits2 m + e - 24 + prec - 1) with (Zdigits2 m + e - 1)
          by (rewrite prec_eq; lia).
        replace (Zdigits2 m + e - 24 + prec) with (Zdigits2 m + e)
          by (rewrite prec_eq; lia).
        lra. }
  exists e', (shr_m mrs'), (loc_of_shr_record mrs').
  repeat split; try assumption.
  destruct (Eok_mantissa x e' _ _ HE Hloc Hm') as (H24 & H23 & Hmin).
  pose proof (round_nearest_even_range (shr_m mrs') (loc_of_shr_record mrs')).
  apply renormalize_pack; try lia.
Qed.

(** ** Comparison is comparison of values *)

Lemma canonical_digits m e :
  canonical_mantissa prec emax m e = true ->
  Zpos (digits2_pos m) <= 24 /\ -149 <= e /\
  (-149 < e -> Zpos (digits2_pos m) = 24).
Proof.
  unfold canonical_mantissa, fexp, SpecFloat.emin, prec, emax.
  intros H. apply Z.eqb_eq in H. lia.
Qed.

Lemma valid_finite_inv s m e :
  valid (S754_finite s m e) = true ->
  Zpos m < 2 ^ 24 /\ -149 <= e <= 104 /\ (-149 < e -> 2 ^ 23 <= Zpos m).
Proof.
  unfold valid, valid_binary, bounded. intros H.
  apply andb_true_iff in H. destruct H as [Hc Hb].
  apply canonical_digits in Hc. destruct Hc as (Hd & He & Hn).
  apply Z.leb_le in Hb. unfold emax, prec in Hb.
  pose proof (digits2_pos_bounds m) as [H1 H2].
  repeat split; try lia.
  - assert (2 ^ Zpos (digits2_pos m) <= 2 ^ 24) by (apply Z.pow_le_mono_r; lia).
    lia.
  - intros H. rewrite (Hn H) in H1. exact H1.
Qed.

Lemma valid_finite_intro s m e :
  0 < m < 2 ^ 24 -> -149 <= e <= 104 -> (-149 < e -> 2 ^ 23 <= m) ->
  valid (S754_finite s (Z.to_pos m) e) = true.
Proof.
  intros Hm He Hn. unfold valid, valid_binary, bounded.
  apply andb_true_iff. split; [|apply Z.leb_le; unfold emax, prec; lia].
  unfold canonical_mantissa, fexp, SpecFloat.emin, prec, emax.
  apply Z.eqb_eq.
  assert (Hd : Zdigits2 m <= 24).
  { pose proof (Zdigits2_bounds m ltac:(lia)) as [H1 _].
    destruct (Z_le_gt_dec (Zdigits2 m) 24) as [|Hgt]; [assumption|].
    assert (2 ^ 24 <= 2 ^ (Zdigits2 m - 1)) by (apply Z.pow_le_mono_r; lia).
    lia. }
  assert (Hz : Zpos (digits2_pos (Z.to_pos m)) = Zdigits2 m).
  { destruct m; try lia. reflexivity. }
  rewrite Hz.
  destruct (Z.eq_dec e (-149)) as [->|He'].
  - lia.
  - rewrite (Zdigits2_unique m 24) by lia. lia.
Qed.

Lemma val_pos m e : 0 < m -> (0 < val m e)%R.
Proof.
  intros H. unfold val. apply Rmult_lt_0_compat; [|apply bpow_gt_0].
  apply IZR_lt. assumption.
Qed.

Lemma val_0 e : val 0 e = 0%R.
Proof. unfold val. lra. Qed.

Lemma val_pow k e : 0 <= k -> val (2 ^ k) e = bpow (k + e).
Proof. intros H. unfold val. rewrite <- bpow_IZR, bpow_plus by lia. reflexivity. Qed.

(** comparing two canonical positive data compares their values *)
Lemma compare_canonical m1 e1 m2 e2 :
  valid (S754_finite false m1 e1) = true ->
  valid (S754_finite false m2 e2) = true ->
  cmp_rel (match Z.compare e1 e2 with
           | Lt => Lt | Gt => Gt | Eq => Pos.compare_cont Eq m1 m2 end)
          (val (Zpos m1) e1) (val (Zpos m2) e2).
Proof.
  intros H1 H2. apply valid_finite_inv in H1, H2.
  destruct H1 as (Hm1 & He1 & Hn1), H2 as (Hm2 & He2 & Hn2).
  destruct (Z.compare_spec e1 e2) as [->|Hlt|Hgt].
  - change (Pos.compare_cont Eq m1 m2) with (Pos.compare m1 m2).
    destruct (Pos.compare_spec m1 m2) as [->|H|H]; simpl.
    + reflexivity.
    + apply val_lt_iff. lia.
    + apply val_lt_iff. lia.
  - simpl. apply Rlt_le_trans with (val (2 ^ 24) e1).
    + apply val_lt_iff. lia.
    + apply Rle_trans with (val (2 ^ 23) e2).
      * rewrite !val_pow by lia. apply bpow_le. lia.
      * apply val_le_iff. lia.
  - simpl. apply Rlt_le_trans with (val (2 ^ 24) e2).
    + apply val_lt_iff. lia.
    + apply Rle_trans with (val (2 ^ 23) e1).
      * rewrite !val_pow by lia. apply bpow_le. lia.
      * apply val_le_iff. lia.
Qed.

Lemma cmp_rel_opp c x y : cmp_rel c x y -> cmp_rel (CompOpp c) (- x) (- y).
Proof. destruct c; simpl; intros; lra. Qed.

Lemma valid_sign s s' m e :
  valid (S754_finite s m e) = valid (S754_finite s' m e).
Proof. reflexivity. Qed.

Lemma val_Zneg p e : val (Zneg p) e = (- val (Zpos p) e)%R.
Proof. change (Zneg p) with (- Zpos p). apply val_opp. Qed.

Theorem SFcompare_spec a b :
  valid a = true -> valid b = true ->
  is_finite a = true -> is_finite b = true ->
  exists c, SFcompare a b = Some c /\ cmp_rel c (SF2R a) (SF2R b).
Proof.
  intros Va Vb Fa Fb.
  destruct a as [sa| | |sa ma ea]; try discriminate;
    destruct b as [sb| | |sb mb eb]; try discriminate; cbn [SF2R].
  - exists Eq. split; reflexivity.
  - pose proof (val_pos (Zpos mb) eb ltac:(lia)).
    destruct sb; cbn [SFcompare cond_Zopp Z.opp]; rewrite ?val_Zneg.
    + exists Gt. split; [reflexivity|]. simpl. lra.
    + exists Lt. split; [reflexivity|]. simpl. lra.
  - pose proof (val_pos (Zpos ma) ea ltac:(lia)).
    destruct sa; cbn [SFcompare cond_Zopp Z.opp]; rewrite ?val_Zneg.
    + exists Lt. split; [reflexivity|]. simpl. lra.
    + exists Gt. split; [reflexivity|]. simpl. lra.
  - pose proof (val_pos (Zpos ma) ea ltac:(lia)).
    pose proof (val_pos (Zpos mb) eb ltac:(lia)).
    destruct sa, sb; cbn [SFcompare cond_Zopp Z.opp]; rewrite ?val_Zneg.
    + eexists. split; [reflexivity|].
      pose proof (compare_canonical ma ea mb eb Va Vb) as Hc.
      apply cmp_rel_opp in Hc.
      destruct (ea ?= eb); simpl in Hc |- *; assumption.
    + exists Lt. split; [reflexivity|]. simpl. lra.
    + exists Gt. split; [reflexivity|]. simpl. lra.
    + eexists. split; [reflexivity|].
      exact (compare_canonical ma ea mb eb Va Vb).
Qed.

Lemma SFleb_iff a b :
  valid a = true -> valid b = true ->
  is_finite a = true -> is_finite b = true ->
  (SFleb a b = true <-> (SF2R a <= SF2R b)%R).
Proof.
  intros Va Vb Fa Fb.
  destruct (SFcompare_spec a b Va Vb Fa Fb) as (c & Hc & Hr).
  unfold SFleb. rewrite Hc. destruct c; simpl in Hr; split; intros H;
    try reflexivity; try discriminate; lra.
Qed.

Lemma SFltb_iff a b :
  valid a = true -> valid b = true ->
  is_finite a = true -> is_finite b = true ->
  (SFltb a b = true <-> (SF2R a < SF2R b)%R).
Proof.
  intros Va Vb Fa Fb.
  destruct (SFcompare_spec a b Va Vb Fa Fb) as (c & Hc & Hr).
  unfold SFltb. rewrite Hc. destruct c; simpl in Hr; split; intros H;
    try reflexivity; try discriminate; lra.
Qed.

(** ** Rounding is monotone and leaves a datum alone *)

Lemma SFcompare_opp a b : SFcompare (SFopp a) (SFopp b) = SFcompare b a.
Proof.
  destruct a as [sa|sa| |sa ma ea], b as [sb|sb| |sb mb eb];
    try reflexivity; try (destruct sa; reflexivity);
    try (destruct sb; reflexivity);
    try (destruct sa, sb; reflexivity).
  destruct sa, sb; try reflexivity; cbn [SFopp SFcompare negb];
    rewrite (Z.compare_antisym ea eb);
    destruct (ea ?= eb) eqn:Hc; try reflexivity; cbn [CompOpp].
  - rewrite (Pos.compare_cont_antisym mb ma Eq). reflexivity.
  - rewrite (Pos.compare_cont_antisym ma mb Eq). reflexivity.
Qed.

Lemma SFleb_opp a b : SFleb (SFopp a) (SFopp b) = SFleb b a.
Proof. unfold SFleb. rewrite SFcompare_opp. reflexivity. Qed.

Lemma SFltb_opp a b : SFltb (SFopp a) (SFopp b) = SFltb b a.
Proof. unfold SFltb. rewrite SFcompare_opp. reflexivity. Qed.

Lemma SFleb_nonpos_nonneg a b :
  is_nonpos a = true -> is_nonneg b = true -> SFleb a b = true.
Proof.
  destruct a as [sa|[|]| |[|] ma ea]; try discriminate;
    destruct b as [sb|[|]| |[|] mb eb]; try discriminate; reflexivity.
Qed.

Lemma pack_opp n E : pack true n E = SFopp (pack false n E).
Proof.
  unfold pack. destruct (n =? 0); [reflexivity|].
  destruct (n =? 2 ^ prec);
    match goal with |- context [if ?c then _ else _] => destruct c end;
    reflexivity.
Qed.

Lemma pack_cases s n E :
  0 <= n <= 2 ^ 24 -> -149 <= E -> (-149 < E -> 2 ^ 23 <= n) ->
  (n = 0 /\ pack s n E = S754_zero s) \/
  (0 < n /\ pack_exp n E <= 104 /\
   exists m, pack s n E = S754_finite s m (pack_exp n E) /\
             valid (S754_finite s m (pack_exp n E)) = true /\
             val (Zpos m) (pack_exp n E) = val n E) \/
  (0 < n /\ 104 < pack_exp n E /\ pack s n E = S754_infinity s).
Proof.
  intros Hn HE Hnorm. unfold pack, pack_exp.
  destruct (Z.eqb_spec n 0) as [->|Hn0]; [left; auto|right].
  assert (0 < n) as Hpos by lia.
  change (emax - prec) with 104. change (2 ^ prec) with (2 ^ 24).
  change (2 ^ (prec - 1)) with (2 ^ 23).
  destruct (Z.eqb_spec n (2 ^ 24)) as [->|Hn24].
  - destruct (Z.leb_spec (E + 1) 104) as [Hle|Hgt]; [left|right; auto].
    repeat split; try lia. exists (Z.to_pos (2 ^ 23)). repeat split.
    + apply valid_finite_intro; lia.
    + rewrite Z2Pos.id by lia. rewrite !val_pow by lia. f_equal. lia.
  - destruct (Z.leb_spec E 104) as [Hle|Hgt]; [left|right; auto].
    repeat split; try lia. exists (Z.to_pos n). repeat split.
    + apply valid_finite_intro; lia.
    + rewrite Z2Pos.id by lia. reflexivity.
Qed.

Lemma pack_nonneg n E : is_nonneg (pack false n E) = true.
Proof.
  unfold pack. destruct (n =? 0); [reflexivity|].
  destruct (n =? 2 ^ prec);
    match goal with |- context [if ?c then _ else _] => destruct c end;
    reflexivity.
Qed.

Lemma pack_nonpos n E : is_nonpos (pack true n E) = true.
Proof.
  unfold pack. destruct (n =? 0); [reflexivity|].
  destruct (n =? 2 ^ prec);
    match goal with |- context [if ?c then _ else _] => destruct c end;
    reflexivity.
Qed.

Lemma pack_valid s n E :
  0 <= n <= 2 ^ 24 -> -149 <= E -> (-149 < E -> 2 ^ 23 <= n) ->
  valid (pack s n E) = true /\ is_nan (pack s n E) = false.
Proof.
  intros Hn HE Hnorm.
  destruct (pack_cases s n E Hn HE Hnorm)
    as [[_ ->]|[(_ & _ & m & -> & Hv & _)|(_ & _ & ->)]]; auto.
Qed.

Lemma round_nearest_even_mono x y m1 m2 E l1 l2 :
  locates x m1 E l1 -> locates y m2 E l2 -> (x <= y)%R ->
  round_nearest_even m1 l1 <= round_nearest_even m2 l2.
Proof.
  intros H1 H2 Hxy.
  pose proof (locates_bounds _ _ _ _ H1) as [Hx1 Hx2].
  pose proof (locates_bounds _ _ _ _ H2) as [Hy1 Hy2].
  assert (m1 < m2 + 1) as Hm by (apply (val_lt_iff _ _ E); lra).
  pose proof (round_nearest_even_range m1 l1).
  pose proof (round_nearest_even_range m2 l2).
  destruct (Z.eq_dec m1 m2) as [->|Hne]; [|lia].
  destruct l1 as [|[ | | ]], l2 as [|[ | | ]]; simpl in *;
    try destruct (Z.even m2); try lia;
    exfalso; repeat match goal with H : _ /\ _ |- _ => destruct H end; lra.
Qed.

Lemma Eok_mono x y E1 E2 :
  (0 < x <= y)%R -> Eok x E1 -> Eok y E2 -> E1 <= E2.
Proof.
  intros Hxy [[-> H1]|[H1 H1']] [[-> H2]|[H2 H2']]; try lia.
  - assert (bpow (E1 + prec - 1) < bpow (emin + prec))%R as Hb by lra.
    apply bpow_lt_inv in Hb. lia.
  - assert (bpow (E1 + prec - 1) < bpow (E2 + prec))%R as Hb by lra.
    apply bpow_lt_inv in Hb. lia.
Qed.

Theorem pos_rounds_mono x y r1 r2 :
  (0 < x <= y)%R -> pos_rounds x false r1 -> pos_rounds y false r2 ->
  SFleb r1 r2 = true.
Proof.
  intros Hxy (E1 & m1 & l1 & HE1 & Hl1 & Hm1 & ->)
             (E2 & m2 & l2 & HE2 & Hl2 & Hm2 & ->).
  destruct (Eok_mantissa _ _ _ _ HE1 Hl1 Hm1) as (Ha1 & Hb1 & Hc1).
  destruct (Eok_mantissa _ _ _ _ HE2 Hl2 Hm2) as (Ha2 & Hb2 & Hc2).
  rewrite emin_eq in *.
  pose proof (round_nearest_even_range m1 l1) as Hr1.
  pose proof (round_nearest_even_range m2 l2) as Hr2.
  set (n1 := round_nearest_even m1 l1) in *.
  set (n2 := round_nearest_even m2 l2) in *.
  pose proof (Eok_mono x y E1 E2 Hxy HE1 HE2) as HE.
  assert (Hord : (E1 = E2 /\ n1 <= n2) \/ (E1 < E2 /\ 2 ^ 23 <= n2)).
  { destruct (Z.eq_dec E1 E2) as [Heq|Hne]; [left|right; split; lia].
    split; [assumption|]. subst E2. unfold n1, n2.
    apply (round_nearest_even_mono x y m1 m2 E1); tauto || lra. }
  assert (Hexp : 0 < n2 -> pack_exp n1 E1 <= pack_exp n2 E2).
  { unfold pack_exp. change (2 ^ prec) with (2 ^ 24).
    destruct (Z.eqb_spec n1 (2 ^ 24)), (Z.eqb_spec n2 (2 ^ 24)); lia. }
  assert (Hval : (val n1 E1 <= val n2 E2)%R).
  { destruct Hord as [[-> Hn]|[HEl Hn]]; [apply val_le_iff; assumption|].
    apply Rle_trans with (val (2 ^ 24) E1); [apply val_le_iff; lia|].
    apply Rle_trans with (val (2 ^ 23) E2); [|apply val_le_iff; lia].
    rewrite !val_pow by lia. apply bpow_le. lia. }
  destruct (pack_cases false n1 E1 ltac:(lia) ltac:(lia) ltac:(lia))
    as [[Hz1 ->]|[(Hp1 & Hx1 & k1 & -> & Hv1 & Hk1)|(Hp1 & Hx1 & ->)]];
  destruct (pack_cases false n2 E2 ltac:(lia) ltac:(lia) ltac:(lia))
    as [[Hz2 ->]|[(Hp2 & Hx2 & k2 & -> & Hv2 & Hk2)|(Hp2 & Hx2 & ->)]];
    try reflexivity; try lia.
  apply SFleb_iff; try assumption; try reflexivity.
  cbn [SF2R cond_Zopp]. rewrite Hk1, Hk2. assumption.
Qed.

Lemma rounds_to_nonneg x r : (0 <= x)%R -> rounds_to x r -> is_nonneg r = true.
Proof.
  intros Hx [[_ [s ->]]|[[_ (E & m & l & _ & _ & _ & ->)]|[H _]]].
  - reflexivity.
  - apply pack_nonneg.
  - lra.
Qed.

Lemma rounds_to_nonpos x r : (x <= 0)%R -> rounds_to x r -> is_nonpos r = true.
Proof.
  intros Hx [[_ [s ->]]|[[H _]|[_ (E & m & l & _ & _ & _ & ->)]]].
  - reflexivity.
  - lra.
  - apply pack_nonpos.
Qed.

Lemma pos_rounds_opp x r : pos_rounds x true r -> pos_rounds x false (SFopp r).
Proof.
  intros (E & m & l & HE & Hl & Hm & ->). exists E, m, l.
  repeat split; try assumption. rewrite pack_opp.
  destruct (pack false (round_nearest_even m l) E) as [[|]|[|]| |[|] ? ?]; reflexivity.
Qed.

Lemma SFopp_involutive r : SFopp (SFopp r) = r.
Proof. destruct r as [[|]|[|]| |[|] ? ?]; reflexivity. Qed.

(** Rounding is monotone. *)
Theorem rounds_to_mono x y r1 r2 :
  (x <= y)%R -> rounds_to x r1 -> rounds_to y r2 -> SFleb r1 r2 = true.
Proof.
  intros Hxy H1 H2.
  destruct (Rlt_le_dec 0 x) as [Hx|Hx].
  - destruct H1 as [[H _]|[[_ H1]|[H _]]]; try lra.
    destruct H2 as [[H _]|[[_ H2]|[H _]]]; try lra.
    apply (pos_rounds_mono x y); auto.
  - destruct (Rle_lt_dec 0 y) as [Hy|Hy].
    + apply SFleb_nonpos_nonneg.
      * apply (rounds_to_nonpos x); assumption.
      * apply (rounds_to_nonneg y); assumption.
    + destruct H1 as [[H _]|[[H _]|[_ H1]]]; try lra.
      destruct H2 as [[H _]|[[H _]|[_ H2]]]; try lra.
      apply pos_rounds_opp in H1, H2.
      rewrite <- (SFopp_involutive r1), <- (SFopp_involutive r2), SFleb_opp.
      apply (pos_rounds_mono (- y) (- x)); auto. lra.
Qed.

Lemma pos_rounds_valid x s r :
  pos_rounds x s r -> valid r = true /\ is_nan r = false.
Proof.
  intros (E & m & l & HE & Hl & Hm & ->).
  destruct (Eok_mantissa _ _ _ _ HE Hl Hm) as (Ha & Hb & Hc).
  rewrite emin_eq in *.
  pose proof (round_nearest_even_range m l).
  apply pack_valid; lia.
Qed.

Theorem rounds_to_valid x r :
  rounds_to x r -> valid r = true /\ is_nan r = false.
Proof.
  intros [[_ [s ->]]|[[_ H]|[_ H]]]; [auto| |]; eapply pos_rounds_valid; eassumption.
Qed.

(** A datum is its own rounding. *)
Theorem rounds_to_self a :
  valid a = true -> is_finite a = true -> rounds_to (SF2R a) a.
Proof.
  intros Va Fa. destruct a as [s| | |s m e]; try discriminate.
  - left. split; [reflexivity|]. exists s. reflexivity.
  - pose proof (valid_finite_inv s m e Va) as (Hm & He & Hn).
    pose proof (val_pos (Zpos m) e ltac:(lia)) as Hp.
    assert (Hpr : forall s', pos_rounds (val (Zpos m) e) s' (S754_finite s' m e)).
    { intros s'. exists e, (Zpos m), loc_Exact. repeat split; try lia.
      - destruct (Z.eq_dec e (-149)) as [->|He'].
        + left. split; [reflexivity|].
          apply Rlt_le_trans with (val (2 ^ 24) (-149)); [apply val_lt_iff; lia|].
          rewrite val_pow by lia. apply bpow_le. rewrite emin_eq, prec_eq. lia.
        + right. rewrite emin_eq, prec_eq. split; [lia|]. split.
          * apply Rle_trans with (val (2 ^ 23) e); [|apply val_le_iff; lia].
            rewrite val_pow by lia. apply bpow_le. lia.
          * apply Rlt_le_trans with (val (2 ^ 24) e); [apply val_lt_iff; lia|].
            rewrite val_pow by lia. apply bpow_le. lia.
      - cbn [round_nearest_even]. unfold pack.
        change (2 ^ prec) with (2 ^ 24). change (emax - prec) with 104.
        destruct (Z.eqb_spec (Zpos m) 0); [lia|].
        destruct (Z.eqb_spec (Zpos m) (2 ^ 24)); [lia|].
        destruct (Z.leb_spec e 104); [reflexivity|lia]. }
    destruct s; cbn [SF2R cond_Zopp Z.opp]; rewrite ?val_Zneg.
    + right. right. split; [lra|]. rewrite Ropp_involutive. apply Hpr.
    + right. left. split; [lra|]. apply Hpr.
Qed.

(** Rounding never crosses a representable bound. *)
Corollary rounds_to_le x r b :
  rounds_to x r -> valid b = true -> is_finite b = true ->
  (x <= SF2R b)%R -> SFleb r b = true.
Proof.
  intros Hr Vb Fb Hx. apply (rounds_to_mono x (SF2R b)); auto.
  apply rounds_to_self; assumption.
Qed.

Corollary rounds_to_ge x r a :
  rounds_to x r -> valid a = true -> is_finite a = true ->
  (SF2R a <= x)%R -> SFleb a r = true.
Proof.
  intros Hr Va Fa Hx. apply (rounds_to_mono (SF2R a) x); auto.
  apply rounds_to_self; assumption.
Qed.

(** ** Addition, subtraction, multiplication *)

Lemma Zdigits2_mul_pow m k : 0 < m -> 0 <= k ->
  Zdigits2 (m * 2 ^ k) = Zdigits2 m + k.
Proof.
  intros Hm Hk. pose proof (Zdigits2_bounds m Hm) as [H1 H2].
  pose proof (Zdigits2_pos m Hm) as H3.
  pose proof (Z.pow_pos_nonneg 2 k ltac:(lia) Hk) as H4.
  apply Zdigits2_unique; [lia|].
  replace (Zdigits2 m + k - 1) with ((Zdigits2 m - 1) + k) by lia.
  rewrite !Z.pow_add_r by lia. split; nia.
Qed.

Lemma shl_align_spec mx ex ex' :
  let r := shl_align mx ex ex' in
  snd r = Z.min ex ex' /\ Zpos (fst r) = Zpos mx * 2 ^ (ex - snd r).
Proof.
  unfold shl_align. destruct (ex' - ex) as [|d|d] eqn:Hd; cbn [fst snd].
  - split; [lia|]. rewrite Z.sub_diag. simpl. lia.
  - split; [lia|]. rewrite Z.sub_diag. simpl. lia.
  - split; [lia|]. replace (ex - ex') with (Zpos d) by lia.
    change (Pos.iter xO mx d) with (shift_pos d mx).
    rewrite shift_pos_correct. change (Zpower_pos 2 d) with (2 ^ Zpos d). lia.
Qed.

Lemma shl_align_val mx ex ex' :
  val (Zpos (fst (shl_align mx ex ex'))) (snd (shl_align mx ex ex')) =
  val (Zpos mx) ex.
Proof.
  destruct (shl_align_spec mx ex ex') as [H1 H2]. cbv zeta in *.
  rewrite H2.
  replace (snd (shl_align mx ex ex')) with (ex - (ex - snd (shl_align mx ex ex'))) at 2 by lia.
  apply val_shift. lia.
Qed.

Theorem binary_round_rounds s m e :
  pos_rounds (val (Zpos m) e) s (binary_round prec emax s m e).
Proof.
  unfold binary_round.
  pose proof (shl_align_spec m e (fexp prec emax (Zpos (digits2_pos m) + e))) as [H1 H2].
  pose proof (shl_align_val m e (fexp prec emax (Zpos (digits2_pos m) + e))) as H3.
  cbv zeta in *.
  destruct (shl_align m e (fexp prec emax (Zpos (digits2_pos m) + e))) as [mz ez].
  cbn [fst snd] in *.
  apply binary_round_aux_rounds.
  - apply val_pos. lia.
  - lia.
  - simpl. symmetry. exact H3.
  - rewrite H2, Zdigits2_mul_pow by lia.
    change (Zdigits2 (Zpos m)) with (Zpos (digits2_pos m)).
    replace (Zpos (digits2_pos m) + (e - ez) + ez) with (Zpos (digits2_pos m) + e) by lia.
    unfold fexp32. lia.
Qed.

Theorem binary_normalize_rounds m e :
  rounds_to (val m e) (binary_normalize prec emax m e false).
Proof.
  destruct m as [|p|p]; cbn [binary_normalize].
  - left. split; [apply val_0|]. exists false. reflexivity.
  - right. left. split; [apply val_pos; lia|]. apply binary_round_rounds.
  - right. right. rewrite val_Zneg.
    pose proof (val_pos (Zpos p) e ltac:(lia)).
    split; [lra|]. rewrite Ropp_involutive. apply binary_round_rounds.
Qed.

Lemma SF2R_aligned s m e ez : ez <= e ->
  val (cond_Zopp s (Zpos (fst (shl_align m e ez)))) ez =
  SF2R (S754_finite s m e).
Proof.
  intros Hz. pose proof (shl_align_spec m e ez) as [H1 H2].
  pose proof (shl_align_val m e ez) as H3. cbv zeta in *.
  rewrite Z.min_r in H1 by lia. rewrite H1 in H3.
  destruct s; cbn [cond_Zopp SF2R Z.opp]; rewrite ?val_Zneg, H3; reflexivity.
Qed.

Lemma SF2R_zero_add y : (0 + SF2R y)%R = SF2R y.
Proof. lra. Qed.

(** Addition is the rounded sum. *)
Theorem add_rounds x y :
  valid x = true -> valid y = true ->
  is_finite x = true -> is_finite y = true ->
  rounds_to (SF2R x + SF2R y) (add x y).
Proof.
  intros Vx Vy Fx Fy. unfold add.
  destruct x as [sx| | |sx mx ex]; try discriminate;
    destruct y as [sy| | |sy my ey]; try discriminate.
  - cbn [SF2R]. left. split; [lra|].
    destruct sx, sy; cbn; eexists; reflexivity.
  - cbn [SFadd]. replace (SF2R (S754_zero sx) + SF2R (S754_finite sy my ey))%R
      with (SF2R (S754_finite sy my ey)) by (cbn [SF2R]; lra).
    apply rounds_to_self; assumption.
  - cbn [SFadd]. replace (SF2R (S754_finite sx mx ex) + SF2R (S754_zero sy))%R
      with (SF2R (S754_finite sx mx ex)) by (cbn [SF2R]; lra).
    apply rounds_to_self; assumption.
  - cbn [SFadd].
    rewrite <- (SF2R_aligned sx mx ex (Z.min ex ey)) by lia.
    rewrite <- (SF2R_aligned sy my ey (Z.min ex ey)) by lia.
    rewrite <- val_plus. apply binary_normalize_rounds.
Qed.

Lemma cond_Zopp_negb s m : cond_Zopp (negb s) m = - cond_Zopp s m.
Proof. destruct s; simpl; lia. Qed.

Lemma sub_add_opp x y : sub x y = add x (SFopp y).
Proof.
  unfold sub, add.
  destruct x as [sx|sx| |sx mx ex], y as [sy|sy| |sy my ey];
    try reflexivity; try (destruct sx, sy; reflexivity).
Qed.

Lemma SF2R_opp y : SF2R (SFopp y) = (- SF2R y)%R.
Proof.
  destruct y as [s|s| |s m e]; cbn [SFopp SF2R]; try lra.
  rewrite cond_Zopp_negb. apply val_opp.
Qed.

Lemma valid_opp y : valid (SFopp y) = valid y.
Proof. destruct y; reflexivity. Qed.

Lemma is_finite_opp y : is_finite (SFopp y) = is_finite y.
Proof. destruct y; reflexivity. Qed.

(** Subtraction is the rounded difference. *)
Theorem sub_rounds x y :
  valid x = true -> valid y = true ->
  is_finite x = true -> is_finite y = true ->
  rounds_to (SF2R x - SF2R y) (sub x y).
Proof.
  intros Vx Vy Fx Fy. rewrite sub_add_opp.
  replace (SF2R x - SF2R y)%R with (SF2R x + SF2R (SFopp y))%R
    by (rewrite SF2R_opp; lra).
  apply add_rounds; rewrite ?valid_opp, ?is_finite_opp; assumption.
Qed.

Lemma Zdigits2_mul_ge a b : 0 < a -> 0 < b ->
  Zdigits2 a + Zdigits2 b - 1 <= Zdigits2 (a * b).
Proof.
  intros Ha Hb.
  pose proof (Zdigits2_bounds a Ha) as [A1 A2].
  pose proof (Zdigits2_bounds b Hb) as [B1 B2].
  pose proof (Zdigits2_bounds (a * b) ltac:(nia)) as [C1 C2].
  pose proof (Zdigits2_pos a Ha). pose proof (Zdigits2_pos b Hb).
  assert (2 ^ (Zdigits2 a - 1 + (Zdigits2 b - 1)) < 2 ^ Zdigits2 (a * b)) as H1.
  { rewrite Z.pow_add_r by lia. nia. }
  apply Z.pow_lt_mono_r_iff in H1; try lia.
  pose proof (Zdigits2_pos (a * b) ltac:(nia)). lia.
Qed.

Lemma SF2R_finite_mul sx mx ex sy my ey :
  val (cond_Zopp (xorb sx sy) (Zpos (mx * my))) (ex + ey) =
  (SF2R (S754_finite sx mx ex) * SF2R (S754_finite sy my ey))%R.
Proof.
  cbn [SF2R]. unfold val. rewrite bpow_plus.
  destruct sx, sy; cbn [xorb cond_Zopp Z.opp];
    rewrite ?Pos2Z.inj_mul; 
    repeat match goal with
    | |- context [IZR (Zneg ?p)] => change (Zneg p) with (- Zpos p); rewrite opp_IZR
    end; rewrite ?Pos2Z.inj_mul, ?mult_IZR; ring.
Qed.

(** Multiplication is the rounded product. *)
Theorem mul_rounds x y :
  valid x = true -> valid y = true ->
  is_finite x = true -> is_finite y = true ->
  rounds_to (SF2R x * SF2R y) (mul x y).
Proof.
  intros Vx Vy Fx Fy. unfold mul.
  destruct x as [sx| | |sx mx ex]; try discriminate;
    destruct y as [sy| | |sy my ey]; try discriminate;
    try (cbn [SFmul SF2R]; left; split; [lra|]; eexists; reflexivity).
  cbn [SFmul]. rewrite <- SF2R_finite_mul.
  pose proof (valid_finite_inv _ _ _ Vx) as (Hmx & Hex & Hnx).
  pose proof (valid_finite_inv _ _ _ Vy) as (Hmy & Hey & Hny).
  assert (Hpre : ex + ey <= fexp32 (Zdigits2 (Zpos (mx * my)) + (ex + ey))).
  { rewrite fexp32_eq, Pos2Z.inj_mul.
    pose proof (Zdigits2_mul_ge (Zpos mx) (Zpos my) ltac:(lia) ltac:(lia)) as Hd.
    pose proof (Zdigits2_pos (Zpos mx) ltac:(lia)).
    pose proof (Zdigits2_pos (Zpos my) ltac:(lia)).
    destruct (Z.eq_dec ex (-149)) as [Hx|Hx], (Z.eq_dec ey (-149)) as [Hy|Hy]; try lia.
    - rewrite (Zdigits2_unique (Zpos my) 24) in Hd by lia. lia.
    - rewrite (Zdigits2_unique (Zpos mx) 24) in Hd by lia. lia.
    - rewrite (Zdigits2_unique (Zpos mx) 24) in Hd by lia.
      rewrite (Zdigits2_unique (Zpos my) 24) in Hd by lia. lia. }
  pose proof (val_pos (Zpos (mx * my)) (ex + ey) ltac:(lia)) as Hp.
  assert (Hr : forall s, pos_rounds (val (Zpos (mx * my)) (ex + ey)) s
     (binary_round_aux prec emax s (Zpos (mx * my)) (ex + ey) loc_Exact)).
  { intros s. apply binary_round_aux_rounds; try assumption; try lia. reflexivity. }
  destruct (xorb sx sy); cbn [cond_Zopp Z.opp]; rewrite ?val_Zneg.
  - right. right. split; [lra|]. rewrite Ropp_involutive. apply Hr.
  - right. left. split; [lra|]. apply Hr.
Qed.

(** ** Division and square root *)

Lemma new_location_spec n k : 0 < n -> 0 <= k < n ->
  (k = 0 /\ new_location n k = loc_Exact) \/
  (0 < k /\ exists c, new_location n k = loc_Inexact c /\
     match c with Lt => 2 * k < n | Eq => 2 * k = n | Gt => n < 2 * k end).
Proof.
  intros Hn Hk. unfold new_location.
  destruct (Z.even n) eqn:Hev;
    [unfold new_location_even | unfold new_location_odd];
    destruct (Z.eqb_spec k 0) as [->|Hk0]; auto; right; (split; [lia|]).
  - eexists. split; [reflexivity|].
    destruct (Z.compare_spec (2 * k) n); lia.
  - assert (Z.odd n = true) as Hodd by (rewrite <- Z.negb_even, Hev; reflexivity).
    apply Z.odd_spec in Hodd. destruct Hodd as [j Hj].
    eexists. split; [reflexivity|].
    destruct (Z.compare_spec (2 * k + 1) n); lia.
Qed.

Lemma fexp32_mono a b : a <= b -> fexp32 a <= fexp32 b.
Proof. rewrite !fexp32_eq. lia. Qed.

Lemma Zdigits2_ge_pow q k : 0 <= k -> 2 ^ k <= q -> k + 1 <= Zdigits2 q.
Proof.
  intros Hk Hq.
  assert (0 < q) as Hpos by (pose proof (Z.pow_pos_nonneg 2 k); lia).
  pose proof (Zdigits2_bounds q Hpos) as [_ H2].
  pose proof (Zdigits2_pos q Hpos).
  assert (2 ^ k < 2 ^ Zdigits2 q) as Hlt by lia.
  apply Z.pow_lt_mono_r_iff in Hlt; lia.
Qed.

Lemma Rdiv_unit_interval a b : (0 <= a < b)%R -> (0 <= a / b < 1)%R.
Proof.
  intros [Ha Hb]. assert (0 < / b)%R by (apply Rinv_0_lt_compat; lra).
  unfold Rdiv. split; [nra|].
  apply Rmult_lt_reg_r with b; [lra|].
  rewrite Rmult_assoc, Rinv_l by lra. lra.
Qed.

(** what [SFdiv_core_binary] returns locates the quotient *)
Lemma SFdiv_core_binary_locates m1 e1 m2 e2 :
  0 < m1 -> 0 < m2 ->
  let '(q, e', l) := SFdiv_core_binary prec emax m1 e1 m2 e2 in
  locates (val m1 e1 / val m2 e2) q e' l /\ 0 <= q /\
  e' <= fexp32 (Zdigits2 q + e').
Proof.
  intros Hm1 Hm2. unfold SFdiv_core_binary.
  set (d1 := Zdigits2 m1). set (d2 := Zdigits2 m2).
  set (e' := Z.min (fexp prec emax (d1 + e1 - (d2 + e2))) (e1 - e2)).
  set (s := e1 - e2 - e').
  assert (Hs : 0 <= s) by (unfold s, e'; lia).
  set (m' := match s with Zpos _ => Z.shiftl m1 s | Z0 => m1 | Zneg _ => 0 end).
  assert (Hm' : m' = m1 * 2 ^ s).
  { unfold m'. destruct s as [|p|p] eqn:Hsp; try lia.
    apply Z.shiftl_mul_pow2. lia. }
  pose proof (Z.pow_pos_nonneg 2 s ltac:(lia) Hs) as Hpow.
  pose proof (Z_div_mod m' m2 ltac:(lia)) as Hdm.
  destruct (Z.div_eucl m' m2) as [q r]. destruct Hdm as [Hdiv Hr].
  assert (Hq : 0 <= q) by nia.
  pose proof (bpow_gt_0 e') as HB. pose proof (bpow_gt_0 e2) as HB2.
  assert (Hm2R : (0 < IZR m2)%R) by (apply IZR_lt; lia).
  assert (Hx : (val m1 e1 / val m2 e2 =
                (IZR q + IZR r / IZR m2) * bpow e')%R).
  { unfold val. replace e1 with (s + e' + e2) by (unfold s; lia).
    rewrite !bpow_plus, (bpow_IZR s) by lia.
    replace (IZR m1 * (IZR (2 ^ s) * bpow e' * bpow e2))%R
      with (IZR (m1 * 2 ^ s) * bpow e' * bpow e2)%R by (rewrite mult_IZR; ring).
    rewrite <- Hm', Hdiv, plus_IZR, mult_IZR. field. lra. }
  assert (Hrho : (0 <= IZR r / IZR m2 < 1)%R).
  { apply Rdiv_unit_interval. split; [apply IZR_le; lia|apply IZR_lt; lia]. }
  repeat split; try assumption.
  - rewrite Hx.
    destruct (new_location_spec m2 r Hm2 Hr) as [[-> ->]|[Hr0 [c [-> Hc]]]].
    + cbn [locates]. unfold val, Rdiv. rewrite Rmult_0_l, Rplus_0_r. reflexivity.
    + assert (0 < IZR r / IZR m2)%R as Hrho0.
      { apply Rdiv_lt_0_compat; [apply IZR_lt; lia|assumption]. }
      cbn [locates]. unfold val. rewrite bpow_pred, !plus_IZR, mult_IZR.
      split; [split; nra|].
      assert (Hhalf : match c with
                      | Lt => (IZR r / IZR m2 < / 2)%R
                      | Eq => (IZR r / IZR m2 = / 2)%R
                      | Gt => (/ 2 < IZR r / IZR m2)%R end).
      { destruct c.
        - apply (f_equal IZR) in Hc. rewrite mult_IZR in Hc.
          apply Rmult_eq_reg_r with (IZR m2); [|lra]. field_simplify; lra.
        - apply IZR_lt in Hc. rewrite mult_IZR in Hc.
          apply Rmult_lt_reg_r with (IZR m2); [lra|].
          unfold Rdiv. rewrite Rmult_assoc, Rinv_l by lra. lra.
        - apply IZR_lt in Hc. rewrite mult_IZR in Hc.
          apply Rmult_lt_reg_r with (IZR m2); [lra|].
          unfold Rdiv. rewrite Rmult_assoc, Rinv_l by lra. lra. }
      destruct c; simpl; nra.
  - (* the quotient has enough digits *)
    pose proof (Zdigits2_bounds m1 Hm1) as [A1 _].
    pose proof (Zdigits2_bounds m2 Hm2) as [_ B2].
    pose proof (Zdigits2_pos m1 Hm1) as P1. pose proof (Zdigits2_pos m2 Hm2) as P2.
    fold d1 d2 in A1, B2, P1, P2.
    assert (He' : e' <= fexp32 (d1 + e1 - (d2 + e2))) by (unfold e', fexp32; lia).
    destruct (Z_le_gt_dec 0 (d1 - 1 + s - d2)) as [Hk|Hk].
    + assert (2 ^ (d1 - 1 + s - d2) <= q) as Hq2.
      { assert (2 ^ (d1 - 1 + s - d2) * 2 ^ d2 <= m') as Hlow.
        { rewrite <- Z.pow_add_r by lia.
          replace (d1 - 1 + s - d2 + d2) with ((d1 - 1) + s) by lia.
          rewrite Z.pow_add_r, Hm' by lia. nia. }
        pose proof (Z.pow_pos_nonneg 2 (d1 - 1 + s - d2) ltac:(lia) Hk).
        nia. }
      apply Zdigits2_ge_pow in Hq2; [|assumption].
      eapply Z.le_trans; [exact He'|]. apply fexp32_mono. unfold s in *. lia.
    + rewrite fexp32_eq in *.
      destruct (Z.eq_dec q 0) as [->|Hq0].
      * simpl Zdigits2. unfold s in Hk. lia.
      * pose proof (Zdigits2_pos q ltac:(lia)). unfold s in Hk. lia.
Qed.

Lemma Rdiv_opp_l a b : (- a / b = - (a / b))%R.
Proof. unfold Rdiv. ring. Qed.

Lemma Rdiv_opp_r a b : (b <> 0 -> a / - b = - (a / b))%R.
Proof. intros H. unfold Rdiv. field. assumption. Qed.

(** Division by a non-zero datum is the rounded quotient. *)
Theorem div_rounds x sy my ey :
  is_finite x = true ->
  rounds_to (SF2R x / SF2R (S754_finite sy my ey))
            (div x (S754_finite sy my ey)).
Proof.
  intros Fx. unfold div.
  destruct x as [sx| | |sx mx ex]; try discriminate.
  - cbn [SFdiv SF2R]. left. split; [unfold Rdiv; ring|]. eexists. reflexivity.
  - cbn [SFdiv].
    pose proof (SFdiv_core_binary_locates (Zpos mx) ex (Zpos my) ey
                  ltac:(lia) ltac:(lia)) as H.
    destruct (SFdiv_core_binary prec emax (Zpos mx) ex (Zpos my) ey)
      as [[q e'] l].
    destruct H as (Hloc & Hq & Hpre).
    pose proof (val_pos (Zpos mx) ex ltac:(lia)) as Hpx.
    pose proof (val_pos (Zpos my) ey ltac:(lia)) as Hpy.
    assert (Hpos : (0 < val (Zpos mx) ex / val (Zpos my) ey)%R)
      by (apply Rdiv_lt_0_compat; assumption).
    assert (Hr : forall s, pos_rounds (val (Zpos mx) ex / val (Zpos my) ey) s
                   (binary_round_aux prec emax s q e' l)).
    { intros s. apply binary_round_aux_rounds; assumption. }
    cbn [SF2R].
    destruct sx, sy; cbn [xorb cond_Zopp Z.opp]; rewrite ?val_Zneg;
      rewrite ?Rdiv_opp_l, ?Rdiv_opp_r, ?Ropp_involutive by lra.
    + right. left. split; [assumption|]. apply Hr.
    + right. right. split; [lra|]. rewrite Ropp_involutive. apply Hr.
    + right. right. split; [lra|]. rewrite Ropp_involutive. apply Hr.
    + right. left. split; [assumption|]. apply Hr.
Qed.

(** what [SFsqrt_core_binary] returns locates the square root *)
Lemma SFsqrt_core_binary_locates m e :
  0 < m ->
  let '(q, e', l) := SFsqrt_core_binary prec emax m e in
  locates (R_sqrt.sqrt (val m e)) q e' l /\ 0 <= q /\
  e' <= fexp32 (Zdigits2 q + e').
Proof.
  intros Hm. unfold SFsqrt_core_binary.
  set (d := Zdigits2 m).
  set (e' := Z.min (fexp prec emax (Z.div2 (d + e + 1))) (Z.div2 e)).
  set (s := e - 2 * e').
  assert (Hs : 0 <= s).
  { unfold s, e'. pose proof (Z.div2_odd e) as Ho.
    destruct (Z.odd e); cbn [Z.b2z] in Ho; lia. }
  set (m' := match s with Zpos _ => Z.shiftl m s | Z0 => m | Zneg _ => 0 end).
  assert (Hm' : m' = m * 2 ^ s).
  { unfold m'. destruct s as [|p|p] eqn:Hsp; try lia.
    apply Z.shiftl_mul_pow2. lia. }
  pose proof (Z.pow_pos_nonneg 2 s ltac:(lia) Hs) as Hpow.
  assert (Hm'pos : 0 < m') by nia.
  pose proof (Z.sqrtrem_spec m' ltac:(lia)) as Hsq.
  destruct (Z.sqrtrem m') as [q r]. destruct Hsq as [Hsq Hr].
  assert (Hq : 0 < q) by nia.
  pose proof (bpow_gt_0 e') as HB.
  set (X := R_sqrt.sqrt (IZR m')).
  assert (HX0 : (0 <= X)%R) by apply sqrt_pos.
  assert (HX2 : (X * X = IZR q * IZR q + IZR r)%R).
  { unfold X. rewrite sqrt_sqrt by (apply IZR_le; lia).
    rewrite Hsq, plus_IZR, mult_IZR. reflexivity. }
  assert (Hx : R_sqrt.sqrt (val m e) = (X * bpow e')%R).
  { unfold val. replace e with (s + (e' + e')) by (unfold s; lia).
    rewrite !bpow_plus, (bpow_IZR s) by lia.
    replace (IZR m * (IZR (2 ^ s) * (bpow e' * bpow e')))%R
      with (IZR (m * 2 ^ s) * (bpow e' * bpow e'))%R by (rewrite mult_IZR; ring).
    rewrite <- Hm', sqrt_mult by (try (apply IZR_le; lia); nra).
    rewrite sqrt_square by lra. reflexivity. }
  assert (HqR : (0 < IZR q)%R) by (apply IZR_lt; lia).
  assert (HrR : (0 <= IZR r <= 2 * IZR q)%R).
  { split; [apply IZR_le; lia|]. rewrite <- mult_IZR. apply IZR_le. lia. }
  repeat split; try lia.
  - rewrite Hx. destruct (Z.eqb_spec r 0) as [->|Hr0].
    + cbn [locates]. unfold val. f_equal. nra.
    + assert (0 < r) as Hrpos by lia. apply IZR_lt in Hrpos.
      cbn [locates]. unfold val. rewrite bpow_pred, !plus_IZR, mult_IZR.
      assert (IZR q < X)%R by nra.
      assert (X < IZR q + 1)%R by nra.
      split; [split; nra|].
      destruct (Z.leb_spec r q) as [Hle|Hgt]; cbn [cmp_rel].
      * apply IZR_le in Hle.
        assert (X < IZR q + / 2)%R by nra. nra.
      * assert (q + 1 <= r) as Hge by lia. apply IZR_le in Hge.
        rewrite plus_IZR in Hge.
        assert (IZR q + / 2 < X)%R by nra. nra.
  - (* the root has enough digits *)
    pose proof (Zdigits2_bounds m Hm) as [A1 _].
    pose proof (Zdigits2_pos m Hm) as P1. fold d in A1, P1.
    assert (He' : e' <= fexp32 (Z.div2 (d + e + 1))) by (unfold e', fexp32; lia).
    eapply Z.le_trans; [exact He'|]. apply fexp32_mono.
    set (h := Z.div2 (d + s - 1)).
    assert (Hh : 0 <= h /\ 2 * h <= d + s - 1 /\ Z.div2 (d + e + 1) = h + 1 + e').
    { unfold h. pose proof (Z.div2_odd (d + s - 1)) as H1.
      pose proof (Z.div2_odd (d + e + 1)) as H2.
      unfold s in *.
      destruct (Z.odd (d + (e - 2 * e') - 1)), (Z.odd (d + e + 1));
        cbn [Z.b2z] in H1, H2; lia. }
    destruct Hh as (Hh0 & Hh1 & Hh2).
    assert (2 ^ h <= q) as Hq2.
    { assert (2 ^ h * 2 ^ h <= m') as Hlow.
      { rewrite <- Z.pow_add_r by lia.
        apply Z.le_trans with (2 ^ (d - 1 + s)).
        - apply Z.pow_le_mono_r; lia.
        - rewrite Z.pow_add_r, Hm' by lia. nia. }
      pose proof (Z.pow_pos_nonneg 2 h ltac:(lia) Hh0). nia. }
    apply Zdigits2_ge_pow in Hq2; [|assumption]. lia.
Qed.

(** The square root of a non-negative datum is the rounded square root. *)
Theorem sqrt_rounds x :
  is_finite x = true -> is_nonneg x = true ->
  rounds_to (R_sqrt.sqrt (SF2R x)) (F32.sqrt x).
Proof.
  intros Fx Nx. unfold F32.sqrt.
  destruct x as [sx| | |[|] mx ex]; try discriminate.
  - cbn [SFsqrt SF2R]. left. split; [apply sqrt_0|]. eexists. reflexivity.
  - cbn [SFsqrt SF2R cond_Zopp].
    pose proof (SFsqrt_core_binary_locates (Zpos mx) ex ltac:(lia)) as H.
    destruct (SFsqrt_core_binary prec emax (Zpos mx) ex) as [[q e'] l].
    destruct H as (Hloc & Hq & Hpre).
    right. left. split.
    + apply sqrt_lt_R0. apply val_pos. lia.
    + apply binary_round_aux_rounds; try assumption.
      apply sqrt_lt_R0. apply val_pos. lia.
Qed.

(** ** Numbers, boxes and interval evaluation *)

Lemma proper_inv x : proper x = true -> valid x = true /\ is_finite x = true.
Proof. unfold proper. intros H. apply andb_true_iff in H. exact H. Qed.

Lemma within_inv lo hi x :
  within lo hi x = true ->
  proper lo = true /\ proper hi = true /\ proper x = true /\
  SFleb lo x = true /\ SFleb x hi = true.
Proof.
  unfold within. intros H.
  do 4 (apply andb_true_iff in H; destruct H as [H ?]). repeat split; assumption.
Qed.

Lemma within_intro lo hi x :
  proper lo = true -> proper hi = true -> proper x = true ->
  SFleb lo x = true -> SFleb x hi = true -> within lo hi x = true.
Proof. unfold within. intros -> -> -> -> ->. reflexivity. Qed.

Lemma proper_leb_iff a b :
  proper a = true -> proper b = true ->
  (SFleb a b = true <-> (SF2R a <= SF2R b)%R).
Proof.
  intros Ha Hb. apply proper_inv in Ha, Hb. apply SFleb_iff; tauto.
Qed.

Lemma proper_ltb_iff a b :
  proper a = true -> proper b = true ->
  (SFltb a b = true <-> (SF2R a < SF2R b)%R).
Proof.
  intros Ha Hb. apply proper_inv in Ha, Hb. apply SFltb_iff; tauto.
Qed.

(** on numbers the order is total *)
Lemma proper_not_ltb a b :
  proper a = true -> proper b = true -> SFltb b a = false -> SFleb a b = true.
Proof.
  intros Ha Hb H. apply proper_leb_iff; try assumption.
  destruct (Rle_lt_dec (SF2R a) (SF2R b)) as [|Hlt]; [assumption|].
  apply (proper_ltb_iff b a Hb Ha) in Hlt. congruence.
Qed.

Lemma proper_not_leb a b :
  proper a = true -> proper b = true -> SFleb b a = false -> SFltb a b = true.
Proof.
  intros Ha Hb H. apply proper_ltb_iff; try assumption.
  destruct (Rlt_le_dec (SF2R a) (SF2R b)) as [|Hle]; [assumption|].
  apply (proper_leb_iff b a Hb Ha) in Hle. congruence.
Qed.

Lemma proper_leb_trans a b c :
  proper a = true -> proper b = true -> proper c = true ->
  SFleb a b = true -> SFleb b c = true -> SFleb a c = true.
Proof.
  intros Ha Hb Hc H1 H2.
  apply proper_leb_iff in H1, H2; try assumption.
  apply proper_leb_iff; try assumption. lra.
Qed.

(** a well-formed datum between two numbers is a number *)
Lemma between_proper a r b :
  valid r = true -> is_finite a = true -> is_finite b = true ->
  SFleb a r = true -> SFleb r b = true -> proper r = true.
Proof.
  intros Vr Fa Fb H1 H2. unfold proper. rewrite Vr. simpl.
  destruct r as [s|[|]| |s m e]; try reflexivity;
    destruct a as [?|[|]| |[|] ? ?], b as [?|[|]| |[|] ? ?];
    cbv in Fa, Fb, H1, H2; discriminate.
Qed.

Lemma rounds_to_within x r a b :
  rounds_to x r -> proper a = true -> proper b = true ->
  (SF2R a <= x <= SF2R b)%R -> within a b r = true.
Proof.
  intros Hr Ha Hb [H1 H2].
  pose proof (proper_inv a Ha) as [Va Fa].
  pose proof (proper_inv b Hb) as [Vb Fb].
  pose proof (rounds_to_ge x r a Hr Va Fa H1) as L1.
  pose proof (rounds_to_le x r b Hr Vb Fb H2) as L2.
  destruct (rounds_to_valid x r Hr) as [Vr _].
  apply within_intro; try assumption.
  apply (between_proper a r b); assumption.
Qed.

(** *** The operators are monotone *)

Lemma add_mono x x' y y' :
  proper x = true -> proper x' = true -> proper y = true -> proper y' = true ->
  SFleb x x' = true -> SFleb y y' = true ->
  SFleb (add x y) (add x' y') = true.
Proof.
  intros Px Px' Py Py' Hx Hy.
  apply proper_leb_iff in Hx, Hy; try assumption.
  apply proper_inv in Px, Px', Py, Py'.
  apply (rounds_to_mono (SF2R x + SF2R y) (SF2R x' + SF2R y'));
    [lra | apply add_rounds; tauto | apply add_rounds; tauto].
Qed.

Lemma sub_mono x x' y y' :
  proper x = true -> proper x' = true -> proper y = true -> proper y' = true ->
  SFleb x x' = true -> SFleb y' y = true ->
  SFleb (sub x y) (sub x' y') = true.
Proof.
  intros Px Px' Py Py' Hx Hy.
  apply proper_leb_iff in Hx, Hy; try assumption.
  apply proper_inv in Px, Px', Py, Py'.
  apply (rounds_to_mono (SF2R x - SF2R y) (SF2R x' - SF2R y'));
    [lra | apply sub_rounds; tauto | apply sub_rounds; tauto].
Qed.

Lemma SF2R_f0 : SF2R f0 = 0%R.
Proof. reflexivity. Qed.

Lemma mul_mono x x' y y' :
  proper x = true -> proper x' = true -> proper y = true -> proper y' = true ->
  SFleb f0 x = true -> SFleb f0 y = true ->
  SFleb x x' = true -> SFleb y y' = true ->
  SFleb (mul x y) (mul x' y') = true.
Proof.
  intros Px Px' Py Py' H0x H0y Hx Hy.
  assert (P0 : proper f0 = true) by reflexivity.
  apply proper_leb_iff in Hx, Hy, H0x, H0y; try assumption.
  rewrite SF2R_f0 in *.
  apply proper_inv in Px, Px', Py, Py'.
  apply (rounds_to_mono (SF2R x * SF2R y) (SF2R x' * SF2R y'));
    [nra | apply mul_rounds; tauto | apply mul_rounds; tauto].
Qed.

Lemma finite_pos_inv y :
  is_finite_pos y = true -> exists m e, y = S754_finite false m e.
Proof. destruct y as [?|?| |[|] m e]; try discriminate. eauto. Qed.

Lemma finite_pos_SF2R y : is_finite_pos y = true -> (0 < SF2R y)%R.
Proof.
  intros H. destruct (finite_pos_inv y H) as (m & e & ->).
  cbn [SF2R cond_Zopp]. apply val_pos. lia.
Qed.

Lemma finite_pos_finite y : is_finite_pos y = true -> is_finite y = true.
Proof. destruct y as [?|?| |[|] m e]; try discriminate. reflexivity. Qed.

Lemma proper_pos_finite_pos y :
  proper y = true -> (0 < SF2R y)%R -> is_finite_pos y = true.
Proof.
  intros P H. apply proper_inv in P. destruct P as [_ F].
  destruct y as [?|?| |[|] m e]; try discriminate; cbn [SF2R cond_Zopp Z.opp] in H.
  - lra.
  - rewrite val_Zneg in H. pose proof (val_pos (Zpos m) e ltac:(lia)). lra.
  - reflexivity.
Qed.

Lemma Rdiv_mono a a' b b' :
  (0 <= a <= a' -> 0 < b' <= b -> a / b <= a' / b')%R.
Proof.
  intros [Ha Haa] [Hb Hbb].
  assert (0 < / b)%R by (apply Rinv_0_lt_compat; lra).
  assert (/ b <= / b')%R by (apply Rinv_le_contravar; lra).
  unfold Rdiv. apply Rle_trans with (a' * / b)%R; nra.
Qed.

Lemma div_mono x x' y y' :
  proper x = true -> proper x' = true -> proper y = true -> proper y' = true ->
  SFleb f0 x = true -> is_finite_pos y' = true ->
  SFleb x x' = true -> SFleb y' y = true ->
  SFleb (div x y) (div x' y') = true.
Proof.
  intros Px Px' Py Py' H0x Hpos Hx Hy.
  assert (P0 : proper f0 = true) by reflexivity.
  apply proper_leb_iff in Hx, Hy, H0x; try assumption.
  rewrite SF2R_f0 in *.
  pose proof (finite_pos_SF2R y' Hpos) as Hy'pos.
  assert (is_finite_pos y = true) as Hposy
    by (apply proper_pos_finite_pos; [assumption|lra]).
  destruct (finite_pos_inv y Hposy) as (m & e & ->).
  destruct (finite_pos_inv y' Hpos) as (m' & e' & ->).
  apply proper_inv in Px, Px'.
  eapply rounds_to_mono; [|apply div_rounds; tauto|apply div_rounds; tauto].
  apply Rdiv_mono; lra.
Qed.

Lemma sqrt_mono x x' :
  proper x = true -> proper x' = true ->
  SFleb f0 x = true -> SFleb x x' = true ->
  SFleb (F32.sqrt x) (F32.sqrt x') = true.
Proof.
  intros Px Px' H0x Hx.
  assert (P0 : proper f0 = true) by reflexivity.
  assert (H0x' : SFleb f0 x' = true)
    by (apply (proper_leb_trans f0 x x'); assumption).
  apply proper_inv in Px, Px'.
  assert (Nx : is_nonneg x = true).
  { destruct x as [?|[|]| |[|] ? ?]; try reflexivity; discriminate || tauto. }
  assert (Nx' : is_nonneg x' = true).
  { destruct x' as [?|[|]| |[|] ? ?]; try reflexivity; discriminate || tauto. }
  apply SFleb_iff in Hx; try tauto.
  eapply rounds_to_mono; [|apply sqrt_rounds; tauto|apply sqrt_rounds; tauto].
  apply sqrt_le_1_alt. assumption.
Qed.

(** *** Results are well-formed *)

Lemma add_valid x y :
  proper x = true -> proper y = true -> valid (add x y) = true.
Proof.
  intros Px Py. apply proper_inv in Px, Py.
  eapply rounds_to_valid. apply add_rounds; tauto.
Qed.

Lemma sub_valid x y :
  proper x = true -> proper y = true -> valid (sub x y) = true.
Proof.
  intros Px Py. apply proper_inv in Px, Py.
  eapply rounds_to_valid. apply sub_rounds; tauto.
Qed.

Lemma mul_valid x y :
  proper x = true -> proper y = true -> valid (mul x y) = true.
Proof.
  intros Px Py. apply proper_inv in Px, Py.
  eapply rounds_to_valid. apply mul_rounds; tauto.
Qed.

(** a quotient is well-formed whatever the operands *)
Lemma div_valid x y : valid (div x y) = true.
Proof.
  destruct y as [sy|sy| |sy my ey]; destruct x as [sx|sx| |sx mx ex];
    try reflexivity.
  eapply rounds_to_valid. apply div_rounds. reflexivity.
Qed.

(** so is a square root *)
Lemma sqrt_valid x : valid (F32.sqrt x) = true.
Proof.
  destruct x as [sx|[|]| |[|] mx ex]; try reflexivity.
  eapply rounds_to_valid. apply (sqrt_rounds (S754_finite false mx ex)); reflexivity.
Qed.

(** *** Interval evaluation: an operator applied inside a box stays
    between its values at the corners *)

Lemma add_within a b c d x y :
  within a b x = true -> within c d y = true ->
  is_finite (add a c) = true -> is_finite (add b d) = true ->
  within (add a c) (add b d) (add x y) = true.
Proof.
  intros Hx Hy F1 F2.
  apply within_inv in Hx, Hy.
  destruct Hx as (Pa & Pb & Px & Hax & Hxb), Hy as (Pc & Pd & Py & Hcy & Hyd).
  assert (P1 : proper (add a c) = true)
    by (unfold proper; rewrite add_valid, F1; auto).
  assert (P2 : proper (add b d) = true)
    by (unfold proper; rewrite add_valid, F2; auto).
  pose proof (add_mono a x c y Pa Px Pc Py Hax Hcy) as L1.
  pose proof (add_mono x b y d Px Pb Py Pd Hxb Hyd) as L2.
  apply within_intro; try assumption.
  apply (between_proper (add a c) _ (add b d)); try assumption.
  apply add_valid; assumption.
Qed.

Lemma sub_within a b c d x y :
  within a b x = true -> within c d y = true ->
  is_finite (sub a d) = true -> is_finite (sub b c) = true ->
  within (sub a d) (sub b c) (sub x y) = true.
Proof.
  intros Hx Hy F1 F2.
  apply within_inv in Hx, Hy.
  destruct Hx as (Pa & Pb & Px & Hax & Hxb), Hy as (Pc & Pd & Py & Hcy & Hyd).
  assert (P1 : proper (sub a d) = true)
    by (unfold proper; rewrite sub_valid, F1; auto).
  assert (P2 : proper (sub b c) = true)
    by (unfold proper; rewrite sub_valid, F2; auto).
  pose proof (sub_mono a x d y Pa Px Pd Py Hax Hyd) as L1.
  pose proof (sub_mono x b y c Px Pb Py Pc Hxb Hcy) as L2.
  apply within_intro; try assumption.
  apply (between_proper (sub a d) _ (sub b c)); try assumption.
  apply sub_valid; assumption.
Qed.

Lemma mul_within a b c d x y :
  within a b x = true -> within c d y = true ->
  SFleb f0 a = true -> SFleb f0 c = true ->
  is_finite (mul a c) = true -> is_finite (mul b d) = true ->
  within (mul a c) (mul b d) (mul x y) = true.
Proof.
  intros Hx Hy H0a H0c F1 F2.
  apply within_inv in Hx, Hy.
  destruct Hx as (Pa & Pb & Px & Hax & Hxb), Hy as (Pc & Pd & Py & Hcy & Hyd).
  assert (P0 : proper f0 = true) by reflexivity.
  assert (P1 : proper (mul a c) = true)
    by (unfold proper; rewrite mul_valid, F1; auto).
  assert (P2 : proper (mul b d) = true)
    by (unfold proper; rewrite mul_valid, F2; auto).
  pose proof (proper_leb_trans f0 a x P0 Pa Px H0a Hax) as H0x.
  pose proof (proper_leb_trans f0 c y P0 Pc Py H0c Hcy) as H0y.
  pose proof (mul_mono a x c y Pa Px Pc Py H0a H0c Hax Hcy) as L1.
  pose proof (mul_mono x b y d Px Pb Py Pd H0x H0y Hxb Hyd) as L2.
  apply within_intro; try assumption.
  apply (between_proper (mul a c) _ (mul b d)); try assumption.
  apply mul_valid; assumption.
Qed.

Lemma within_finite_pos c d y :
  within c d y = true -> is_finite_pos c = true -> is_finite_pos y = true.
Proof.
  intros Hy Hc. apply within_inv in Hy.
  destruct Hy as (Pc & Pd & Py & Hcy & Hyd).
  apply proper_pos_finite_pos; [assumption|].
  apply proper_leb_iff in Hcy; try assumption.
  pose proof (finite_pos_SF2R c Hc). lra.
Qed.

Lemma div_within a b c d x y :
  within a b x = true -> within c d y = true ->
  SFleb f0 a = true -> is_finite_pos c = true ->
  is_finite (div a d) = true -> is_finite (div b c) = true ->
  within (div a d) (div b c) (div x y) = true.
Proof.
  intros Hx Hy H0a Hc F1 F2.
  pose proof (within_finite_pos c d y Hy Hc) as Hypos.
  apply within_inv in Hx, Hy.
  destruct Hx as (Pa & Pb & Px & Hax & Hxb), Hy as (Pc & Pd & Py & Hcy & Hyd).
  assert (P0 : proper f0 = true) by reflexivity.
  assert (P1 : proper (div a d) = true)
    by (unfold proper; rewrite div_valid, F1; auto).
  assert (P2 : proper (div b c) = true)
    by (unfold proper; rewrite div_valid, F2; auto).
  pose proof (proper_leb_trans f0 a x P0 Pa Px H0a Hax) as H0x.
  pose proof (div_mono a x d y Pa Px Pd Py H0a Hypos Hax Hyd) as L1.
  pose proof (div_mono x b y c Px Pb Py Pc H0x Hc Hxb Hcy) as L2.
  apply within_intro; try assumption.
  apply (between_proper (div a d) _ (div b c)); try assumption.
  apply div_valid.
Qed.

Lemma sqrt_within a b x :
  within a b x = true -> SFleb f0 a = true ->
  is_finite (F32.sqrt a) = true -> is_finite (F32.sqrt b) = true ->
  within (F32.sqrt a) (F32.sqrt b) (F32.sqrt x) = true.
Proof.
  intros Hx H0a F1 F2.
  apply within_inv in Hx. destruct Hx as (Pa & Pb & Px & Hax & Hxb).
  assert (P0 : proper f0 = true) by reflexivity.
  assert (P1 : proper (F32.sqrt a) = true)
    by (unfold proper; rewrite sqrt_valid, F1; auto).
  assert (P2 : proper (F32.sqrt b) = true)
    by (unfold proper; rewrite sqrt_valid, F2; auto).
  pose proof (proper_leb_trans f0 a x P0 Pa Px H0a Hax) as H0x.
  pose proof (sqrt_mono a x Pa Px H0a Hax) as L1.
  pose proof (sqrt_mono x b Px Pb H0x Hxb) as L2.
  apply within_intro; try assumption.
  apply (between_proper (F32.sqrt a) _ (F32.sqrt b)); try assumption.
  apply sqrt_valid.
Qed.

Lemma within_weaken a b a' b' x :
  within a b x = true -> proper a' = true -> proper b' = true ->
  SFleb a' a = true -> SFleb b b' = true -> within a' b' x = true.
Proof.
  intros Hx Pa' Pb' H1 H2. apply within_inv in Hx.
  destruct Hx as (Pa & Pb & Px & Hax & Hxb).
  apply within_intro; try assumption.
  - apply (proper_leb_trans a' a x); assumption.
  - apply (proper_leb_trans x b b'); assumption.
Qed.

Lemma within_refl x : proper x = true -> within x x x = true.
Proof.
  intros P. apply within_intro; try assumption;
    apply proper_leb_iff; try assumption; lra.
Qed.

(** ** The Doppler factor on the clamped range *)

Lemma calculate_decompose sv ov :
  calculateRelativisticDopplerShift sv ov =
  dopplerOfBeta (clampBeta (rawBeta sv ov)).
Proof. reflexivity. Qed.

Lemma val_exp_mono k e e' : 0 <= k -> e <= e' -> (val k e <= val k e')%R.
Proof.
  intros Hk He. unfold val. apply Rmult_le_compat_l; [apply IZR_le; lia|].
  apply bpow_le. assumption.
Qed.

Lemma SF2R_pred_one : SF2R pred_one = val 16777215 (-24).
Proof. reflexivity. Qed.

Lemma SF2R_f1 : SF2R f1 = 1%R.
Proof.
  change (SF2R f1) with (val (2 ^ 23) (-23)). rewrite val_pow by lia. reflexivity.
Qed.

(** no binary32 number lies strictly between [1 - 2^-24] and 1 *)
Lemma below_one x :
  proper x = true -> (SF2R x < 1)%R -> SFleb x pred_one = true.
Proof.
  intros P H. assert (Pp : proper pred_one = true) by reflexivity.
  apply proper_leb_iff; try assumption. rewrite SF2R_pred_one.
  pose proof (val_pos 16777215 (-24) ltac:(lia)) as Hp.
  apply proper_inv in P. destruct P as [V F].
  destruct x as [s| | |[|] m e]; try discriminate; cbn [SF2R cond_Zopp Z.opp] in *.
  - lra.
  - rewrite val_Zneg. pose proof (val_pos (Zpos m) e ltac:(lia)). lra.
  - pose proof (valid_finite_inv _ _ _ V) as (Hm & He & Hn).
    destruct (Z_le_gt_dec e (-24)) as [Hle|Hgt].
    + apply Rle_trans with (val 16777215 e).
      * apply val_le_iff. lia.
      * apply val_exp_mono; lia.
    + exfalso. assert (1 <= val (Zpos m) e)%R; [|lra].
      apply Rle_trans with (val (2 ^ 23) (-23)).
      * rewrite val_pow by lia. simpl. unfold bpow. simpl. lra.
      * apply Rle_trans with (val (2 ^ 23) e).
        -- apply val_exp_mono; lia.
        -- apply val_le_iff. lia.
Qed.

Lemma above_minus_one x :
  proper x = true -> (-1 < SF2R x)%R -> SFleb (- pred_one)%f32 x = true.
Proof.
  intros P H. unfold neg.
  rewrite <- (SFopp_involutive x), SFleb_opp.
  apply below_one.
  - unfold proper in *. rewrite valid_opp, is_finite_opp. assumption.
  - rewrite SF2R_opp. lra.
Qed.

(** a well-formed datum that is neither NaN nor beyond the thresholds is a
    number strictly between them *)
Lemma unclamped_within beta :
  valid beta = true -> is_nan beta = false ->
  (beta >=? f1)%f32 = false -> (beta <=? - f1)%f32 = false ->
  within (- pred_one)%f32 pred_one beta = true.
Proof.
  unfold geb, leb. intros V N G L.
  assert (F : is_finite beta = true).
  { destruct beta as [s|[|]| |s m e]; try reflexivity; discriminate. }
  assert (P : proper beta = true) by (unfold proper; rewrite V, F; reflexivity).
  assert (P1 : proper f1 = true) by reflexivity.
  assert (Pm1 : proper (- f1)%f32 = true) by reflexivity.
  apply (proper_not_leb beta f1 P P1) in G.
  apply (proper_not_leb (- f1)%f32 beta Pm1 P) in L.
  apply proper_ltb_iff in G, L; try assumption.
  unfold neg in L. rewrite SF2R_opp in L. rewrite SF2R_f1 in *.
  apply within_intro; try assumption; try reflexivity.
  - apply above_minus_one; assumption.
  - apply below_one; assumption.
Qed.

Lemma clampBeta_eq beta :
  clampBeta beta =
  if (beta >=? f1)%f32 then f0_99
  else if (beta <=? - f1)%f32 then (- f0_99)%f32 else beta.
Proof. unfold clampBeta. destruct (beta >=? f1)%f32; reflexivity. Qed.

(** interval evaluation of expressions over constants and bounded variables *)
Ltac box :=
  first
  [ eassumption
  | lazymatch goal with
    | |- within _ _ (add _ _) = true =>
        eapply add_within; [box | box | vm_compute; reflexivity ..]
    | |- within _ _ (sub _ _) = true =>
        eapply sub_within; [box | box | vm_compute; reflexivity ..]
    | |- within _ _ (mul _ _) = true =>
        eapply mul_within; [box | box | vm_compute; reflexivity ..]
    | |- within _ _ (div _ _) = true =>
        eapply div_within; [box | box | vm_compute; reflexivity ..]
    | |- within _ _ (F32.sqrt _) = true =>
        eapply sqrt_within; [box | vm_compute; reflexivity ..]
    | |- within _ _ _ = true =>
        apply within_refl; vm_compute; reflexivity
    end ].

(** the factor is a positive number on the whole clamped range *)
Lemma dopplerOfBeta_within beta :
  within (- pred_one)%f32 pred_one beta = true ->
  within (S754_finite false 11863283 (-36)) (S754_finite false 11863283 (-11))
         (dopplerOfBeta beta) = true.
Proof.
  intros H. unfold dopplerOfBeta.
  eapply within_weaken; [box | vm_compute; reflexivity ..].
Qed.

(** ** The factor grows: a grid on (-1, 1) *)

Lemma gridRange_In lo n k :
  lo <= k < lo + Z.of_nat n -> In k (gridRange lo n).
Proof.
  intros H. unfold gridRange. apply in_map_iff.
  exists (Z.to_nat (k - lo)). split; [cbv beta; lia|]. apply in_seq. lia.
Qed.

Lemma grid_exact_table :
  forallb (fun k => gridExact k && proper (gridPoint k)) (gridRange (-2048) 4098)
  = true.
Proof. vm_compute. reflexivity. Qed.

Lemma grid_strict_table : forallb gridStrict (gridRange (-2047) 4094) = true.
Proof. vm_compute. reflexivity. Qed.

Lemma grid_shift_table : forallb gridShift (gridRange (-2048) 4096) = true.
Proof. vm_compute. reflexivity. Qed.

Lemma gridPoint_val k :
  -2048 <= k <= 2049 ->
  proper (gridPoint k) = true /\ SF2R (gridPoint k) = val k (-11).
Proof.
  intros H.
  assert (I : In k (gridRange (-2048) 4098)) by (apply gridRange_In; lia).
  pose proof (proj1 (forallb_forall _ _) grid_exact_table k I) as T.
  cbv beta in T. apply andb_true_iff in T. destruct T as [E P].
  split; [exact P|]. unfold gridExact in E.
  destruct (gridPoint k) as [s| | |s m e]; try discriminate.
  - apply Z.eqb_eq in E. subst k. rewrite val_0. reflexivity.
  - apply andb_true_iff in E. destruct E as [E1 E2].
    apply Z.leb_le in E1. apply Z.eqb_eq in E2.
    cbn [SF2R]. rewrite E2.
    replace e with (-11 - (-11 - e)) at 2 by lia.
    apply val_shift. lia.
Qed.

Lemma val_grid k : val k (-11) = (IZR k / 2048)%R.
Proof.
  unfold val. replace (bpow (-11)) with (/ 2048)%R; [reflexivity|].
  assert (H : (bpow (-11) * 2048 = 1)%R).
  { replace 2048%R with (bpow 11) by (rewrite bpow_IZR by lia; reflexivity).
    rewrite <- bpow_plus. apply bpow_0. }
  apply Rmult_eq_reg_r with 2048%R; [|lra]. rewrite H. field.
Qed.

(** every number strictly between -1 and 1 has a grid point at or above it
    and the previous grid point below it *)
Lemma grid_cell b :
  proper b = true -> (-1 < SF2R b < 1)%R ->
  exists i, -2047 <= i <= 2048 /\
    SFltb (gridPoint (i - 1)) b = true /\ SFleb b (gridPoint i) = true.
Proof.
  intros P [H1 H2].
  set (y := (SF2R b * 2048)%R).
  destruct (archimed (- y)) as [A1 A2].
  set (j := up (- y)) in *.
  assert (B1 : (IZR (- j) < y)%R) by (rewrite opp_IZR; lra).
  assert (B2 : (y <= IZR (1 - j))%R) by (rewrite minus_IZR; lra).
  assert (R1 : -2047 <= 1 - j).
  { assert (IZR (-2048) < IZR (1 - j))%R by (unfold y in *; lra).
    apply lt_IZR in H. lia. }
  assert (R2 : 1 - j <= 2048).
  { assert (IZR (- j) < IZR 2048)%R by (unfold y in *; lra).
    apply lt_IZR in H. lia. }
  exists (1 - j). split; [lia|].
  destruct (gridPoint_val (1 - j - 1) ltac:(lia)) as [P1 V1].
  destruct (gridPoint_val (1 - j) ltac:(lia)) as [P2 V2].
  split.
  - apply proper_ltb_iff; try assumption. rewrite V1, val_grid.
    replace (1 - j - 1) with (- j) by lia. unfold y in B1. lra.
  - apply proper_leb_iff; try assumption. rewrite V2, val_grid.
    unfold y in B2. lra.
Qed.

(** strictly between -1 and 1, said three ways *)
Lemma open_unit_within b :
  proper b = true -> (-1 < SF2R b < 1)%R ->
  within (- pred_one)%f32 pred_one b = true.
Proof.
  intros P [H1 H2]. apply within_intro; try assumption; try reflexivity.
  - apply above_minus_one; assumption.
  - apply below_one; assumption.
Qed.

Lemma within_open_unit b :
  within (- pred_one)%f32 pred_one b = true ->
  proper b = true /\ (-1 < SF2R b < 1)%R.
Proof.
  intros W. apply within_inv in W. destruct W as (P1 & P2 & P & L1 & L2).
  apply proper_leb_iff in L1, L2; try assumption.
  unfold neg in L1. rewrite SF2R_opp in L1. rewrite SF2R_pred_one in *.
  assert (H : (val 16777215 (-24) < 1)%R).
  { rewrite <- SF2R_f1. change (SF2R f1) with (val (2 ^ 23) (-23)).
    rewrite <- (val_double (2 ^ 23) (-23)).
    change (-23 - 1) with (-24). apply val_lt_iff. lia. }
  split; [assumption|]. lra.
Qed.

Lemma open_unit_of_tests b :
  valid b = true -> (- f1 <? b)%f32 = true -> (b <? f1)%f32 = true ->
  within (- pred_one)%f32 pred_one b = true.
Proof.
  unfold ltb. intros V L1 L2.
  assert (F : is_finite b = true).
  { destruct b as [?|[|]| |? ? ?]; try reflexivity; discriminate. }
  assert (P : proper b = true) by (unfold proper; rewrite V, F; reflexivity).
  apply open_unit_within; [assumption|].
  apply proper_ltb_iff in L1, L2; try assumption; try reflexivity.
  unfold neg in L1. rewrite SF2R_opp, SF2R_f1 in L1. rewrite SF2R_f1 in L2. lra.
Qed.

(** the factor never falls when beta grows: every operator of
    sqrt((1+beta)/(1-beta)) is monotone, rounding included *)
Lemma dopplerOfBeta_grows b1 b2 :
  within (- pred_one)%f32 pred_one b1 = true ->
  within (- pred_one)%f32 pred_one b2 = true ->
  SFleb b1 b2 = true ->
  SFleb (dopplerOfBeta b1) (dopplerOfBeta b2) = true.
Proof.
  intros W1 W2 L12.
  destruct (within_open_unit _ W1) as [P1 _].
  destruct (within_open_unit _ W2) as [P2 _].
  assert (Wn1 : within (S754_finite false 8388608 (-47)) (S754_finite false 8388608 (-22))
                  (f1 + b1)%f32 = true)
    by (eapply within_weaken; [box | vm_compute; reflexivity ..]).
  assert (Wn2 : within (S754_finite false 8388608 (-47)) (S754_finite false 8388608 (-22))
                  (f1 + b2)%f32 = true)
    by (eapply within_weaken; [box | vm_compute; reflexivity ..]).
  assert (Wd1 : within (S754_finite false 8388608 (-47)) (S754_finite false 8388608 (-22))
                  (f1 - b1)%f32 = true)
    by (eapply within_weaken; [box | vm_compute; reflexivity ..]).
  assert (Wd2 : within (S754_finite false 8388608 (-47)) (S754_finite false 8388608 (-22))
                  (f1 - b2)%f32 = true)
    by (eapply within_weaken; [box | vm_compute; reflexivity ..]).
  assert (Wq1 : within (S754_finite false 8388608 (-48)) (S754_finite false 8388608 2)
                  ((f1 + b1) / (f1 - b1))%f32 = true)
    by (eapply within_weaken; [box | vm_compute; reflexivity ..]).
  assert (Wq2 : within (S754_finite false 8388608 (-48)) (S754_finite false 8388608 2)
                  ((f1 + b2) / (f1 - b2))%f32 = true)
    by (eapply within_weaken; [box | vm_compute; reflexivity ..]).
  apply within_inv in Wn1, Wn2, Wd1, Wd2, Wq1, Wq2.
  assert (P0 : proper f0 = true) by reflexivity.
  assert (Pone : proper f1 = true) by reflexivity.
  unfold dopplerOfBeta. apply sqrt_mono; try tauto.
  - apply (proper_leb_trans f0 (S754_finite false 8388608 (-48))); tauto || reflexivity.
  - apply div_mono; try tauto.
    + apply (proper_leb_trans f0 (S754_finite false 8388608 (-47))); tauto || reflexivity.
    + apply proper_pos_finite_pos; [tauto|].
      destruct Wd2 as (Q1 & _ & Q3 & Q4 & _).
      apply proper_leb_iff in Q4; try assumption.
      pose proof (val_pos 8388608 (-47) ltac:(lia)).
      change (SF2R (S754_finite false 8388608 (-47))) with (val 8388608 (-47)) in Q4. lra.
    + apply add_mono; try assumption; reflexivity.
    + apply sub_mono; try assumption; reflexivity.
Qed.

(** two betas at least [betaGap] apart have a grid step between them, and
    across a grid step the factor grows strictly *)
Lemma dopplerOfBeta_strict b1 b2 :
  within (- pred_one)%f32 pred_one b1 = true ->
  within (- pred_one)%f32 pred_one b2 = true ->
  SFleb (b1 + betaGap)%f32 b2 = true ->
  SFltb (dopplerOfBeta b1) (dopplerOfBeta b2) = true.
Proof.
  intros W1 W2 G.
  destruct (within_open_unit _ W1) as [P1 R1].
  destruct (within_open_unit _ W2) as [P2 R2].
  destruct (grid_cell b1 P1 R1) as (i & Ri & L1 & L2).
  destruct (gridPoint_val (i - 1) ltac:(lia)) as [Pa Va].
  destruct (gridPoint_val i ltac:(lia)) as [Pb Vb].
  destruct (gridPoint_val (i + 1) ltac:(lia)) as [Pc Vc].
  assert (Pg : proper betaGap = true) by reflexivity.
  (* the grid point after next is at most b2 *)
  assert (S1 : SFleb (gridPoint (i + 1)) (gridPoint (i - 1) + betaGap)%f32 = true).
  { assert (I : In (i - 1) (gridRange (-2048) 4096)) by (apply gridRange_In; lia).
    pose proof (proj1 (forallb_forall _ _) grid_shift_table _ I) as T.
    unfold gridShift, leb in T. replace (i - 1 + 2) with (i + 1) in T by lia.
    exact T. }
  assert (S2 : SFleb (gridPoint (i - 1) + betaGap)%f32 (b1 + betaGap)%f32 = true).
  { apply add_mono; try assumption; try reflexivity.
    apply proper_ltb_iff in L1; try assumption.
    apply proper_leb_iff; try assumption. lra. }
  assert (Wg : within (- pred_one + betaGap)%f32 (pred_one + betaGap)%f32
                 (b1 + betaGap)%f32 = true) by box.
  apply within_inv in Wg. destruct Wg as (_ & _ & Pbg & _ & _).
  assert (Pag : proper (gridPoint (i - 1) + betaGap)%f32 = true).
  { apply (between_proper (gridPoint (i + 1)) _ (b1 + betaGap)%f32);
      try assumption.
    - apply add_valid; assumption.
    - apply proper_inv in Pc. tauto.
    - apply proper_inv in Pbg. tauto. }
  assert (L3 : SFleb (gridPoint (i + 1)) b2 = true).
  { apply (proper_leb_trans _ (b1 + betaGap)%f32); try assumption.
    apply (proper_leb_trans _ (gridPoint (i - 1) + betaGap)%f32); assumption. }
  (* both grid points are strictly between -1 and 1 *)
  assert (Hi : i + 1 <= 2047).
  { apply proper_leb_iff in L3; try assumption.
    rewrite Vc, val_grid in L3.
    assert (H : (IZR (i + 1) < IZR 2048)%R) by lra.
    apply lt_IZR in H. lia. }
  assert (Wb : within (- pred_one)%f32 pred_one (gridPoint i) = true).
  { apply open_unit_within; [assumption|]. rewrite Vb, val_grid.
    assert (IZR (-2047) <= IZR i <= IZR 2046)%R by (split; apply IZR_le; lia).
    lra. }
  assert (Wc : within (- pred_one)%f32 pred_one (gridPoint (i + 1)) = true).
  { apply open_unit_within; [assumption|]. rewrite Vc, val_grid.
    assert (IZR (-2046) <= IZR (i + 1) <= IZR 2047)%R by (split; apply IZR_le; lia).
    lra. }
  assert (T : SFltb (dopplerOfBeta (gridPoint i)) (dopplerOfBeta (gridPoint (i + 1)))
              = true).
  { assert (I : In i (gridRange (-2047) 4094)) by (apply gridRange_In; lia).
    exact (proj1 (forallb_forall _ _) grid_strict_table _ I). }
  pose proof (dopplerOfBeta_grows b1 (gridPoint i) W1 Wb L2) as M1.
  pose proof (dopplerOfBeta_grows (gridPoint (i + 1)) b2 Wc W2 L3) as M2.
  pose proof (dopplerOfBeta_within _ W1) as D1.
  pose proof (dopplerOfBeta_within _ W2) as D2.
  pose proof (dopplerOfBeta_within _ Wb) as Db.
  pose proof (dopplerOfBeta_within _ Wc) as Dc.
  apply within_inv in D1, D2, Db, Dc.
  destruct D1 as (_ & _ & Q1 & _), D2 as (_ & _ & Q2 & _),
           Db as (_ & _ & Qb & _), Dc as (_ & _ & Qc & _).
  apply proper_leb_iff in M1, M2; try assumption.
  apply proper_ltb_iff in T; try assumption.
  apply proper_ltb_iff; try assumption. lra.
Qed.

(** ** Rounding errors and the length of a normalized vector *)

Lemma pos_rounds_error x r :
  (0 < x)%R -> pos_rounds x false r -> is_finite r = true ->
  (Rabs (SF2R r - x) <= ulp32 * x + eta32)%R.
Proof.
  intros Hx (E & m & l & HE & Hl & Hm & ->) F.
  pose proof (round_nearest_even_range m l) as Hn.
  set (n := round_nearest_even m l) in *.
  destruct (Eok_mantissa x E m l HE Hl Hm) as (M1 & M2 & M3).
  rewrite emin_eq in M2, M3.
  pose proof (locates_bounds x m E l Hl) as [B1 B2].
  assert (V : SF2R (pack false n E) = val n E).
  { destruct (pack_cases false n E ltac:(lia) ltac:(lia) ltac:(lia))
      as [[Z0 ->]|[(Np & Hpe & m' & -> & _ & Hv)|(Np & Hpe & Hinf)]].
    - subst n. rewrite Z0, val_0. reflexivity.
    - cbn [SF2R cond_Zopp]. exact Hv.
    - rewrite Hinf in F. discriminate. }
  rewrite V.
  assert (N1 : (val m E <= val n E)%R) by (apply val_le_iff; lia).
  assert (N2 : (val n E <= val (m + 1) E)%R) by (apply val_le_iff; lia).
  assert (W : val (m + 1) E = (val m E + bpow E)%R).
  { rewrite val_plus. f_equal. unfold val. lra. }
  assert (D : (Rabs (val n E - x) <= bpow E)%R) by (apply Rabs_le; lra).
  assert (Hb : (bpow E <= ulp32 * x + eta32)%R).
  { pose proof (bpow_gt_0 (-23)). pose proof (bpow_gt_0 (-149)).
    unfold ulp32, eta32.
    destruct HE as [[-> _]|[He [Hlo _]]].
    - rewrite emin_eq. nra.
    - rewrite prec_eq in Hlo.
      replace (bpow E) with (bpow (-23) * bpow (E + 24 - 1))%R
        by (rewrite <- bpow_plus; f_equal; lia).
      nra. }
  lra.
Qed.

(** rounding to nearest moves a real by at most one unit in its last place *)
Lemma rounds_to_error x r :
  rounds_to x r -> is_finite r = true ->
  (Rabs (SF2R r - x) <= ulp32 * Rabs x + eta32)%R.
Proof.
  intros [[-> [s ->]]|[[Hx Hr]|[Hx Hr]]] F.
  - cbn [SF2R]. rewrite Rminus_diag, Rabs_R0, Rmult_0_r.
    unfold eta32. pose proof (bpow_gt_0 (-149)). lra.
  - rewrite (Rabs_right x) by lra. apply pos_rounds_error; assumption.
  - apply pos_rounds_opp in Hr.
    assert (F' : is_finite (SFopp r) = true) by (rewrite is_finite_opp; exact F).
    pose proof (pos_rounds_error (- x) (SFopp r) ltac:(lra) Hr F') as H.
    rewrite SF2R_opp in H.
    replace (- SF2R r - - x)%R with (- (SF2R r - x))%R in H by ring.
    rewrite Rabs_Ropp in H. rewrite (Rabs_left x) by lra. exact H.
Qed.

Lemma pos_rounds_unique x s r1 r2 :
  (0 < x)%R -> pos_rounds x s r1 -> pos_rounds x s r2 -> r1 = r2.
Proof.
  intros Hx (E1 & m1 & l1 & HE1 & Hl1 & Hm1 & ->)
            (E2 & m2 & l2 & HE2 & Hl2 & Hm2 & ->).
  assert (E : E1 = E2).
  { pose proof (Eok_mono x x E1 E2 ltac:(lra) HE1 HE2).
    pose proof (Eok_mono x x E2 E1 ltac:(lra) HE2 HE1). lia. }
  subst E2.
  pose proof (round_nearest_even_mono x x m1 m2 E1 l1 l2 Hl1 Hl2 ltac:(lra)).
  pose proof (round_nearest_even_mono x x m2 m1 E1 l2 l1 Hl2 Hl1 ltac:(lra)).
  f_equal. lia.
Qed.

(** a real other than zero has one rounding *)
Lemma rounds_to_unique x r1 r2 :
  x <> 0%R -> rounds_to x r1 -> rounds_to x r2 -> r1 = r2.
Proof.
  intros Hx [[H1 _]|[[H1 R1]|[H1 R1]]] [[H2 _]|[[H2 R2]|[H2 R2]]];
    try lra.
  - apply (pos_rounds_unique x false); assumption.
  - apply (pos_rounds_unique (- x) true); try assumption. lra.
Qed.

(** dividing by 1.0f changes nothing *)
Lemma div_one x : valid x = true -> (x / f1)%f32 = x.
Proof.
  intros V. destruct x as [[|]|[|]| |s m e]; try reflexivity.
  assert (F : is_finite (S754_finite s m e) = true) by reflexivity.
  pose proof (div_rounds (S754_finite s m e) false 8388608 (-23) F) as H.
  change (S754_finite false 8388608 (-23)) with f1 in H.
  rewrite SF2R_f1, Rdiv_1_r in H.
  apply (rounds_to_unique (SF2R (S754_finite s m e))); [|exact H|].
  - cbn [SF2R]. destruct s; cbn [cond_Zopp Z.opp].
    + rewrite val_Zneg. pose proof (val_pos (Zpos m) e ltac:(lia)). lra.
    + pose proof (val_pos (Zpos m) e ltac:(lia)). lra.
  - apply rounds_to_self; assumption.
Qed.

Lemma ulp32_eq : ulp32 = (/ 8388608)%R.
Proof.
  unfold ulp32.
  assert (H : (bpow (-23) * 8388608 = 1)%R).
  { replace 8388608%R with (bpow 23) by (rewrite bpow_IZR by lia; reflexivity).
    rewrite <- bpow_plus. apply bpow_0. }
  apply Rmult_eq_reg_r with 8388608%R; [|lra]. rewrite H. field.
Qed.

Lemma eta32_small : (0 < eta32 <= / 8796093022208)%R.
Proof.
  unfold eta32. split; [apply bpow_gt_0|].
  apply Rle_trans with (bpow (-43)); [apply bpow_le; lia|].
  assert (H : (bpow (-43) * 8796093022208 = 1)%R).
  { replace 8796093022208%R with (bpow 43) by (rewrite bpow_IZR by lia; reflexivity).
    rewrite <- bpow_plus. apply bpow_0. }
  apply Req_le. apply Rmult_eq_reg_r with 8796093022208%R; [|lra]. rewrite H. field.
Qed.

Local Open Scope R_scope.

Lemma Rabs_bound x a : Rabs x <= a -> - a <= x <= a.
Proof. unfold Rabs. destruct (Rcase_abs x); lra. Qed.

Lemma bound_Rabs x a : - a <= x <= a -> Rabs x <= a.
Proof. unfold Rabs. destruct (Rcase_abs x); lra. Qed.

(** the sum of three rounded squares, summed with rounding *)
Lemma sum_squares_error X Y Z p1 p2 p3 s1 S :
  0 <= X -> 0 <= Y -> 16 <= Z ->
  Rabs (p1 - X) <= ulp32 * Rabs X + eta32 ->
  Rabs (p2 - Y) <= ulp32 * Rabs Y + eta32 ->
  Rabs (p3 - Z) <= ulp32 * Rabs Z + eta32 ->
  Rabs (s1 - (p1 + p2)) <= ulp32 * Rabs (p1 + p2) + eta32 ->
  Rabs (S - (s1 + p3)) <= ulp32 * Rabs (s1 + p3) + eta32 ->
  (X + Y + Z) * (1 - 4 * ulp32) <= S <= (X + Y + Z) * (1 + 4 * ulp32).
Proof.
  intros HX HY HZ H1 H2 H3 H4 H5.
  pose proof eta32_small as [E0 E1]. rewrite ulp32_eq in *.
  rewrite (Rabs_right X) in H1 by lra. rewrite (Rabs_right Y) in H2 by lra.
  rewrite (Rabs_right Z) in H3 by lra.
  apply Rabs_bound in H1, H2, H3.
  assert (A4 : Rabs (p1 + p2) <= (1 + / 8388608) * (X + Y) + 2 * eta32)
    by (apply bound_Rabs; lra).
  apply Rabs_bound in H4.
  assert (A5 : Rabs (s1 + p3) <= (1 + / 8388608) * ((1 + / 8388608) * (X + Y) + 2 * eta32)
                                + eta32 + (1 + / 8388608) * Z + eta32)
    by (apply bound_Rabs; lra).
  apply Rabs_bound in H5.
  lra.
Qed.

(** the rounded square root, squared *)
Lemma sqrt_error S q :
  15 <= S <= 2000 ->
  Rabs (q - R_sqrt.sqrt S) <= ulp32 * Rabs (R_sqrt.sqrt S) + eta32 ->
  3 <= q <= 50 /\ S * (1 - 3 * ulp32) <= q * q <= S * (1 + 3 * ulp32).
Proof.
  intros HS H. pose proof eta32_small as [E0 E1]. rewrite ulp32_eq in *.
  pose proof (sqrt_pos S) as P.
  pose proof (sqrt_sqrt S ltac:(lra)) as Q.
  set (s := R_sqrt.sqrt S) in *.
  assert (B : 3.8 <= s <= 45) by nra.
  rewrite (Rabs_right s) in H by lra. apply Rabs_bound in H.
  assert (L : (1 - 1.01 * / 8388608) * s <= q) by lra.
  assert (U : q <= (1 + 1.01 * / 8388608) * s) by lra.
  split; [lra|].
  assert (L2 : 0 <= (q - (1 - 1.01 * / 8388608) * s) * (q + (1 - 1.01 * / 8388608) * s))
    by (apply Rmult_le_pos; lra).
  assert (U2 : 0 <= ((1 + 1.01 * / 8388608) * s - q) * ((1 + 1.01 * / 8388608) * s + q))
    by (apply Rmult_le_pos; lra).
  split; nra.
Qed.

(** the rounded reciprocal, times what it inverts *)
Lemma inverse_error q t :
  3 <= q <= 50 ->
  Rabs (t - 1 / q) <= ulp32 * Rabs (1 / q) + eta32 ->
  1 - 1.01 * ulp32 <= t * q <= 1 + 1.01 * ulp32.
Proof.
  intros Hq H. pose proof eta32_small as [E0 E1]. rewrite ulp32_eq in *.
  assert (R : 0 < 1 / q) by (apply Rdiv_lt_0_compat; lra).
  assert (I : 1 / q * q = 1) by (field; lra).
  rewrite (Rabs_right (1 / q)) in H by lra. apply Rabs_bound in H.
  set (r := 1 / q) in *.
  assert (L : 0 <= (t - ((1 - / 8388608) * r - eta32)) * q)
    by (apply Rmult_le_pos; lra).
  assert (U : 0 <= ((1 + / 8388608) * r + eta32 - t) * q)
    by (apply Rmult_le_pos; lra).
  split; nra.
Qed.

(** the squared scale times the squared length is 1, up to rounding *)
Lemma scale_error N S q t :
  16 <= N ->
  N * (1 - 4 * ulp32) <= S <= N * (1 + 4 * ulp32) ->
  S * (1 - 3 * ulp32) <= q * q <= S * (1 + 3 * ulp32) ->
  1 - 1.01 * ulp32 <= t * q <= 1 + 1.01 * ulp32 ->
  1 - 11 * ulp32 <= t * t * N <= 1 + 11 * ulp32.
Proof.
  intros HN HS Hq Ht. rewrite ulp32_eq in *.
  set (w := t * q) in *.
  assert (W : w * w = t * t * (q * q)) by (unfold w; ring).
  assert (Q : N * (1 - 8 * / 8388608) <= q * q <= N * (1 + 8 * / 8388608)) by nra.
  assert (W2 : 1 - 2.03 * / 8388608 <= w * w <= 1 + 2.03 * / 8388608) by nra.
  assert (T0 : 0 <= t * t) by nra.
  assert (A : t * t * (N * (1 - 8 * / 8388608)) <= w * w)
    by (rewrite W; apply Rmult_le_compat_l; lra).
  assert (B : w * w <= t * t * (N * (1 + 8 * / 8388608)))
    by (rewrite W; apply Rmult_le_compat_l; lra).
  set (T := t * t * N) in *.
  replace (t * t * (N * (1 - 8 * / 8388608))) with (T * (1 - 8 * / 8388608)) in A
    by (unfold T; ring).
  replace (t * t * (N * (1 + 8 * / 8388608))) with (T * (1 + 8 * / 8388608)) in B
    by (unfold T; ring).
  split; lra.
Qed.

(** one rounded component, squared *)
Lemma component_error a l :
  a * a <= 2 ->
  Rabs (l - a) <= ulp32 * Rabs a + eta32 ->
  Rabs (l * l - a * a) <= 2.01 * ulp32 * (a * a) + 6 * eta32.
Proof.
  intros Ha H. pose proof eta32_small as [E0 E1]. rewrite ulp32_eq in *.
  pose proof (Rabs_pos a) as A0.
  assert (A2 : Rabs a * Rabs a = a * a)
    by (rewrite <- Rabs_mult; apply Rabs_right; nra).
  set (m := Rabs a) in *.
  assert (M : m <= 2) by nra.
  set (e := / 8388608 * m + eta32) in *.
  assert (D : Rabs (l + a) <= 2 * m + e).
  { replace (l + a) with ((l - a) + 2 * a) by ring.
    eapply Rle_trans; [apply Rabs_triang|].
    rewrite Rabs_mult, (Rabs_right 2) by lra. fold m. lra. }
  replace (l * l - a * a) with ((l - a) * (l + a)) by ring.
  rewrite Rabs_mult.
  apply Rle_trans with (e * (2 * m + e)).
  - apply Rmult_le_compat; try apply Rabs_pos; assumption.
  - unfold e. rewrite <- A2. nra.
Qed.

Lemma sqrt_range S : 15 <= S <= 2000 -> 0 <= R_sqrt.sqrt S <= 4096.
Proof.
  intros H. pose proof (sqrt_pos S). pose proof (sqrt_sqrt S ltac:(lra)). nra.
Qed.

Lemma scale_range t q :
  3 <= q <= 50 -> 0.9 <= t * q <= 1.1 -> 0.018 <= t <= 0.4.
Proof. intros Hq Ht. split; nra. Qed.

Lemma scaled_small a t :
  - 36 <= a <= 36 -> 0 <= t <= 1 -> - 4096 <= a * t <= 4096.
Proof. intros Ha Ht. split; nra. Qed.

Lemma scaled_positive c t : 4 <= c -> 0.018 <= t -> 0.07 <= c * t.
Proof. intros Hc Ht. nra. Qed.

Lemma square_range a b : - b <= a <= b -> 0 <= a * a <= b * b.
Proof. intros H. split; nra. Qed.

Lemma square_range_pos a lo hi : 0 <= lo -> lo <= a <= hi -> lo * lo <= a * a <= hi * hi.
Proof. intros H0 H. split; nra. Qed.

Lemma reciprocal_range q : 3 <= q <= 50 -> 0 < 1 / q <= 1.
Proof.
  intros H. split; [apply Rdiv_lt_0_compat; lra|].
  apply Rmult_le_reg_r with q; [lra|].
  replace (1 / q * q) with 1 by (field; lra). lra.
Qed.

Lemma part_of_scaled_sum t X N : 0 <= t * t -> X <= N -> t * t * X <= t * t * N.
Proof. intros. apply Rmult_le_compat_l; assumption. Qed.

Local Close Scope R_scope.

(** *** The operators, up to their rounding error *)

Lemma SF2R_f4096 : SF2R (S754_finite false 8388608 (-11)) = 4096%R.
Proof.
  change (SF2R (S754_finite false 8388608 (-11))) with (val (2 ^ 23) (-11)).
  rewrite val_pow by lia. rewrite bpow_IZR by lia. reflexivity.
Qed.

Lemma rounds_to_approximates x r :
  rounds_to x r -> (Rabs x <= 4096)%R -> approximates x r.
Proof.
  intros Hr Hx. apply Rabs_bound in Hx.
  assert (W : within (SFopp (S754_finite false 8388608 (-11)))
                (S754_finite false 8388608 (-11)) r = true).
  { apply (rounds_to_within x); try reflexivity; try assumption.
    rewrite SF2R_opp, SF2R_f4096. exact Hx. }
  apply within_inv in W. destruct W as (_ & _ & P & _).
  split; [exact P|]. apply rounds_to_error; [exact Hr|].
  apply proper_inv in P. tauto.
Qed.

Lemma mul_approximates x y :
  proper x = true -> proper y = true ->
  (Rabs (SF2R x * SF2R y) <= 4096)%R ->
  approximates (SF2R x * SF2R y) (x * y)%f32.
Proof.
  intros Px Py H. apply proper_inv in Px, Py.
  apply rounds_to_approximates; [apply mul_rounds; tauto|exact H].
Qed.

Lemma add_approximates x y :
  proper x = true -> proper y = true ->
  (Rabs (SF2R x + SF2R y) <= 4096)%R ->
  approximates (SF2R x + SF2R y) (x + y)%f32.
Proof.
  intros Px Py H. apply proper_inv in Px, Py.
  apply rounds_to_approximates; [apply add_rounds; tauto|exact H].
Qed.

Lemma sqrt_approximates x :
  proper x = true -> (0 < SF2R x)%R ->
  (Rabs (R_sqrt.sqrt (SF2R x)) <= 4096)%R ->
  approximates (R_sqrt.sqrt (SF2R x)) (F32.sqrt x).
Proof.
  intros Px H0 H.
  pose proof (proper_pos_finite_pos x Px H0) as Fp.
  destruct (finite_pos_inv x Fp) as (m & e & ->).
  apply rounds_to_approximates; [apply sqrt_rounds; reflexivity|exact H].
Qed.

Lemma div_approximates x y :
  proper x = true -> proper y = true -> (0 < SF2R y)%R ->
  (Rabs (SF2R x / SF2R y) <= 4096)%R ->
  approximates (SF2R x / SF2R y) (x / y)%f32.
Proof.
  intros Px Py H0 H.
  pose proof (proper_pos_finite_pos y Py H0) as Fp.
  destruct (finite_pos_inv y Fp) as (m & e & ->).
  apply proper_inv in Px.
  apply rounds_to_approximates; [apply div_rounds; tauto|exact H].
Qed.

(** what [approximates] says of a real that is not negative *)
Lemma approximates_nonneg x r :
  approximates x r -> (0 <= x)%R ->
  (x * (1 - / 8388608) - eta32 <= SF2R r <= x * (1 + / 8388608) + eta32)%R.
Proof.
  intros [_ H] Hx. rewrite ulp32_eq in H.
  rewrite (Rabs_right x) in H by lra. apply Rabs_bound in H. lra.
Qed.

Lemma SF2R_f16 : SF2R f16 = 16%R.
Proof.
  change (SF2R f16) with (val (2 ^ 23) (-19)).
  rewrite val_pow by lia. rewrite bpow_IZR by lia. reflexivity.
Qed.

Lemma SF2R_f4 : SF2R f4 = 4%R.
Proof.
  change (SF2R f4) with (val (2 ^ 23) (-21)).
  rewrite val_pow by lia. rewrite bpow_IZR by lia. reflexivity.
Qed.

Lemma SF2R_f36 : SF2R f36 = 36%R.
Proof.
  change (SF2R f36) with (val (9 * 2 ^ 20) (-18 - 2 + 2)).
  replace (-18 - 2 + 2) with (2 - 20) by lia.
  rewrite val_shift by lia. unfold val.
  rewrite bpow_IZR by lia. simpl. lra.
Qed.

Lemma bpow_m19 : bpow (-19) = (16 * / 8388608)%R.
Proof.
  rewrite <- ulp32_eq. unfold ulp32.
  replace (-19) with (4 + -23) by lia. rewrite bpow_plus.
  rewrite (bpow_IZR 4) by lia. reflexivity.
Qed.

(** *** The length of a normalized vector *)

Lemma within_reals lo hi x :
  within lo hi x = true ->
  proper x = true /\ (SF2R lo <= SF2R x <= SF2R hi)%R.
Proof.
  intros W. apply within_inv in W. destruct W as (P1 & P2 & P & L1 & L2).
  apply proper_leb_iff in L1, L2; try assumption. tauto.
Qed.

(** a vector whose third component is between 4 and 36 and whose other
    components are at most 16 in magnitude is scaled by a positive number
    to squared length 1, up to 2^-19 *)
Lemma normalize_length d :
  within (- f16)%f32 f16 (vx d) = true ->
  within (- f16)%f32 f16 (vy d) = true ->
  within f4 f36 (vz d) = true ->
  is_finite_pos (inversesqrt (dot d d)) = true /\
  properVec (normalize d) = true /\
  is_finite_pos (vz (normalize d)) = true /\
  (Rabs (lengthSq (normalize d) - 1) <= bpow (-19))%R.
Proof.
  intros Wa Wb Wc.
  destruct (within_reals _ _ _ Wa) as [Pa Ba].
  destruct (within_reals _ _ _ Wb) as [Pb Bb].
  destruct (within_reals _ _ _ Wc) as [Pc Bc].
  unfold neg in Ba, Bb. rewrite SF2R_opp, SF2R_f16 in Ba, Bb.
  rewrite SF2R_f4, SF2R_f36 in Bc.
  destruct d as [a b c]. cbn [vx vy vz] in *. clear Wa Wb Wc.
  set (A := SF2R a) in *. set (B := SF2R b) in *. set (C := SF2R c) in *.
  pose proof eta32_small as [E0 E1].
  pose proof (square_range A 16 Ba) as HX.
  pose proof (square_range B 16 Bb) as HY.
  pose proof (square_range_pos C 4 36 ltac:(lra) Bc) as HZ.
  (* the three squares *)
  assert (M1 : approximates (A * A) (a * a)%f32)
    by (apply mul_approximates; try assumption; apply bound_Rabs; fold A; lra).
  assert (M2 : approximates (B * B) (b * b)%f32)
    by (apply mul_approximates; try assumption; apply bound_Rabs; fold B; lra).
  assert (M3 : approximates (C * C) (c * c)%f32)
    by (apply mul_approximates; try assumption; apply bound_Rabs; fold C; lra).
  pose proof (approximates_nonneg _ _ M1 ltac:(lra)) as N1.
  pose proof (approximates_nonneg _ _ M2 ltac:(lra)) as N2.
  pose proof (approximates_nonneg _ _ M3 ltac:(lra)) as N3.
  (* their sum *)
  assert (M4 : approximates (SF2R (a * a)%f32 + SF2R (b * b)%f32) (a * a + b * b)%f32)
    by (apply add_approximates; [apply M1|apply M2|apply bound_Rabs; lra]).
  assert (N4 : (- 1 <= SF2R (a * a + b * b)%f32 <= 520)%R).
  { destruct M4 as [_ H]. rewrite ulp32_eq in H.
    assert (Rabs (SF2R (a * a)%f32 + SF2R (b * b)%f32) <= 513)%R
      by (apply bound_Rabs; lra).
    apply Rabs_bound in H. lra. }
  assert (M5 : approximates (SF2R (a * a + b * b)%f32 + SF2R (c * c)%f32)
                 (a * a + b * b + c * c)%f32)
    by (apply add_approximates; [apply M4|apply M3|apply bound_Rabs; lra]).
  set (S := (a * a + b * b + c * c)%f32) in *.
  pose proof (sum_squares_error (A * A) (B * B) (C * C) _ _ _ _ _
                ltac:(lra) ltac:(lra) ltac:(lra)
                (proj2 M1) (proj2 M2) (proj2 M3) (proj2 M4) (proj2 M5)) as HS.
  set (N := (A * A + B * B + C * C)%R) in *.
  assert (HN : (16 <= N <= 1808)%R) by (unfold N; lra).
  rewrite ulp32_eq in HS.
  assert (HS' : (15 <= SF2R S <= 2000)%R) by lra.
  clear N1 N2 N3 N4 M4.
  (* its square root *)
  pose proof (sqrt_range (SF2R S) HS') as Q0.
  assert (M6 : approximates (R_sqrt.sqrt (SF2R S)) (F32.sqrt S))
    by (apply sqrt_approximates; [apply M5|lra|apply bound_Rabs; lra]).
  destruct (sqrt_error (SF2R S) (SF2R (F32.sqrt S)) HS' (proj2 M6)) as [Hq Hq2].
  set (q := F32.sqrt S) in *.
  (* the scale *)
  pose proof (reciprocal_range (SF2R q) Hq) as I0.
  assert (M7 : approximates (SF2R f1 / SF2R q) (f1 / q)%f32).
  { apply div_approximates; [reflexivity|apply M6|lra|].
    rewrite SF2R_f1. apply bound_Rabs. lra. }
  rewrite SF2R_f1 in M7.
  pose proof (inverse_error (SF2R q) (SF2R (f1 / q)%f32) Hq (proj2 M7)) as Ht.
  set (t := (f1 / q)%f32) in *.
  assert (Pt : proper t = true) by apply M7.
  pose proof (scale_error N (SF2R S) (SF2R q) (SF2R t) ltac:(lra)) as HT.
  rewrite ulp32_eq in HT, Ht, Hq2. specialize (HT HS Hq2 Ht).
  pose proof (scale_range (SF2R t) (SF2R q) Hq ltac:(lra)) as T0.
  assert (Et : inversesqrt (dot (mkvec3 a b c) (mkvec3 a b c)) = t) by reflexivity.
  rewrite Et.
  assert (Ft : is_finite_pos t = true)
    by (apply proper_pos_finite_pos; [assumption|lra]).
  split; [exact Ft|].
  clear M5 M6 M7 Q0 I0 HS HS' Hq2 Ht.
  (* the three components *)
  set (T := (SF2R t * SF2R t * N)%R) in *.
  assert (Tt : (0 <= SF2R t * SF2R t)%R)
    by (apply Rmult_le_pos; lra).
  assert (Ka : ((A * SF2R t) * (A * SF2R t) <= 2)%R).
  { replace ((A * SF2R t) * (A * SF2R t))%R with (SF2R t * SF2R t * (A * A))%R by ring.
    apply Rle_trans with T; [|lra]. apply part_of_scaled_sum; [assumption|].
    unfold N. lra. }
  assert (Kb : ((B * SF2R t) * (B * SF2R t) <= 2)%R).
  { replace ((B * SF2R t) * (B * SF2R t))%R with (SF2R t * SF2R t * (B * B))%R by ring.
    apply Rle_trans with T; [|lra]. apply part_of_scaled_sum; [assumption|].
    unfold N. lra. }
  assert (Kc : ((C * SF2R t) * (C * SF2R t) <= 2)%R).
  { replace ((C * SF2R t) * (C * SF2R t))%R with (SF2R t * SF2R t * (C * C))%R by ring.
    apply Rle_trans with T; [|lra]. apply part_of_scaled_sum; [assumption|].
    unfold N. lra. }
  assert (La : approximates (A * SF2R t) (a * t)%f32)
    by (apply mul_approximates; try assumption; apply bound_Rabs;
        apply (scaled_small A (SF2R t)); lra).
  assert (Lb : approximates (B * SF2R t) (b * t)%f32)
    by (apply mul_approximates; try assumption; apply bound_Rabs;
        apply (scaled_small B (SF2R t)); lra).
  assert (Lc : approximates (C * SF2R t) (c * t)%f32)
    by (apply mul_approximates; try assumption; apply bound_Rabs;
        apply (scaled_small C (SF2R t)); lra).
  pose proof (component_error _ _ Ka (proj2 La)) as Ea.
  pose proof (component_error _ _ Kb (proj2 Lb)) as Eb.
  pose proof (component_error _ _ Kc (proj2 Lc)) as Ec.
  unfold normalize, vscale. rewrite Et. cbn [vx vy vz].
  split; [unfold properVec; cbn [vx vy vz];
          rewrite (proj1 La), (proj1 Lb), (proj1 Lc); reflexivity|].
  split.
  - apply proper_pos_finite_pos; [apply Lc|].
    pose proof (scaled_positive C (SF2R t) ltac:(lra) ltac:(lra)) as Cp.
    pose proof (approximates_nonneg _ _ Lc ltac:(lra)) as Nc.
    lra.
  - unfold lengthSq. cbn [vx vy vz]. rewrite bpow_m19.
    rewrite ulp32_eq in Ea, Eb, Ec.
    apply Rabs_bound in Ea, Eb, Ec. apply bound_Rabs.
    assert (Sum : ((A * SF2R t) * (A * SF2R t) + (B * SF2R t) * (B * SF2R t)
                   + (C * SF2R t) * (C * SF2R t) = T)%R) by (unfold T, N; ring).
    lra.
Qed.

(** *** Well-formed data stay well-formed *)

Lemma add_valid_any x y :
  valid x = true -> valid y = true -> valid (x + y)%f32 = true.
Proof.
  intros Vx Vy. destruct (is_finite x) eqn:Fx; destruct (is_finite y) eqn:Fy.
  - apply add_valid; unfold proper; rewrite ?Vx, ?Vy, ?Fx, ?Fy; reflexivity.
  - destruct y as [?|[|]| |? ? ?]; try discriminate;
      destruct x as [?|[|]| |? ? ?]; try discriminate; reflexivity.
  - destruct x as [?|[|]| |? ? ?]; try discriminate;
      destruct y as [?|[|]| |? ? ?]; try discriminate; reflexivity.
  - destruct x as [?|[|]| |? ? ?]; try discriminate;
      destruct y as [?|[|]| |? ? ?]; try discriminate; reflexivity.
Qed.

Lemma sub_valid_any x y :
  valid x = true -> valid y = true -> valid (x - y)%f32 = true.
Proof.
  intros Vx Vy. destruct (is_finite x) eqn:Fx; destruct (is_finite y) eqn:Fy.
  - apply sub_valid; unfold proper; rewrite ?Vx, ?Vy, ?Fx, ?Fy; reflexivity.
  - destruct y as [?|[|]| |? ? ?]; try discriminate;
      destruct x as [?|[|]| |? ? ?]; try discriminate; reflexivity.
  - destruct x as [?|[|]| |? ? ?]; try discriminate;
      destruct y as [?|[|]| |? ? ?]; try discriminate; reflexivity.
  - destruct x as [?|[|]| |? ? ?]; try discriminate;
      destruct y as [?|[|]| |? ? ?]; try discriminate; reflexivity.
Qed.

Lemma mul_valid_any x y :
  valid x = true -> valid y = true -> valid (x * y)%f32 = true.
Proof.
  intros Vx Vy. destruct (is_finite x) eqn:Fx; destruct (is_finite y) eqn:Fy.
  - apply mul_valid; unfold proper; rewrite ?Vx, ?Vy, ?Fx, ?Fy; reflexivity.
  - destruct y as [?|[|]| |? ? ?]; try discriminate;
      destruct x as [?|[|]| |? ? ?]; try discriminate; reflexivity.
  - destruct x as [?|[|]| |? ? ?]; try discriminate;
      destruct y as [?|[|]| |? ? ?]; try discriminate; reflexivity.
  - destruct x as [?|[|]| |? ? ?]; try discriminate;
      destruct y as [?|[|]| |? ? ?]; try discriminate; reflexivity.
Qed.

Lemma dot_valid a b :
  valid (vx a) = true -> valid (vy a) = true -> valid (vz a) = true ->
  valid (vx b) = true -> valid (vy b) = true -> valid (vz b) = true ->
  valid (dot a b) = true.
Proof.
  intros. unfold dot.
  apply add_valid_any; [apply add_valid_any|]; apply mul_valid_any; assumption.
Qed.

(** the observer point minus a star velocity in the box *)
Lemma observer_minus_velocity sv :
  within (- f16)%f32 f16 (vx sv) = true ->
  within (- f16)%f32 f16 (vy sv) = true ->
  within (- f16)%f32 f16 (vz sv) = true ->
  let d := vsub (mkvec3 f0 f0 OBSERVER_POSITION_Z) sv in
  within (- f16)%f32 f16 (vx d) = true /\
  within (- f16)%f32 f16 (vy d) = true /\
  within f4 f36 (vz d) = true.
Proof.
  intros Hx Hy Hz. cbv zeta. unfold vsub. cbn [vx vy vz].
  split; [|split].
  - eapply within_weaken; [box | vm_compute; reflexivity ..].
  - eapply within_weaken; [box | vm_compute; reflexivity ..].
  - eapply within_weaken; [box | vm_compute; reflexivity ..].
Qed.

(** ** The Doppler calculator *)

Lemma rawBeta_valid sv ov : valid (rawBeta sv ov) = true.
Proof. unfold rawBeta. apply div_valid. Qed.

Lemma clampBeta_within beta :
  valid beta = true -> is_nan beta = false ->
  within (- pred_one)%f32 pred_one (clampBeta beta) = true.
Proof.
  intros V N. rewrite clampBeta_eq.
  destruct (beta >=? f1)%f32 eqn:G; [reflexivity|].
  destruct (beta <=? - f1)%f32 eqn:L; [reflexivity|].
  apply unclamped_within; assumption.
Qed.

Lemma within_positive lo hi x :
  within lo hi x = true -> is_finite_pos lo = true -> is_finite_pos x = true.
Proof. apply within_finite_pos. Qed.

(** C1 (as amended).  The guards of the Doppler calculator replace a raw
    beta that is at least 1 by 0.99 and one that is at most -1 by -0.99;
    every other beta, also one between 0.99 and 1 in magnitude, is kept.
    The function returns sqrt((1+beta)/(1-beta)) of the result, and whenever
    the raw beta is a number (not NaN) that value is finite and strictly
    positive. *)
Theorem doppler_guards_and_range (sv ov : vec3) :
  is_nan (rawBeta sv ov) = false ->
  calculateRelativisticDopplerShift sv ov
    = dopplerOfBeta (clampBeta (rawBeta sv ov)) /\
  clampBeta (rawBeta sv ov)
    = (if (rawBeta sv ov >=? f1)%f32 then f0_99
       else if (rawBeta sv ov <=? - f1)%f32 then (- f0_99)%f32
       else rawBeta sv ov) /\
  is_finite_pos (calculateRelativisticDopplerShift sv ov) = true.
Proof.
  intros N. split; [reflexivity|]. split; [apply clampBeta_eq|].
  rewrite calculate_decompose.
  eapply within_positive.
  - apply dopplerOfBeta_within. apply clampBeta_within; [apply rawBeta_valid|exact N].
  - reflexivity.
Qed.

Lemma doppler_guards_and_range_witness :
  is_finite_pos
    (calculateRelativisticDopplerShift
       (mkvec3 f0 f0 f0) (mkvec3 f0 f0 (- f0_995)%f32)) = true.
Proof.
  apply (doppler_guards_and_range (mkvec3 f0 f0 f0) (mkvec3 f0 f0 (- f0_995)%f32)).
  vm_compute. reflexivity.
Defined.

(** C1, as stated, fails.  With a star at rest and the observer receding at
    0.995, the raw beta is 0.995: outside (-0.99, 0.99), yet it is not
    replaced, and the factor differs from the one 0.99 would give.  With the
    star velocity equal to the observer point the line of sight is 0/0 and
    the result is NaN. *)
Lemma doppler_clamp_counterexample :
  rawBeta (mkvec3 f0 f0 f0) (mkvec3 f0 f0 (- f0_995)%f32) = f0_995 /\
  (f0_99 <? f0_995)%f32 = true /\
  clampBeta f0_995 = f0_995 /\
  calculateRelativisticDopplerShift (mkvec3 f0 f0 f0) (mkvec3 f0 f0 (- f0_995)%f32)
    <> dopplerOfBeta f0_99 /\
  is_nan (calculateRelativisticDopplerShift
            (mkvec3 f0 f0 OBSERVER_POSITION_Z) (mkvec3 f0 f0 f0)) = true.
Proof.
  repeat split; try (vm_compute; reflexivity).
  vm_compute. discriminate.
Qed.

(** C2 (as amended).  For a star velocity whose three components are
    numbers of magnitude at most 16, the line of sight of the Doppler
    calculator is the observer point (0, 0, OBSERVER_POSITION_Z) minus the
    star velocity, scaled by a positive number; it points toward the
    observer (its z component is positive) and its squared length is 1 up
    to 2^-19.  SPEED_OF_LIGHT is 1 and dividing by it changes nothing: beta
    is the dot product of (starVelocity - observerVelocity) with the line
    of sight, and the factor is computed from that beta.  The star's
    position is no input: two stars with the same velocity get the same
    colour wherever they are. *)
Theorem doppler_line_of_sight_from_velocity
  (sv ov : vec3) (s1 s2 : Star) (obs : float32) :
  within (- f16)%f32 f16 (vx sv) = true ->
  within (- f16)%f32 f16 (vy sv) = true ->
  within (- f16)%f32 f16 (vz sv) = true ->
  valid (vx ov) = true -> valid (vy ov) = true -> valid (vz ov) = true ->
  lineOfSight sv
    = vscale (vsub (mkvec3 f0 f0 OBSERVER_POSITION_Z) sv)
        (inversesqrt (dot (vsub (mkvec3 f0 f0 OBSERVER_POSITION_Z) sv)
                          (vsub (mkvec3 f0 f0 OBSERVER_POSITION_Z) sv))) /\
  is_finite_pos
    (inversesqrt (dot (vsub (mkvec3 f0 f0 OBSERVER_POSITION_Z) sv)
                      (vsub (mkvec3 f0 f0 OBSERVER_POSITION_Z) sv))) = true /\
  properVec (lineOfSight sv) = true /\
  is_finite_pos (vz (lineOfSight sv)) = true /\
  (Rabs (lengthSq (lineOfSight sv) - 1) <= bpow (-19))%R /\
  SPEED_OF_LIGHT = f1 /\
  rawBeta sv ov = dot (vsub sv ov) (lineOfSight sv) /\
  calculateRelativisticDopplerShift sv ov
    = dopplerOfBeta (clampBeta (dot (vsub sv ov) (lineOfSight sv))) /\
  (velocity s1 = velocity s2 ->
   dopplerShiftedColor (updateStar obs s1) = dopplerShiftedColor (updateStar obs s2)).
Proof.
  intros Hx Hy Hz Vx Vy Vz.
  destruct (observer_minus_velocity sv Hx Hy Hz) as (Dx & Dy & Dz).
  destruct (normalize_length _ Dx Dy Dz) as (Fs & Pl & Fz & Len).
  fold (lineOfSight sv) in Pl, Fz, Len.
  assert (B : rawBeta sv ov = dot (vsub sv ov) (lineOfSight sv)).
  { unfold rawBeta. apply div_one.
    unfold properVec in Pl. apply andb_true_iff in Pl. destruct Pl as [Pl P3].
    apply andb_true_iff in Pl. destruct Pl as [P1 P2].
    apply proper_inv in P1, P2, P3.
    apply within_inv in Hx, Hy, Hz.
    destruct Hx as (_ & _ & Px & _), Hy as (_ & _ & Py & _), Hz as (_ & _ & Pz & _).
    apply proper_inv in Px, Py, Pz.
    apply dot_valid; unfold vsub; cbn [vx vy vz];
      try tauto; apply sub_valid_any; tauto. }
  split; [reflexivity|]. split; [exact Fs|]. split; [exact Pl|].
  split; [exact Fz|]. split; [exact Len|]. split; [reflexivity|].
  split; [exact B|]. split; [rewrite calculate_decompose, B; reflexivity|].
  intros H. unfold updateStar. cbn [dopplerShiftedColor]. rewrite H. reflexivity.
Qed.

Lemma doppler_line_of_sight_from_velocity_witness :
  (Rabs (lengthSq (lineOfSight (mkvec3 f0_5 f0 f0_4)) - 1) <= bpow (-19))%R /\
  is_finite_pos (vz (lineOfSight (mkvec3 f0_5 f0 f0_4))) = true /\
  rawBeta (mkvec3 f0_5 f0 f0_4) (mkvec3 f0 f0 f0_1)
    = dot (vsub (mkvec3 f0_5 f0 f0_4) (mkvec3 f0 f0 f0_1))
          (lineOfSight (mkvec3 f0_5 f0 f0_4)).
Proof.
  assert (H := doppler_line_of_sight_from_velocity
                 (mkvec3 f0_5 f0 f0_4) (mkvec3 f0 f0 f0_1)
                 (mkStar (mkvec3 f1 f0 f0) (mkvec3 f0_5 f0 f0_4)
                         (mkvec3 f0 f0 f0) (f0, f0, f0))
                 (mkStar (mkvec3 f5 f5 f5) (mkvec3 f0_5 f0 f0_4)
                         (mkvec3 f1 f1 f1) (f1, f1, f1))
                 f0_1 eq_refl eq_refl eq_refl eq_refl eq_refl eq_refl).
  split; [exact (proj1 (proj2 (proj2 (proj2 (proj2 H)))))|].
  split; [exact (proj1 (proj2 (proj2 (proj2 H))))|].
  exact (proj1 (proj2 (proj2 (proj2 (proj2 (proj2 (proj2 H))))))).
Defined.

(** C2, as stated, fails.  With the star velocity equal to the observer
    point the difference is the zero vector, its length is 0 and the line of
    sight is (NaN, NaN, NaN), no unit vector.  And where the line of sight
    is a vector of numbers its length is 1 only up to rounding: for the
    star velocity (0.5, 0, 0.4) its squared length, computed by glm::dot,
    is 1 + 2^-23. *)
Lemma lineOfSight_not_unit_counterexample :
  lineOfSight (mkvec3 f0 f0 OBSERVER_POSITION_Z)
    = mkvec3 S754_nan S754_nan S754_nan /\
  properVec (lineOfSight (mkvec3 f0 f0 OBSERVER_POSITION_Z)) = false /\
  dot (lineOfSight (mkvec3 f0_5 f0 f0_4)) (lineOfSight (mkvec3 f0_5 f0 f0_4))
    = S754_finite false 8388609 (-23) /\
  (f1 <? dot (lineOfSight (mkvec3 f0_5 f0 f0_4))
             (lineOfSight (mkvec3 f0_5 f0 f0_4)))%f32 = true.
Proof. repeat split; vm_compute; reflexivity. Qed.

(** C7 (as amended).  On binary32 numbers strictly between -1 and 1 the map
    beta |-> sqrt((1+beta)/(1-beta)) is finite and strictly positive and is
    exactly 1 at beta = 0.  It never falls when beta grows, and it grows
    strictly whenever the two betas are at least 2^-10 apart. *)
Theorem dopplerOfBeta_positive_monotone (b1 b2 : float32) :
  valid b1 = true -> valid b2 = true ->
  (- f1 <? b1)%f32 = true -> (b1 <=? b2)%f32 = true -> (b2 <? f1)%f32 = true ->
  is_finite_pos (dopplerOfBeta b1) = true /\
  is_finite_pos (dopplerOfBeta b2) = true /\
  dopplerOfBeta f0 = f1 /\
  (dopplerOfBeta b1 <=? dopplerOfBeta b2)%f32 = true /\
  ((b1 + betaGap <=? b2)%f32 = true ->
   (dopplerOfBeta b1 <? dopplerOfBeta b2)%f32 = true).
Proof.
  unfold ltb, leb. intros V1 V2 L1 L12 L2.
  assert (F1 : is_finite b1 = true).
  { destruct b1 as [?|[|]| |? ? ?]; try reflexivity; try discriminate.
    destruct b2 as [?|[|]| |? ? ?]; discriminate. }
  assert (F2 : is_finite b2 = true).
  { destruct b2 as [?|[|]| |? ? ?]; try reflexivity; try discriminate.
    destruct b1 as [?|[|]| |? ? ?]; discriminate. }
  assert (P1 : proper b1 = true) by (unfold proper; rewrite V1, F1; reflexivity).
  assert (P2 : proper b2 = true) by (unfold proper; rewrite V2, F2; reflexivity).
  assert (R1 : (-1 < SF2R b1)%R).
  { apply proper_ltb_iff in L1; try assumption; try reflexivity.
    unfold neg in L1. rewrite SF2R_opp, SF2R_f1 in L1. exact L1. }
  assert (R2 : (SF2R b2 < 1)%R).
  { apply proper_ltb_iff in L2; try assumption; try reflexivity.
    rewrite SF2R_f1 in L2. exact L2. }
  assert (R12 : (SF2R b1 <= SF2R b2)%R) by (apply proper_leb_iff; assumption).
  assert (W1 : within (- pred_one)%f32 pred_one b1 = true)
    by (apply open_unit_within; [assumption|lra]).
  assert (W2 : within (- pred_one)%f32 pred_one b2 = true)
    by (apply open_unit_within; [assumption|lra]).
  split; [eapply within_positive; [exact (dopplerOfBeta_within b1 W1)|reflexivity]|].
  split; [eapply within_positive; [exact (dopplerOfBeta_within b2 W2)|reflexivity]|].
  split; [vm_compute; reflexivity|].
  split.
  - apply dopplerOfBeta_grows; assumption.
  - intros G. apply dopplerOfBeta_strict; assumption.
Qed.

Lemma dopplerOfBeta_positive_monotone_witness :
  (dopplerOfBeta (- f0_5)%f32 <=? dopplerOfBeta f0_5)%f32 = true /\
  (dopplerOfBeta (- f0_5)%f32 <? dopplerOfBeta f0_5)%f32 = true.
Proof.
  assert (H := dopplerOfBeta_positive_monotone (- f0_5)%f32 f0_5
                 eq_refl eq_refl eq_refl eq_refl eq_refl).
  split.
  - exact (proj1 (proj2 (proj2 (proj2 H)))).
  - refine (proj2 (proj2 (proj2 (proj2 H))) _). vm_compute. reflexivity.
Defined.

(** C7, as stated, fails: the factor is not strictly increasing.  The betas
    0 and 2^-30 both give exactly 1, and 0.25 and the next binary32 number
    after it give the same factor. *)
Lemma dopplerOfBeta_not_strictly_increasing :
  ((f0 <? tinyBeta)%f32 = true /\
   dopplerOfBeta f0 = dopplerOfBeta tinyBeta) /\
  ((f0_25 <? S754_finite false 8388609 (-25))%f32 = true /\
   dopplerOfBeta f0_25 = dopplerOfBeta (S754_finite false 8388609 (-25))).
Proof. repeat split; vm_compute; reflexivity. Qed.

(** ** The spectrum mapper *)

Lemma within_from_leb lo hi x :
  proper lo = true -> proper hi = true -> proper x = true ->
  SFltb hi x = false -> SFleb lo x = true -> within lo hi x = true.
Proof.
  intros Pl Ph Px H1 H2. apply within_intro; try assumption.
  apply proper_not_ltb; assumption.
Qed.

Lemma leb_false_ltb lo x :
  proper lo = true -> proper x = true ->
  (x <=? lo)%f32 = false -> (lo <? x)%f32 = true /\ SFleb lo x = true.
Proof.
  unfold leb, ltb. intros Pl Px H.
  pose proof (proper_not_leb lo x Pl Px H) as Hlt. split; [assumption|].
  apply proper_ltb_iff in Hlt; try assumption.
  apply proper_leb_iff; try assumption. lra.
Qed.

Lemma within_unit_proper w : within f0 f1 w = true -> proper w = true.
Proof. intros H. apply within_inv in H. tauto. Qed.

Ltac seg_box lo hi :=
  eapply (fun a b H => within_weaken a b lo hi _ H);
  [box | vm_compute; reflexivity ..].

Lemma violetToBlue_range w :
  within f0 f0_25 w = true ->
  within f0 f1 (redOf (violetToBlue w)) = true /\
  within f0 f1 (greenOf (violetToBlue w)) = true /\
  within f0 f1 (blueOf (violetToBlue w)) = true.
Proof.
  intros H. unfold violetToBlue, redOf, greenOf, blueOf. cbn [fst snd].
  split; [seg_box f0 f1|split; [reflexivity|seg_box f0 f1]].
Qed.

Lemma blueToCyan_range w :
  within f0_25 f0_4 w = true ->
  within f0 f1 (redOf (blueToCyan w)) = true /\
  within f0 f1 (greenOf (blueToCyan w)) = true /\
  within f0 f1 (blueOf (blueToCyan w)) = true.
Proof.
  intros H. unfold blueToCyan, redOf, greenOf, blueOf. cbn [fst snd].
  split; [reflexivity|split; [seg_box f0 f1|reflexivity]].
Qed.

Lemma cyanToGreen_range w :
  within f0_4 f0_55 w = true ->
  within f0 f1 (redOf (cyanToGreen w)) = true /\
  within f0 f1 (greenOf (cyanToGreen w)) = true /\
  within f0 f1 (blueOf (cyanToGreen w)) = true.
Proof.
  intros H. unfold cyanToGreen, redOf, greenOf, blueOf. cbn [fst snd].
  split; [reflexivity|split; [reflexivity|seg_box f0 f1]].
Qed.

Lemma greenToYellow_range w :
  within f0_55 f0_6 w = true ->
  within f0 one_plus_2ulp (redOf (greenToYellow w)) = true /\
  within f0 f1 (greenOf (greenToYellow w)) = true /\
  within f0 f1 (blueOf (greenToYellow w)) = true.
Proof.
  intros H. unfold greenToYellow, redOf, greenOf, blueOf. cbn [fst snd].
  split; [seg_box f0 one_plus_2ulp|split; [reflexivity|reflexivity]].
Qed.

Lemma yellowToRed_range w :
  within f0_6 f0_75 w = true ->
  within f0 f1 (redOf (yellowToRed w)) = true /\
  within f0 f1 (greenOf (yellowToRed w)) = true /\
  within f0 f1 (blueOf (yellowToRed w)) = true.
Proof.
  intros H. unfold yellowToRed, redOf, greenOf, blueOf. cbn [fst snd].
  split; [reflexivity|split; [seg_box f0 f1|reflexivity]].
Qed.

(** C3 (as amended).  For every binary32 w in [0,1], wavelengthToRGB(w) is
    the row of the six-segment table that w selects (boundaries belong to the
    lower segment); green and blue lie in [0,1]; red lies in [0,1] outside
    the green-to-yellow segment and in [0, 1 + 2^-22] inside it. *)
Theorem wavelengthToRGB_table_and_range (w : float32) :
  within f0 f1 w = true ->
  spectrumTable w (wavelengthToRGB w) /\
  within f0 f1 (greenOf (wavelengthToRGB w)) = true /\
  within f0 f1 (blueOf (wavelengthToRGB w)) = true /\
  within f0 one_plus_2ulp (redOf (wavelengthToRGB w)) = true /\
  (((w <=? f0_55)%f32 = true \/ (f0_6 <? w)%f32 = true) ->
   within f0 f1 (redOf (wavelengthToRGB w)) = true).
Proof.
  intros W. pose proof (within_unit_proper w W) as P.
  apply within_inv in W. destruct W as (_ & _ & _ & W0 & W1).
  assert (Hup : forall c, within f0 f1 c = true -> within f0 one_plus_2ulp c = true).
  { intros c Hc. apply (within_weaken f0 f1 f0 one_plus_2ulp c Hc); reflexivity. }
  unfold wavelengthToRGB, spectrumTable.
  destruct (w <=? f0_25)%f32 eqn:H1.
  { fold (violetToBlue w).
    destruct (violetToBlue_range w) as (R & G & B).
    { apply within_intro; try assumption; reflexivity. }
    repeat split; auto. }
  destruct (leb_false_ltb f0_25 w eq_refl P H1) as [L1 L1'].
  destruct (w <=? f0_4)%f32 eqn:H2.
  { fold (blueToCyan w).
    destruct (blueToCyan_range w) as (R & G & B).
    { apply within_intro; try assumption; reflexivity. }
    repeat split; auto 7. }
  destruct (leb_false_ltb f0_4 w eq_refl P H2) as [L2 L2'].
  destruct (w <=? f0_55)%f32 eqn:H3.
  { fold (cyanToGreen w).
    destruct (cyanToGreen_range w) as (R & G & B).
    { apply within_intro; try assumption; reflexivity. }
    repeat split; auto 8. }
  destruct (leb_false_ltb f0_55 w eq_refl P H3) as [L3 L3'].
  destruct (w <=? f0_6)%f32 eqn:H4.
  { fold (greenToYellow w).
    destruct (greenToYellow_range w) as (R & G & B).
    { apply within_intro; try assumption; reflexivity. }
    repeat split; auto 9.
    intros [H|H]; [discriminate|].
    unfold ltb, leb in *. apply proper_ltb_iff in H; try assumption; try reflexivity.
    apply proper_leb_iff in H4; try assumption; try reflexivity. lra. }
  destruct (leb_false_ltb f0_6 w eq_refl P H4) as [L4 L4'].
  destruct (w <=? f0_75)%f32 eqn:H5.
  { fold (yellowToRed w).
    destruct (yellowToRed_range w) as (R & G & B).
    { apply within_intro; try assumption; reflexivity. }
    repeat split; auto 10. }
  destruct (leb_false_ltb f0_75 w eq_refl P H5) as [L5 L5'].
  fold (deepRed w). repeat split; auto 10.
Qed.

Lemma wavelengthToRGB_table_and_range_witness :
  within f0 one_plus_2ulp (redOf (wavelengthToRGB f0_6)) = true.
Proof.
  apply (wavelengthToRGB_table_and_range f0_6). vm_compute. reflexivity.
Defined.

(** C3, as stated, fails: 0.6f lies in [0,1], and there the red channel is
    (0.6f - 0.55f) / 0.05f = 1 + 2^-22, which is larger than 1. *)
Lemma wavelengthToRGB_red_exceeds_one :
  within f0 f1 f0_6 = true /\
  redOf (wavelengthToRGB f0_6) = one_plus_2ulp /\
  (f1 <? redOf (wavelengthToRGB f0_6))%f32 = true.
Proof. repeat split; vm_compute; reflexivity. Qed.

(** C8 (as amended).  The two formulas that meet at a boundary agree at 0.4
    and at 0.55.  At 0.25 the first gives (0.5, 0, 1) and the second
    (0, 0, 1); at 0.6 they differ in red (1 + 2^-22 against 1) and at 0.75 in
    green (1.5 * 2^-23 against 0). *)
Theorem segment_boundaries :
  blueToCyan f0_4 = cyanToGreen f0_4 /\
  cyanToGreen f0_55 = greenToYellow f0_55 /\
  violetToBlue f0_25 = (f0_5, f0, f1) /\
  blueToCyan f0_25 = (f0, f0, f1) /\
  greenToYellow f0_6 = (one_plus_2ulp, f1, f0) /\
  yellowToRed f0_6 = (f1, f1, f0) /\
  yellowToRed f0_75 = (f1, S754_finite false 12582912 (-46), f0) /\
  deepRed f0_75 = (f1, f0, f0) /\
  wavelengthToRGB f0_25 = violetToBlue f0_25 /\
  wavelengthToRGB f0_4 = blueToCyan f0_4 /\
  wavelengthToRGB f0_55 = cyanToGreen f0_55 /\
  wavelengthToRGB f0_6 = greenToYellow f0_6 /\
  wavelengthToRGB f0_75 = yellowToRed f0_75.
Proof. repeat split; vm_compute; reflexivity. Qed.

(** C8, as stated, fails: at the boundary 0.25 the two adjacent formulas
    give different colours. *)
Lemma segment_boundary_0_25_jump : violetToBlue f0_25 <> blueToCyan f0_25.
Proof. vm_compute. discriminate. Qed.

(** ** Observer velocity and view angle *)

Lemma run_invariant (Inv : State -> Prop) :
  (forall ev st st', Inv st -> step ev st = Some st' -> Inv st') ->
  forall evs st st', Inv st -> run evs st = Some st' -> Inv st'.
Proof.
  intros Hstep evs. induction evs as [|ev rest IH]; intros st st' Hi Hr.
  - inversion Hr. subst. assumption.
  - cbn [run] in Hr. destruct (step ev st) as [st1|] eqn:Hs; [|discriminate].
    apply (IH st1); [eapply Hstep; eassumption|assumption].
Qed.

(** every key: what it does to the fields *)
Lemma keyboard_cases key st st' :
  keyboard key st = Some st' ->
  st' = updateDopplerShifts
          (set_observerVelocity (increaseVelocity (observerVelocity st)) st) \/
  st' = updateDopplerShifts
          (set_observerVelocity (decreaseVelocity (observerVelocity st)) st) \/
  st' = set_viewAngle (viewAngle st - f5)%f32 st \/
  st' = set_viewAngle (viewAngle st + f5)%f32 st \/
  st' = set_show (negb (showKeplerian st)) (showFlatRotation st) st \/
  st' = set_show (showKeplerian st) (negb (showFlatRotation st)) st \/
  st' = updateDopplerShifts
          (set_observerVelocity f0 (set_show true true (set_viewAngle f0 st))) \/
  st' = st.
Proof.
  unfold keyboard.
  repeat match goal with
  | |- context [if ?c then _ else _] => destruct c
  end; intros H; inversion H; tauto.
Qed.

Lemma increaseVelocity_range v :
  within (- f0_9)%f32 f0_9 v = true ->
  within (- f0_9)%f32 f0_9 (increaseVelocity v) = true.
Proof.
  intros H. unfold increaseVelocity. cbv zeta.
  assert (W : within (- f0_9 + f0_01)%f32 (f0_9 + f0_01)%f32 (v + f0_01)%f32 = true) by box.
  destruct (v + f0_01 >? f0_9)%f32 eqn:G; [reflexivity|].
  unfold gtb in G. apply within_inv in W. destruct W as (P1 & P2 & P & L1 & L2).
  apply within_from_leb; try assumption; try reflexivity.
  apply (proper_leb_trans _ (- f0_9 + f0_01)%f32); try assumption; reflexivity.
Qed.

Lemma decreaseVelocity_range v :
  within (- f0_9)%f32 f0_9 v = true ->
  within (- f0_9)%f32 f0_9 (decreaseVelocity v) = true.
Proof.
  intros H. unfold decreaseVelocity. cbv zeta.
  assert (W : within (- f0_9 - f0_01)%f32 (f0_9 - f0_01)%f32 (v - f0_01)%f32 = true) by box.
  destruct (v - f0_01 <? - f0_9)%f32 eqn:G; [reflexivity|].
  unfold ltb in G. apply within_inv in W. destruct W as (P1 & P2 & P & L1 & L2).
  apply within_intro; try assumption; try reflexivity.
  - apply proper_not_ltb; try assumption; reflexivity.
  - apply (proper_leb_trans _ (f0_9 - f0_01)%f32); try assumption; reflexivity.
Qed.

Lemma step_observerVelocity_range ev st st' :
  within (- f0_9)%f32 f0_9 (observerVelocity st) = true ->
  step ev st = Some st' ->
  within (- f0_9)%f32 f0_9 (observerVelocity st') = true.
Proof.
  intros Hi Hs. destruct ev as [key|w h| |]; cbn [step] in Hs.
  - apply keyboard_cases in Hs.
    destruct Hs as [->|[->|[->|[->|[->|[->|[->| ->]]]]]]];
      cbn [observerVelocity updateDopplerShifts set_observerVelocity
           set_viewAngle set_show]; auto using increaseVelocity_range,
           decreaseVelocity_range.
  - inversion Hs. subst. exact Hi.
  - inversion Hs. subst. exact Hi.
  - inversion Hs. subst. exact Hi.
Qed.

Lemma run_press_w n : forall st,
  exists st', run (repeat (EvKey "w") n) st = Some st' /\
    observerVelocity st' = Nat.iter n increaseVelocity (observerVelocity st).
Proof.
  induction n as [|n IH]; intros st.
  - exists st. split; reflexivity.
  - cbn [repeat run step]. 
    change (keyboard "w" st) with
      (Some (updateDopplerShifts
               (set_observerVelocity (increaseVelocity (observerVelocity st)) st))).
    destruct (IH (updateDopplerShifts
               (set_observerVelocity (increaseVelocity (observerVelocity st)) st)))
      as (st' & Hr & Hv).
    exists st'. split; [exact Hr|]. rewrite Hv.
    cbn [observerVelocity updateDopplerShifts set_observerVelocity].
    rewrite <- Nat.iter_succ_r. reflexivity.
Qed.

(** C6.  The velocity-increase transition sets observerVelocity to
    v + 0.01, replaced by 0.9 when that exceeds 0.9; the velocity-decrease
    transition to v - 0.01, replaced by -0.9 when that is below -0.9.  In
    every state the program can reach observerVelocity lies in [-0.9, 0.9],
    and 95 velocity-increase transitions from the start leave it at exactly
    0.9. *)
Theorem observerVelocity_clamped sin cos draw (st : State) :
  reachable sin cos draw st ->
  within (- f0_9)%f32 f0_9 (observerVelocity st) = true /\
  (exists st', keyboard "w" st = Some st' /\
     observerVelocity st' =
       (if (observerVelocity st + f0_01 >? f0_9)%f32 then f0_9
        else (observerVelocity st + f0_01)%f32) /\
     within (- f0_9)%f32 f0_9 (observerVelocity st') = true) /\
  (exists st', keyboard "s" st = Some st' /\
     observerVelocity st' =
       (if (observerVelocity st - f0_01 <? - f0_9)%f32 then (- f0_9)%f32
        else (observerVelocity st - f0_01)%f32) /\
     within (- f0_9)%f32 f0_9 (observerVelocity st') = true) /\
  (exists st', run (repeat (EvKey "w") 95) (start sin cos draw) = Some st' /\
     observerVelocity st' = f0_9).
Proof.
  intros [evs Hr].
  assert (Hi : within (- f0_9)%f32 f0_9 (observerVelocity st) = true).
  { apply (run_invariant
             (fun s => within (- f0_9)%f32 f0_9 (observerVelocity s) = true)
             step_observerVelocity_range evs (start sin cos draw) st);
      [reflexivity | exact Hr]. }
  split; [exact Hi|]. split; [|split].
  - eexists. split; [reflexivity|]. split; [reflexivity|].
    apply (increaseVelocity_range _ Hi).
  - eexists. split; [reflexivity|]. split; [reflexivity|].
    apply (decreaseVelocity_range _ Hi).
  - destruct (run_press_w 95 (start sin cos draw)) as (st' & H1 & H2).
    exists st'. split; [exact H1|]. rewrite H2.
    change (observerVelocity (start sin cos draw)) with f0.
    vm_compute. reflexivity.
Qed.

Lemma observerVelocity_clamped_witness :
  within (- f0_9)%f32 f0_9
    (observerVelocity
       (start (fun _ => f0) (fun _ => f0) (fun _ => (f0, f0, f0)))) = true.
Proof.
  apply (observerVelocity_clamped (fun _ => f0) (fun _ => f0) (fun _ => (f0, f0, f0))).
  exists []. reflexivity.
Defined.

Lemma idleAngle_range a :
  within f0 f360 a = true -> within f0 f360 (idleAngle a) = true.
Proof.
  intros H. unfold idleAngle. cbv zeta.
  assert (W : within (f0 + f0_1)%f32 (f360 + f0_1)%f32 (a + f0_1)%f32 = true) by box.
  destruct (a + f0_1 >? f360)%f32 eqn:G.
  - unfold gtb in G.
    assert (W' : within f360 (f360 + f0_1)%f32 (a + f0_1)%f32 = true).
    { apply within_inv in W. destruct W as (P1 & P2 & P & L1 & L2).
      apply within_intro; try assumption; try reflexivity.
      apply proper_ltb_iff in G; try assumption; try reflexivity.
      apply proper_leb_iff; try assumption; try reflexivity. lra. }
    clear W. eapply within_weaken; [box | vm_compute; reflexivity ..].
  - unfold gtb in G. apply within_inv in W. destruct W as (P1 & P2 & P & L1 & L2).
    apply within_from_leb; try assumption; try reflexivity.
    apply (proper_leb_trans _ (f0 + f0_1)%f32); try assumption; reflexivity.
Qed.

Lemma ltb_leb_trans a b c :
  proper a = true -> proper b = true -> proper c = true ->
  SFltb a b = true -> SFleb b c = true -> SFltb a c = true.
Proof.
  intros Pa Pb Pc H1 H2.
  apply proper_ltb_iff in H1; try assumption.
  apply proper_leb_iff in H2; try assumption.
  apply proper_ltb_iff; try assumption. lra.
Qed.

Lemma leb_ltb_trans a b c :
  proper a = true -> proper b = true -> proper c = true ->
  SFleb a b = true -> SFltb b c = true -> SFltb a c = true.
Proof.
  intros Pa Pb Pc H1 H2.
  apply proper_leb_iff in H1; try assumption.
  apply proper_ltb_iff in H2; try assumption.
  apply proper_ltb_iff; try assumption. lra.
Qed.

Lemma ltb_false_of_leb a b :
  proper a = true -> proper b = true -> SFleb a b = true -> SFltb b a = false.
Proof.
  intros Pa Pb H. destruct (SFltb b a) eqn:L; [|reflexivity].
  apply proper_leb_iff in H; try assumption.
  apply proper_ltb_iff in L; try assumption. lra.
Qed.

(** every binary32 number lies between the two largest ones *)
Lemma proper_le_max x : proper x = true -> SFleb x fmax = true.
Proof.
  intros P. assert (Pm : proper fmax = true) by reflexivity.
  apply proper_leb_iff; try assumption.
  change (SF2R fmax) with (val 16777215 104).
  pose proof (val_pos 16777215 104 ltac:(lia)) as Hp.
  apply proper_inv in P. destruct P as [V F].
  destruct x as [s| | |[|] m e]; try discriminate; cbn [SF2R cond_Zopp Z.opp].
  - lra.
  - rewrite val_Zneg. pose proof (val_pos (Zpos m) e ltac:(lia)). lra.
  - pose proof (valid_finite_inv _ _ _ V) as (Hm & He & Hn).
    apply Rle_trans with (val 16777215 e).
    + apply val_le_iff. lia.
    + apply val_exp_mono; lia.
Qed.

Lemma proper_ge_min x : proper x = true -> SFleb (- fmax)%f32 x = true.
Proof.
  intros P. unfold neg. rewrite <- (SFopp_involutive x), SFleb_opp.
  apply proper_le_max. unfold proper in *.
  rewrite valid_opp, is_finite_opp. assumption.
Qed.

(** below the range a tick adds 0.1 and stays below *)
Lemma idleAngle_below a :
  proper a = true -> (a <=? - f1)%f32 = true ->
  idleAngle a = (a + f0_1)%f32 /\ (idleAngle a <? f0)%f32 = true.
Proof.
  unfold leb, ltb. intros P L.
  assert (H : within (- fmax)%f32 (- f1)%f32 a = true)
    by (apply within_intro; try assumption; try reflexivity;
        apply proper_ge_min; assumption).
  assert (W : within (- fmax + f0_1)%f32 (- f1 + f0_1)%f32 (a + f0_1)%f32 = true)
    by box.
  apply within_inv in W. destruct W as (P1 & P2 & P3 & L1 & L2).
  assert (E : idleAngle a = (a + f0_1)%f32).
  { unfold idleAngle, gtb. cbv zeta.
    rewrite (ltb_false_of_leb (a + f0_1)%f32 f360); try assumption; try reflexivity.
    apply (proper_leb_trans _ (- f1 + f0_1)%f32); try assumption; reflexivity. }
  split; [exact E|]. rewrite E.
  apply (leb_ltb_trans _ (- f1 + f0_1)%f32); try assumption; reflexivity.
Qed.

(** from 720 on a tick subtracts 360 once and stays above 360 *)
Lemma idleAngle_above a :
  proper a = true -> (f720 <=? a)%f32 = true ->
  idleAngle a = (a + f0_1 - f360)%f32 /\ (f360 <? idleAngle a)%f32 = true.
Proof.
  unfold leb, ltb. intros P L.
  assert (H : within f720 fmax a = true)
    by (apply within_intro; try assumption; try reflexivity;
        apply proper_le_max; assumption).
  assert (W : within (f720 + f0_1)%f32 (fmax + f0_1)%f32 (a + f0_1)%f32 = true)
    by box.
  assert (W2 : within (f720 + f0_1 - f360)%f32 (fmax + f0_1 - f360)%f32
                 (a + f0_1 - f360)%f32 = true) by box.
  apply within_inv in W. destruct W as (P1 & P2 & P3 & L1 & L2).
  apply within_inv in W2. destruct W2 as (Q1 & Q2 & Q3 & M1 & M2).
  assert (E : idleAngle a = (a + f0_1 - f360)%f32).
  { unfold idleAngle, gtb. cbv zeta.
    rewrite (ltb_leb_trans f360 (f720 + f0_1)%f32 (a + f0_1)%f32);
      try assumption; reflexivity. }
  split; [exact E|]. rewrite E.
  apply (ltb_leb_trans _ (f720 + f0_1 - f360)%f32); try assumption; reflexivity.
Qed.

(** C9 (as amended).  Every idle tick, from every state, adds 0.1 to
    viewAngle and, when the sum is larger than 360, subtracts 360 once;
    nothing else changes.  The rotation keys, from every state, subtract or
    add 5 and apply no wrap.  If viewAngle is in [0, 360] before a tick it
    is in [0, 360] after it.  Outside that range a tick does not bring it
    back: from -1 or less it only adds 0.1 and the result is below 0; from
    720 or more it subtracts 360 once and the result is above 360. *)
Theorem idle_tick_range (st : State) :
  viewAngle (idle st) =
    (if (viewAngle st + f0_1 >? f360)%f32 then (viewAngle st + f0_1 - f360)%f32
     else (viewAngle st + f0_1)%f32) /\
  idle st = set_viewAngle (viewAngle (idle st)) st /\
  keyboard "a" st = Some (set_viewAngle (viewAngle st - f5)%f32 st) /\
  keyboard "d" st = Some (set_viewAngle (viewAngle st + f5)%f32 st) /\
  (within f0 f360 (viewAngle st) = true ->
   within f0 f360 (viewAngle (idle st)) = true) /\
  (proper (viewAngle st) = true -> (viewAngle st <=? - f1)%f32 = true ->
   viewAngle (idle st) = (viewAngle st + f0_1)%f32 /\
   (viewAngle (idle st) <? f0)%f32 = true) /\
  (proper (viewAngle st) = true -> (f720 <=? viewAngle st)%f32 = true ->
   viewAngle (idle st) = (viewAngle st + f0_1 - f360)%f32 /\
   (f360 <? viewAngle (idle st))%f32 = true).
Proof.
  split; [reflexivity|]. split; [reflexivity|].
  split; [reflexivity|]. split; [reflexivity|].
  split; [exact (idleAngle_range (viewAngle st))|].
  split.
  - exact (idleAngle_below (viewAngle st)).
  - exact (idleAngle_above (viewAngle st)).
Qed.

(** at 360 the tick takes the subtracting branch and lands in the range;
    at -5 and at 720 it lands outside *)
Lemma idle_tick_range_witness :
  (viewAngle (idle (set_viewAngle f360 initial_state))
     = (f360 + f0_1 - f360)%f32 /\
   within f0 f360 (viewAngle (idle (set_viewAngle f360 initial_state))) = true) /\
  (viewAngle (idle (set_viewAngle (f0 - f5)%f32 initial_state)) <? f0)%f32 = true /\
  (f360 <? viewAngle (idle (set_viewAngle f720 initial_state)))%f32 = true.
Proof.
  split; [split|split].
  - exact (proj1 (idle_tick_range (set_viewAngle f360 initial_state))).
  - refine (proj1 (proj2 (proj2 (proj2 (proj2
      (idle_tick_range (set_viewAngle f360 initial_state)))))) _).
    vm_compute. reflexivity.
  - refine (proj2 (proj1 (proj2 (proj2 (proj2 (proj2 (proj2
      (idle_tick_range (set_viewAngle (f0 - f5)%f32 initial_state))))))) _ _));
      vm_compute; reflexivity.
  - refine (proj2 (proj2 (proj2 (proj2 (proj2 (proj2 (proj2
      (idle_tick_range (set_viewAngle f720 initial_state))))))) _ _));
      vm_compute; reflexivity.
Defined.

Lemma run_press_d n : forall st,
  exists st', run (repeat (EvKey "d") n) st = Some st' /\
    viewAngle st' = Nat.iter n (fun a => (a + f5)%f32) (viewAngle st).
Proof.
  induction n as [|n IH]; intros st.
  - exists st. split; reflexivity.
  - cbn [repeat run step].
    change (keyboard "d" st) with (Some (set_viewAngle (viewAngle st + f5)%f32 st)).
    destruct (IH (set_viewAngle (viewAngle st + f5)%f32 st)) as (st' & Hr & Hv).
    exists st'. split; [exact Hr|]. rewrite Hv.
    cbn [viewAngle set_viewAngle].
    rewrite (Nat.iter_succ_r n _ (fun a => (a + f5)%f32) (viewAngle st)). reflexivity.
Qed.

(** C9, as stated, fails.  One rotation-left from the start and then an
    idle tick leave viewAngle at -4.9, below 0; 144 rotation-rights and then
    a tick leave it at 360.1, not below 360. *)
Lemma idle_tick_counterexample :
  let s0 := start (fun _ => f0) (fun _ => f0) (fun _ => (f0, f0, f0)) in
  (exists st, run [EvKey "a"] s0 = Some st /\
     (f0 <=? viewAngle (idle st))%f32 = false) /\
  (exists st, run (repeat (EvKey "d") 144) s0 = Some st /\
     (viewAngle (idle st) <? f360)%f32 = false).
Proof.
  cbv zeta. split.
  - exists (set_viewAngle (f0 - f5)%f32
              (start (fun _ => f0) (fun _ => f0) (fun _ => (f0, f0, f0)))).
    split; [reflexivity|].
    cbn [idle viewAngle set_viewAngle]. vm_compute. reflexivity.
  - destruct (run_press_d 144
                (start (fun _ => f0) (fun _ => f0) (fun _ => (f0, f0, f0))))
      as (st & Hr & Hv).
    exists st. split; [exact Hr|].
    cbn [idle viewAngle set_viewAngle]. rewrite Hv.
    change (viewAngle (start (fun _ => f0) (fun _ => f0) (fun _ => (f0, f0, f0))))
      with f0.
    vm_compute. reflexivity.
Qed.

(** ** Stars: what generation fixes and what a refresh derives *)

Lemma updateStar_derived obs s : colorDerived obs (updateStar obs s).
Proof. reflexivity. Qed.

Lemma updateStar_idempotent obs s :
  updateStar obs (updateStar obs s) = updateStar obs s.
Proof. reflexivity. Qed.

Lemma map_updateStar_kinematics obs l :
  map (fun s => (position s, velocity s)) (map (updateStar obs) l) =
  map (fun s => (position s, velocity s)) l.
Proof. rewrite map_map. apply map_ext. reflexivity. Qed.

Lemma updateDopplerShifts_kinematics st :
  kinematics (updateDopplerShifts st) = kinematics st.
Proof.
  unfold kinematics, updateDopplerShifts.
  cbn [keplerianStars flatRotationStars]. rewrite !map_updateStar_kinematics.
  reflexivity.
Qed.

Lemma updateDopplerShifts_derived st : colorsDerived (updateDopplerShifts st).
Proof.
  unfold colorsDerived, updateDopplerShifts.
  cbn [keplerianStars flatRotationStars observerVelocity].
  split; apply Forall_forall; intros s Hs; apply in_map_iff in Hs;
    destruct Hs as (s0 & <- & _); apply updateStar_derived.
Qed.

Lemma updateDopplerShifts_idempotent st :
  updateDopplerShifts (updateDopplerShifts st) = updateDopplerShifts st.
Proof.
  unfold updateDopplerShifts.
  cbn [keplerianStars flatRotationStars observerVelocity windowWidth
       windowHeight showKeplerian showFlatRotation viewAngle].
  rewrite !map_map. f_equal; apply map_ext; intros s; apply updateStar_idempotent.
Qed.

Lemma initializeStars_body_derived sin cos obs d :
  colorDerived obs (fst (initializeStars_body sin cos obs d)) /\
  colorDerived obs (snd (initializeStars_body sin cos obs d)).
Proof.
  destruct d as [[angle radius] height]. unfold initializeStars_body.
  destruct (wavelengthToRGB f0_5) as [[b0 b1] b2]. split; reflexivity.
Qed.

Lemma initializeStarsN_derived sin cos draw count st :
  colorsDerived (initializeStarsN sin cos draw count st).
Proof.
  unfold colorsDerived, initializeStarsN.
  cbn [keplerianStars flatRotationStars observerVelocity].
  split; apply Forall_forall; intros s Hs; apply in_map_iff in Hs;
    destruct Hs as (p & <- & Hp); apply in_map_iff in Hp;
    destruct Hp as (i & <- & _); apply initializeStars_body_derived.
Qed.

Lemma step_keeps_stars ev st st' :
  colorsDerived st -> step ev st = Some st' ->
  kinematics st' = kinematics st /\ colorsDerived st'.
Proof.
  intros Hc Hs. destruct ev as [key|w h| |]; cbn [step] in Hs.
  - apply keyboard_cases in Hs.
    destruct Hs as [->|[->|[->|[->|[->|[->|[->| ->]]]]]]];
      try (split; [reflexivity|exact Hc]);
      (split; [rewrite updateDopplerShifts_kinematics; reflexivity
              |apply updateDopplerShifts_derived]).
  - inversion Hs. subst. split; [reflexivity|exact Hc].
  - inversion Hs. subst. split; [reflexivity|exact Hc].
  - inversion Hs. subst. split; [reflexivity|exact Hc].
Qed.

(** C4.  From generation on, no event changes a star's position or
    velocity; in every state the program reaches, each star's displayed
    colour is wavelengthToRGB(clamp(0.5 * factor(velocity, (0, 0,
    observerVelocity)), 0, 1)); and running the shift updater a second time
    changes nothing. *)
Theorem stars_fixed_colors_derived sin cos draw (st : State) :
  reachable sin cos draw st ->
  kinematics st = kinematics (start sin cos draw) /\
  Forall (fun s =>
            dopplerShiftedColor s =
            wavelengthToRGB
              (clamp (f0_5 * calculateRelativisticDopplerShift
                               (velocity s) (mkvec3 f0 f0 (observerVelocity st)))%f32
                     f0 f1))
         (keplerianStars st ++ flatRotationStars st) /\
  updateDopplerShifts (updateDopplerShifts st) = updateDopplerShifts st /\
  map dopplerShiftedColor (keplerianStars (updateDopplerShifts (updateDopplerShifts st)))
    = map dopplerShiftedColor (keplerianStars (updateDopplerShifts st)) /\
  map dopplerShiftedColor (flatRotationStars (updateDopplerShifts (updateDopplerShifts st)))
    = map dopplerShiftedColor (flatRotationStars (updateDopplerShifts st)).
Proof.
  intros [evs Hr].
  assert (Hi : kinematics st = kinematics (start sin cos draw) /\ colorsDerived st).
  { apply (run_invariant
             (fun s => kinematics s = kinematics (start sin cos draw) /\ colorsDerived s))
      with (evs := evs) (st := start sin cos draw).
    - intros ev s s' [Hk Hc] Hs.
      destruct (step_keeps_stars ev s s' Hc Hs) as [Hk' Hc'].
      split; [congruence|assumption].
    - split; [reflexivity|]. apply initializeStarsN_derived.
    - exact Hr. }
  destruct Hi as [Hk [Hc1 Hc2]].
  split; [exact Hk|]. split; [apply Forall_app; split; assumption|].
  rewrite updateDopplerShifts_idempotent. repeat split.
Qed.

Lemma stars_fixed_colors_derived_witness :
  kinematics (start (fun _ => f0) (fun _ => f0) (fun _ => (f0, f0, f0)))
  = kinematics (start (fun _ => f0) (fun _ => f0) (fun _ => (f0, f0, f0))).
Proof.
  apply (stars_fixed_colors_derived
           (fun _ => f0) (fun _ => f0) (fun _ => (f0, f0, f0))).
  exists []. reflexivity.
Defined.

Lemma nth_error_map_seq {A : Type} (f : nat -> A) (n i : nat) :
  (i < n)%nat -> nth_error (map f (seq 0 n)) i = Some (f i).
Proof.
  intros H. rewrite nth_error_map.
  assert (nth_error (seq 0 n) i = Some i) as ->; [|reflexivity].
  rewrite nth_error_nth' with (d := O) by (rewrite length_seq; assumption).
  rewrite seq_nth by assumption. reflexivity.
Qed.

(** C5.  The two stars generated at an index share the position
    (radius cos(angle), height, radius sin(angle)).  The Keplerian one moves
    along (-sin(angle), 0, cos(angle)) with the scalar
    MAX_VELOCITY * sqrt(GALAXY_RADIUS / (radius + 0.1)), which at
    radius = GALAXY_RADIUS is strictly below MAX_VELOCITY; the flat-rotation
    one moves along the same direction with the scalar
    FLAT_ROTATION_VELOCITY, whatever the radius. *)
Theorem generated_star_kinematics sin cos draw (st : State) (i : nat) :
  (i < Z.to_nat NUM_STARS)%nat ->
  let '(angle, radius, height) := draw i in
  exists k f,
    nth_error (keplerianStars (initializeStars sin cos draw st)) i = Some k /\
    nth_error (flatRotationStars (initializeStars sin cos draw st)) i = Some f /\
    position k = mkvec3 (radius * cos angle)%f32 height (radius * sin angle)%f32 /\
    position f = position k /\
    velocity k = mkvec3 (keplerianSpeed radius * - sin angle)%f32 f0
                        (keplerianSpeed radius * cos angle)%f32 /\
    velocity f = mkvec3 (FLAT_ROTATION_VELOCITY * - sin angle)%f32 f0
                        (FLAT_ROTATION_VELOCITY * cos angle)%f32 /\
    keplerianSpeed radius
      = (MAX_VELOCITY * sqrt (GALAXY_RADIUS / (radius + f0_1)))%f32 /\
    (keplerianSpeed GALAXY_RADIUS <? MAX_VELOCITY)%f32 = true.
Proof.
  intros Hi. destruct (draw i) as [[angle radius] height] eqn:Hd.
  unfold initializeStars, initializeStarsN.
  cbn [keplerianStars flatRotationStars].
  rewrite !map_map.
  rewrite !(nth_error_map_seq _ _ _ Hi). rewrite Hd.
  unfold initializeStars_body.
  destruct (wavelengthToRGB f0_5) as [[b0 b1] b2]. cbn [fst snd].
  do 2 eexists. repeat split.
Qed.

Lemma generated_star_kinematics_witness :
  exists k f,
    nth_error (keplerianStars
      (initializeStars (fun _ => f0) (fun _ => f1) (fun _ => (f0, GALAXY_RADIUS, f0))
                       initial_state)) 0 = Some k /\
    nth_error (flatRotationStars
      (initializeStars (fun _ => f0) (fun _ => f1) (fun _ => (f0, GALAXY_RADIUS, f0))
                       initial_state)) 0 = Some f /\
    position k = mkvec3 (GALAXY_RADIUS * f1)%f32 f0 (GALAXY_RADIUS * f0)%f32 /\
    position f = position k /\
    velocity k = mkvec3 (keplerianSpeed GALAXY_RADIUS * - f0)%f32 f0
                        (keplerianSpeed GALAXY_RADIUS * f1)%f32 /\
    velocity f = mkvec3 (FLAT_ROTATION_VELOCITY * - f0)%f32 f0
                        (FLAT_ROTATION_VELOCITY * f1)%f32 /\
    keplerianSpeed GALAXY_RADIUS
      = (MAX_VELOCITY * sqrt (GALAXY_RADIUS / (GALAXY_RADIUS + f0_1)))%f32 /\
    (keplerianSpeed GALAXY_RADIUS <? MAX_VELOCITY)%f32 = true.
Proof.
  apply (generated_star_kinematics
           (fun _ => f0) (fun _ => f1) (fun _ => (f0, GALAXY_RADIUS, f0))
           initial_state 0%nat).
  unfold NUM_STARS. lia.
Defined.

(** C10.  Two flat-rotation stars generated from the same angle have the
    same velocity whatever their radii and heights, hence the same Doppler
    factor and the same displayed colour, at generation and after any
    refresh, for every observer velocity. *)
Theorem flat_color_independent_of_radius_height
  sin cos (obs obs' angle r1 h1 r2 h2 : float32) :
  let s1 := snd (initializeStars_body sin cos obs (angle, r1, h1)) in
  let s2 := snd (initializeStars_body sin cos obs (angle, r2, h2)) in
  velocity s1 = velocity s2 /\
  calculateRelativisticDopplerShift (velocity s1) (mkvec3 f0 f0 obs')
    = calculateRelativisticDopplerShift (velocity s2) (mkvec3 f0 f0 obs') /\
  dopplerShiftedColor s1 = dopplerShiftedColor s2 /\
  dopplerShiftedColor (updateStar obs' s1) = dopplerShiftedColor (updateStar obs' s2).
Proof.
  unfold initializeStars_body. cbv zeta.
  destruct (wavelengthToRGB f0_5) as [[b0 b1] b2].
  cbn [fst snd velocity dopplerShiftedColor updateStar].
  split; [reflexivity|]. split; [reflexivity|]. split; reflexivity.
Qed.

(** ** Colours the pipeline can produce *)

(** if [w <= u] fails for a well-formed [w], so does [w <= t] for [t <= u] *)
Lemma leb_false_below w t u :
  valid w = true -> proper t = true -> proper u = true ->
  SFleb t u = true -> SFleb w u = false -> SFleb w t = false.
Proof.
  intros V Pt Pu Htu Hwu. destruct (SFleb w t) eqn:Hwt; [|reflexivity].
  assert (F : is_finite w = true).
  { destruct w as [?|[|]| |? ? ?]; try reflexivity.
    - destruct u as [?|[|]| |[|] ? ?];
        try (vm_compute in Hwu; discriminate);
        unfold proper in Pu; cbn [is_finite] in Pu;
        rewrite andb_false_r in Pu; discriminate.
    - destruct t as [?|[|]| |[|] ? ?];
        try (vm_compute in Hwt; discriminate);
        unfold proper in Pt; cbn [is_finite] in Pt;
        rewrite andb_false_r in Pt; discriminate.
    - vm_compute in Hwt. discriminate. }
  assert (P : proper w = true) by (unfold proper; rewrite V, F; reflexivity).
  rewrite (proper_leb_trans w t u P Pt Pu Hwt Htu) in Hwu. discriminate.
Qed.

Lemma wavelengthToRGB_red_above w :
  valid w = true -> (w <=? f0_75)%f32 = false -> wavelengthToRGB w = (f1, f0, f0).
Proof.
  unfold leb. intros V H. unfold wavelengthToRGB, leb.
  rewrite (leb_false_below w f0_25 f0_75 V eq_refl eq_refl eq_refl H).
  rewrite (leb_false_below w f0_4 f0_75 V eq_refl eq_refl eq_refl H).
  rewrite (leb_false_below w f0_55 f0_75 V eq_refl eq_refl eq_refl H).
  rewrite (leb_false_below w f0_6 f0_75 V eq_refl eq_refl eq_refl H).
  rewrite H. reflexivity.
Qed.

(** X1.  wavelengthToRGB does not validate its argument: every well-formed
    input that is not at most 0.75 - any larger number, also one above 1,
    plus infinity, and NaN - gives pure red (1, 0, 0). *)
Theorem wavelengthToRGB_beyond_range_is_red (w : float32) :
  valid w = true -> (w <=? f0_75)%f32 = false ->
  wavelengthToRGB w = (f1, f0, f0).
Proof. apply wavelengthToRGB_red_above. Qed.

Lemma wavelengthToRGB_beyond_range_is_red_witness :
  wavelengthToRGB S754_nan = (f1, f0, f0) /\
  wavelengthToRGB (S754_infinity false) = (f1, f0, f0) /\
  wavelengthToRGB f5 = (f1, f0, f0).
Proof.
  split; [|split]; apply wavelengthToRGB_beyond_range_is_red; reflexivity.
Defined.

Lemma wavelengthToRGB_channels w :
  within f0 f1 w = true ->
  within f0 one_plus_2ulp (redOf (wavelengthToRGB w)) = true /\
  within f0 f1 (greenOf (wavelengthToRGB w)) = true /\
  within f0 f1 (blueOf (wavelengthToRGB w)) = true.
Proof.
  intros W. pose proof (within_unit_proper w W) as P.
  apply within_inv in W. destruct W as (_ & _ & _ & W0 & W1).
  assert (Hup : forall c, within f0 f1 c = true -> within f0 one_plus_2ulp c = true).
  { intros c Hc. apply (within_weaken f0 f1 f0 one_plus_2ulp c Hc); reflexivity. }
  unfold wavelengthToRGB.
  destruct (w <=? f0_25)%f32 eqn:H1.
  { fold (violetToBlue w). destruct (violetToBlue_range w) as (R & G & B);
      [apply within_intro; try assumption; reflexivity | auto]. }
  destruct (leb_false_ltb f0_25 w eq_refl P H1) as [_ L1].
  destruct (w <=? f0_4)%f32 eqn:H2.
  { fold (blueToCyan w). destruct (blueToCyan_range w) as (R & G & B);
      [apply within_intro; try assumption; reflexivity | auto]. }
  destruct (leb_false_ltb f0_4 w eq_refl P H2) as [_ L2].
  destruct (w <=? f0_55)%f32 eqn:H3.
  { fold (cyanToGreen w). destruct (cyanToGreen_range w) as (R & G & B);
      [apply within_intro; try assumption; reflexivity | auto]. }
  destruct (leb_false_ltb f0_55 w eq_refl P H3) as [_ L3].
  destruct (w <=? f0_6)%f32 eqn:H4.
  { fold (greenToYellow w). destruct (greenToYellow_range w) as (R & G & B);
      [apply within_intro; try assumption; reflexivity | auto]. }
  destruct (leb_false_ltb f0_6 w eq_refl P H4) as [_ L4].
  destruct (w <=? f0_75)%f32 eqn:H5.
  { fold (yellowToRed w). destruct (yellowToRed_range w) as (R & G & B);
      [apply within_intro; try assumption; reflexivity | auto]. }
  repeat split.
Qed.

(** [glm::clamp] to [0, 1] on a number: the result is in [0, 1] *)
Lemma clamp_unit x : proper x = true -> within f0 f1 (clamp x f0 f1) = true.
Proof.
  intros P. unfold clamp, max, min, ltb.
  destruct (SFltb x f0) eqn:H0; [reflexivity|].
  pose proof (proper_not_ltb f0 x eq_refl P H0) as L0.
  destruct (SFltb f1 x) eqn:H1; [reflexivity|].
  pose proof (proper_not_ltb x f1 P eq_refl H1) as L1.
  apply within_intro; try assumption; reflexivity.
Qed.

(** ... and a number already in [0, 1] is left as it is *)
Lemma clamp_unit_id x : within f0 f1 x = true -> clamp x f0 f1 = x.
Proof.
  intros W. apply within_inv in W. destruct W as (_ & _ & P & L0 & L1).
  apply proper_leb_iff in L0, L1; try assumption; try reflexivity.
  unfold clamp, max, min, ltb.
  destruct (SFltb x f0) eqn:H0.
  { apply proper_ltb_iff in H0; try assumption; try reflexivity. lra. }
  destruct (SFltb f1 x) eqn:H1; [|reflexivity].
  apply proper_ltb_iff in H1; try assumption; try reflexivity. lra.
Qed.

Lemma shiftedColor_eq sv obs :
  shiftedColor sv obs =
  wavelengthToRGB
    (clamp (f0_5 * dopplerOfBeta (clampBeta (rawBeta sv (mkvec3 f0 f0 obs))))%f32
           f0 f1).
Proof. reflexivity. Qed.

Lemma shiftedColor_nan sv obs :
  is_nan (rawBeta sv (mkvec3 f0 f0 obs)) = true ->
  shiftedColor sv obs = (f1, f0, f0).
Proof.
  intros H. rewrite shiftedColor_eq.
  destruct (rawBeta sv (mkvec3 f0 f0 obs)); try discriminate.
  vm_compute. reflexivity.
Qed.

(** half the factor, for a beta in the clamped range *)
Lemma half_factor_within b :
  within (- pred_one)%f32 pred_one b = true ->
  within (S754_finite false 11863283 (-37)) (S754_finite false 11863283 (-12))
         (f0_5 * dopplerOfBeta b)%f32 = true.
Proof.
  intros H. unfold dopplerOfBeta.
  eapply within_weaken; [box | vm_compute; reflexivity ..].
Qed.

Lemma within_proper lo hi x : within lo hi x = true -> proper x = true.
Proof. intros H. apply within_inv in H. tauto. Qed.

(** X2.  Whatever the star velocity and the observer velocity are - also
    when the Doppler factor is NaN - the colour that generation and the
    shift updater store has green and blue in [0, 1] and red in
    [0, 1 + 2^-22]. *)
Theorem displayed_color_in_range (sv : vec3) (obs : float32) :
  within f0 one_plus_2ulp (redOf (shiftedColor sv obs)) = true /\
  within f0 f1 (greenOf (shiftedColor sv obs)) = true /\
  within f0 f1 (blueOf (shiftedColor sv obs)) = true.
Proof.
  destruct (is_nan (rawBeta sv (mkvec3 f0 f0 obs))) eqn:N.
  - rewrite (shiftedColor_nan sv obs N). repeat split.
  - rewrite shiftedColor_eq. apply wavelengthToRGB_channels. apply clamp_unit.
    eapply within_proper. apply half_factor_within.
    apply clampBeta_within; [apply rawBeta_valid|exact N].
Qed.

(** X3.  When the raw beta is NaN the factor is NaN and the star is shown
    pure red; this happens for the star velocity (0, 0, OBSERVER_POSITION_Z),
    where [normalize] divides by zero. *)
Theorem nan_beta_is_shown_red (sv : vec3) (obs : float32) :
  is_nan (rawBeta sv (mkvec3 f0 f0 obs)) = true ->
  is_nan (calculateRelativisticDopplerShift sv (mkvec3 f0 f0 obs)) = true /\
  shiftedColor sv obs = (f1, f0, f0).
Proof.
  intros H. split; [|apply shiftedColor_nan; exact H].
  rewrite calculate_decompose.
  destruct (rawBeta sv (mkvec3 f0 f0 obs)); try discriminate. reflexivity.
Qed.

Lemma nan_beta_is_shown_red_witness :
  is_nan (calculateRelativisticDopplerShift
            (mkvec3 f0 f0 OBSERVER_POSITION_Z) (mkvec3 f0 f0 f0_5)) = true /\
  shiftedColor (mkvec3 f0 f0 OBSERVER_POSITION_Z) f0_5 = (f1, f0, f0).
Proof.
  apply (nan_beta_is_shown_red (mkvec3 f0 f0 OBSERVER_POSITION_Z) f0_5).
  vm_compute. reflexivity.
Defined.

Lemma mul_nan_r x : (x * S754_nan)%f32 = S754_nan.
Proof. destruct x; reflexivity. Qed.

(** X4.  A star whose velocity vector equals the observer point
    (0, 0, OBSERVER_POSITION_Z) has a NaN line of sight, and the factor is NaN
    for every observer velocity vector. *)
Theorem star_at_observer_point_gives_nan (ov : vec3) :
  lineOfSight (mkvec3 f0 f0 OBSERVER_POSITION_Z)
    = mkvec3 S754_nan S754_nan S754_nan /\
  calculateRelativisticDopplerShift (mkvec3 f0 f0 OBSERVER_POSITION_Z) ov
    = S754_nan.
Proof.
  assert (L : lineOfSight (mkvec3 f0 f0 OBSERVER_POSITION_Z)
              = mkvec3 S754_nan S754_nan S754_nan) by (vm_compute; reflexivity).
  split; [exact L|].
  rewrite calculate_decompose. unfold rawBeta. rewrite L.
  unfold dot. cbn [vx vy vz]. rewrite !mul_nan_r. reflexivity.
Qed.

Lemma clampBeta_receding beta :
  (f0_385 <=? beta)%f32 = true -> valid beta = true ->
  within f0_385 pred_one (clampBeta beta) = true.
Proof.
  unfold leb. intros H V. rewrite clampBeta_eq.
  destruct (beta >=? f1)%f32 eqn:G; [reflexivity|].
  assert (N : is_nan beta = false) by (destruct beta; try reflexivity; discriminate).
  assert (F : is_finite beta = true).
  { destruct beta as [?|[|]| |? ? ?]; try reflexivity; discriminate. }
  assert (P : proper beta = true) by (unfold proper; rewrite V, F; reflexivity).
  pose proof (finite_pos_SF2R f0_385 eq_refl) as Hpos.
  assert (Hb : (SF2R f0_385 <= SF2R beta)%R)
    by (apply proper_leb_iff; try assumption; reflexivity).
  destruct (beta <=? - f1)%f32 eqn:L.
  { unfold leb in L. apply proper_leb_iff in L; try assumption; try reflexivity.
    unfold neg in L. rewrite SF2R_opp, SF2R_f1 in L. lra. }
  pose proof (unclamped_within beta V N G L) as W.
  apply within_inv in W. destruct W as (_ & _ & _ & _ & Hu).
  apply within_intro; try assumption; reflexivity.
Qed.

(** X5.  A star whose raw beta is at least 0.385 (receding from the
    observer at 0.385 c or more, beta >= 1 included) is shown pure red: half
    its Doppler factor is above 0.75. *)
Theorem receding_star_is_red (sv : vec3) (obs : float32) :
  (f0_385 <=? rawBeta sv (mkvec3 f0 f0 obs))%f32 = true ->
  shiftedColor sv obs = (f1, f0, f0).
Proof.
  intros H. rewrite shiftedColor_eq.
  pose proof (clampBeta_receding _ H (rawBeta_valid _ _)) as W.
  set (b := clampBeta (rawBeta sv (mkvec3 f0 f0 obs))) in *.
  assert (X : within (S754_finite false 12588594 (-24)) (S754_finite false 11863283 (-12))
                (f0_5 * dopplerOfBeta b)%f32 = true).
  { unfold dopplerOfBeta. eapply within_weaken; [box | vm_compute; reflexivity ..]. }
  set (x := (f0_5 * dopplerOfBeta b)%f32) in *.
  apply within_inv in X. destruct X as (_ & _ & P & Lx & _).
  pose proof (clamp_unit x P) as C.
  apply wavelengthToRGB_red_above.
  - apply within_proper in C. apply proper_inv in C. tauto.
  - unfold clamp, max, min, ltb, leb.
    assert (Hx : (SF2R f0_75 < SF2R x)%R).
    { apply proper_leb_iff in Lx; try assumption; try reflexivity.
      assert (SF2R f0_75 < SF2R (S754_finite false 12588594 (-24)))%R; [|lra].
      cbn [SF2R cond_Zopp f0_75]. apply val_lt_iff. lia. }
    destruct (SFltb x f0) eqn:H0.
    { apply proper_ltb_iff in H0; try assumption; try reflexivity.
      pose proof (finite_pos_SF2R f0_75 eq_refl). rewrite SF2R_f0 in H0. lra. }
    destruct (SFltb f1 x) eqn:H1; [reflexivity|].
    destruct (SFleb x f0_75) eqn:H2; [|reflexivity].
    apply proper_leb_iff in H2; try assumption; try reflexivity. lra.
Qed.

Lemma receding_star_is_red_witness :
  shiftedColor (mkvec3 f0 f0 f0) (- f0_5)%f32 = (f1, f0, f0).
Proof.
  apply (receding_star_is_red (mkvec3 f0 f0 f0) (- f0_5)%f32).
  vm_compute. reflexivity.
Defined.

Lemma clampBeta_approaching beta :
  (beta <=? - f0_6)%f32 = true -> valid beta = true ->
  within (- pred_one)%f32 (- f0_6)%f32 (clampBeta beta) = true.
Proof.
  unfold leb. intros H V. rewrite clampBeta_eq.
  assert (N : is_nan beta = false) by (destruct beta; try reflexivity; discriminate).
  destruct (beta >=? f1)%f32 eqn:G.
  { exfalso. unfold geb in G.
    assert (F : is_finite beta = true).
    { destruct beta as [?|[|]| |? ? ?]; try reflexivity; discriminate. }
    assert (P : proper beta = true) by (unfold proper; rewrite V, F; reflexivity).
    apply proper_leb_iff in H, G; try assumption; try reflexivity.
    unfold neg in H. rewrite SF2R_opp in H. rewrite SF2R_f1 in G.
    pose proof (finite_pos_SF2R f0_6 eq_refl). lra. }
  destruct (beta <=? - f1)%f32 eqn:L; [reflexivity|].
  pose proof (unclamped_within beta V N G L) as W.
  apply within_inv in W. destruct W as (_ & _ & P & Hl & _).
  apply within_intro; try assumption; reflexivity.
Qed.

(** X6.  A star whose raw beta is at most -0.6 (approaching at 0.6 c or
    more, beta <= -1 included) is shown in the violet-to-blue segment: the
    shifted wavelength w lies in (0, 0.25], the colour is
    (0.5 (w/0.25), 0, 0.5 + 0.5 (w/0.25)) and has no green. *)
Theorem approaching_star_is_violet_blue (sv : vec3) (obs : float32) :
  (rawBeta sv (mkvec3 f0 f0 obs) <=? - f0_6)%f32 = true ->
  exists w,
    w = (f0_5 * calculateRelativisticDopplerShift sv (mkvec3 f0 f0 obs))%f32 /\
    (f0 <? w)%f32 = true /\ (w <=? f0_25)%f32 = true /\
    shiftedColor sv obs = violetToBlue w /\
    greenOf (shiftedColor sv obs) = f0.
Proof.
  intros H.
  pose proof (clampBeta_approaching _ H (rawBeta_valid _ _)) as W.
  rewrite shiftedColor_eq, calculate_decompose.
  set (b := clampBeta (rawBeta sv (mkvec3 f0 f0 obs))) in *.
  assert (X : within (S754_finite false 11863283 (-37)) f0_25
                (f0_5 * dopplerOfBeta b)%f32 = true).
  { unfold dopplerOfBeta. eapply within_weaken; [box | vm_compute; reflexivity ..]. }
  set (x := (f0_5 * dopplerOfBeta b)%f32) in *.
  assert (U : within f0 f1 x = true)
    by (apply (within_weaken _ _ f0 f1 x X); reflexivity).
  rewrite (clamp_unit_id x U).
  apply within_inv in X. destruct X as (_ & _ & P & Lx & Ux).
  assert (Hpos : (f0 <? x)%f32 = true).
  { unfold ltb. apply proper_ltb_iff; try assumption; try reflexivity.
    apply proper_leb_iff in Lx; try assumption; try reflexivity.
    pose proof (finite_pos_SF2R (S754_finite false 11863283 (-37)) eq_refl).
    rewrite SF2R_f0. lra. }
  exists x. split; [reflexivity|]. split; [exact Hpos|]. split; [exact Ux|].
  unfold wavelengthToRGB. unfold leb in *. rewrite Ux. split; reflexivity.
Qed.

Lemma approaching_star_is_violet_blue_witness :
  exists w,
    w = (f0_5 * calculateRelativisticDopplerShift
                  (mkvec3 f0 f0 f0) (mkvec3 f0 f0 f0_75))%f32 /\
    (f0 <? w)%f32 = true /\ (w <=? f0_25)%f32 = true /\
    shiftedColor (mkvec3 f0 f0 f0) f0_75 = violetToBlue w /\
    greenOf (shiftedColor (mkvec3 f0 f0 f0) f0_75) = f0.
Proof.
  apply (approaching_star_is_violet_blue (mkvec3 f0 f0 f0) f0_75).
  vm_compute. reflexivity.
Defined.

(** X7.  A star with raw beta zero (of either sign) is not shifted: its
    factor is exactly 1 and it is shown in the base colour
    wavelengthToRGB(0.5) = (0, 1, 0.3333334), the value of its [color]
    field. *)
Theorem unshifted_star_shows_base_color (sv : vec3) (obs : float32) (s : bool) :
  rawBeta sv (mkvec3 f0 f0 obs) = S754_zero s ->
  calculateRelativisticDopplerShift sv (mkvec3 f0 f0 obs) = f1 /\
  shiftedColor sv obs = wavelengthToRGB f0_5 /\
  wavelengthToRGB f0_5 = baseColor.
Proof.
  intros H. rewrite shiftedColor_eq, calculate_decompose, H.
  destruct s; repeat split; vm_compute; reflexivity.
Qed.

Lemma unshifted_star_shows_base_color_witness :
  calculateRelativisticDopplerShift (mkvec3 f0 f0 f0) (mkvec3 f0 f0 f0) = f1 /\
  shiftedColor (mkvec3 f0 f0 f0) f0 = wavelengthToRGB f0_5 /\
  wavelengthToRGB f0_5 = baseColor.
Proof.
  apply (unshifted_star_shows_base_color (mkvec3 f0 f0 f0) f0 false).
  vm_compute. reflexivity.
Defined.

(** ** Keplerian speeds, the view angle, the velocity steps *)

(** X8.  Over the radii the generator draws, [0.1, GALAXY_RADIUS], the
    Keplerian speed falls as the radius grows, lies between its values at
    the two ends (0.4983 and 4.3301), and at the inner end exceeds 1: the
    innermost stars are given speeds above the speed of light. *)
Theorem keplerianSpeed_falls_with_radius (r1 r2 : float32) :
  within f0_1 GALAXY_RADIUS r1 = true -> within f0_1 GALAXY_RADIUS r2 = true ->
  (r1 <=? r2)%f32 = true ->
  (keplerianSpeed r2 <=? keplerianSpeed r1)%f32 = true /\
  within (keplerianSpeed GALAXY_RADIUS) (keplerianSpeed f0_1) (keplerianSpeed r1) = true /\
  (f1 <? keplerianSpeed f0_1)%f32 = true.
Proof.
  intros W1 W2 H12. unfold leb in H12.
  assert (A1 : within (f0_1 + f0_1)%f32 (GALAXY_RADIUS + f0_1)%f32 (r1 + f0_1)%f32 = true) by box.
  assert (A2 : within (f0_1 + f0_1)%f32 (GALAXY_RADIUS + f0_1)%f32 (r2 + f0_1)%f32 = true) by box.
  assert (Q1 : within (GALAXY_RADIUS / (GALAXY_RADIUS + f0_1))%f32
                      (GALAXY_RADIUS / (f0_1 + f0_1))%f32
                      (GALAXY_RADIUS / (r1 + f0_1))%f32 = true) by box.
  assert (Q2 : within (GALAXY_RADIUS / (GALAXY_RADIUS + f0_1))%f32
                      (GALAXY_RADIUS / (f0_1 + f0_1))%f32
                      (GALAXY_RADIUS / (r2 + f0_1))%f32 = true) by box.
  assert (S1 : within (sqrt (GALAXY_RADIUS / (GALAXY_RADIUS + f0_1)))%f32
                      (sqrt (GALAXY_RADIUS / (f0_1 + f0_1)))%f32
                      (sqrt (GALAXY_RADIUS / (r1 + f0_1)))%f32 = true) by box.
  assert (S2 : within (sqrt (GALAXY_RADIUS / (GALAXY_RADIUS + f0_1)))%f32
                      (sqrt (GALAXY_RADIUS / (f0_1 + f0_1)))%f32
                      (sqrt (GALAXY_RADIUS / (r2 + f0_1)))%f32 = true) by box.
  split; [|split].
  - unfold leb, keplerianSpeed.
    pose proof (within_inv _ _ _ W1) as (_ & _ & P1 & _ & _).
    pose proof (within_inv _ _ _ W2) as (_ & _ & P2 & _ & _).
    pose proof (within_inv _ _ _ A1) as (_ & _ & PA1 & LA1 & _).
    pose proof (within_inv _ _ _ A2) as (_ & _ & PA2 & _ & _).
    pose proof (within_inv _ _ _ Q1) as (_ & _ & PQ1 & _ & _).
    pose proof (within_inv _ _ _ Q2) as (_ & _ & PQ2 & LQ2 & _).
    pose proof (within_inv _ _ _ S1) as (_ & _ & PS1 & _ & _).
    pose proof (within_inv _ _ _ S2) as (_ & _ & PS2 & LS2 & _).
    apply mul_mono; try assumption; try reflexivity.
    + apply (proper_leb_trans f0 (sqrt (GALAXY_RADIUS / (GALAXY_RADIUS + f0_1)))%f32);
        try assumption; reflexivity.
    + apply sqrt_mono; try assumption.
      * apply (proper_leb_trans f0 (GALAXY_RADIUS / (GALAXY_RADIUS + f0_1))%f32);
          try assumption; reflexivity.
      * apply div_mono; try assumption; try reflexivity.
        -- apply (within_finite_pos (f0_1 + f0_1)%f32 (GALAXY_RADIUS + f0_1)%f32);
             [exact A1|reflexivity].
        -- apply add_mono; try assumption; reflexivity.
  - unfold keplerianSpeed. eapply within_weaken; [box | vm_compute; reflexivity ..].
  - vm_compute. reflexivity.
Qed.

Lemma keplerianSpeed_falls_with_radius_witness :
  (keplerianSpeed f5 <=? keplerianSpeed f1)%f32 = true.
Proof.
  apply (keplerianSpeed_falls_with_radius f1 f5); vm_compute; reflexivity.
Defined.

Lemma idleAngle_bounded a :
  within (- viewAngleBound)%f32 viewAngleBound a = true ->
  within (- viewAngleBound)%f32 viewAngleBound (idleAngle a) = true.
Proof.
  intros H. unfold idleAngle. cbv zeta.
  assert (W : within (- viewAngleBound)%f32 viewAngleBound (a + f0_1)%f32 = true)
    by (eapply within_weaken; [box | vm_compute; reflexivity ..]).
  destruct (a + f0_1 >? f360)%f32 eqn:G; [|exact W].
  unfold gtb in G.
  assert (W' : within f360 viewAngleBound (a + f0_1)%f32 = true).
  { apply within_inv in W. destruct W as (P1 & P2 & P & L1 & L2).
    apply within_intro; try assumption; try reflexivity.
    apply proper_ltb_iff in G; try assumption; try reflexivity.
    apply proper_leb_iff; try assumption; try reflexivity. lra. }
  clear W. eapply within_weaken; [box | vm_compute; reflexivity ..].
Qed.

Lemma step_viewAngle_bounded ev st st' :
  within (- viewAngleBound)%f32 viewAngleBound (viewAngle st) = true ->
  step ev st = Some st' ->
  within (- viewAngleBound)%f32 viewAngleBound (viewAngle st') = true.
Proof.
  intros Hi Hs. destruct ev as [key|w h| |]; cbn [step] in Hs.
  - apply keyboard_cases in Hs.
    destruct Hs as [->|[->|[->|[->|[->|[->|[->| ->]]]]]]];
      cbn [viewAngle updateDopplerShifts set_observerVelocity
           set_viewAngle set_show]; try assumption; try reflexivity.
    + eapply within_weaken; [box | vm_compute; reflexivity ..].
    + eapply within_weaken; [box | vm_compute; reflexivity ..].
  - inversion Hs. subst. exact Hi.
  - inversion Hs. subst. cbn [idle viewAngle set_viewAngle].
    apply idleAngle_bounded. exact Hi.
  - inversion Hs. subst. exact Hi.
Qed.

(** X9.  In every state the program reaches, viewAngle is a number (never
    NaN or infinite) of magnitude at most 2^27 = 134217728: the rotation keys
    never wrap it, but from 2^27 on adding 5 or 0.1 rounds back to the same
    float. *)
Theorem viewAngle_bounded sin cos draw (st : State) :
  reachable sin cos draw st ->
  within (- viewAngleBound)%f32 viewAngleBound (viewAngle st) = true /\
  (viewAngleBound + f5)%f32 = viewAngleBound /\
  (viewAngleBound + f0_1)%f32 = viewAngleBound /\
  (- viewAngleBound - f5)%f32 = (- viewAngleBound)%f32.
Proof.
  intros [evs Hr]. split; [|repeat split].
  apply (run_invariant
           (fun s => within (- viewAngleBound)%f32 viewAngleBound (viewAngle s) = true)
           step_viewAngle_bounded evs (start sin cos draw) st);
    [reflexivity | exact Hr].
Qed.

Lemma viewAngle_bounded_witness :
  within (- viewAngleBound)%f32 viewAngleBound
    (viewAngle (start (fun _ => f0) (fun _ => f0) (fun _ => (f0, f0, f0)))) = true.
Proof.
  apply (viewAngle_bounded (fun _ => f0) (fun _ => f0) (fun _ => (f0, f0, f0))).
  exists []. reflexivity.
Defined.

Lemma SF2R_f0_01_pos : (0 < SF2R f0_01)%R.
Proof. apply finite_pos_SF2R. reflexivity. Qed.

(** X10.  On [-0.9, 0.9] the velocity-increase step never lowers
    observerVelocity and the velocity-decrease step never raises it, and
    both keep the order of two velocities. *)
Theorem velocity_steps_monotone (v v' : float32) :
  within (- f0_9)%f32 f0_9 v = true -> within (- f0_9)%f32 f0_9 v' = true ->
  (v <=? v')%f32 = true ->
  (v <=? increaseVelocity v)%f32 = true /\
  (decreaseVelocity v <=? v)%f32 = true /\
  (increaseVelocity v <=? increaseVelocity v')%f32 = true /\
  (decreaseVelocity v <=? decreaseVelocity v')%f32 = true.
Proof.
  unfold leb. intros W W' H.
  pose proof SF2R_f0_01_pos as Hc.
  assert (A : within (- f0_9 + f0_01)%f32 (f0_9 + f0_01)%f32 (v + f0_01)%f32 = true) by box.
  assert (A' : within (- f0_9 + f0_01)%f32 (f0_9 + f0_01)%f32 (v' + f0_01)%f32 = true) by box.
  assert (S : within (- f0_9 - f0_01)%f32 (f0_9 - f0_01)%f32 (v - f0_01)%f32 = true) by box.
  assert (S' : within (- f0_9 - f0_01)%f32 (f0_9 - f0_01)%f32 (v' - f0_01)%f32 = true) by box.
  pose proof (within_inv _ _ _ W) as (_ & _ & P & L & U).
  pose proof (within_inv _ _ _ W') as (_ & _ & P' & L' & U').
  pose proof (within_inv _ _ _ A) as (_ & _ & PA & _ & _).
  pose proof (within_inv _ _ _ A') as (_ & _ & PA' & _ & _).
  pose proof (within_inv _ _ _ S) as (_ & _ & PS & _ & _).
  pose proof (within_inv _ _ _ S') as (_ & _ & PS' & _ & _).
  assert (Hinc : SFleb v (v + f0_01)%f32 = true).
  { pose proof (proper_inv _ P) as [Vv Fv].
    apply (rounds_to_ge (SF2R v + SF2R f0_01) _ v); try assumption.
    - apply add_rounds; try assumption; reflexivity.
    - lra. }
  assert (Hdec : SFleb (v - f0_01)%f32 v = true).
  { pose proof (proper_inv _ P) as [Vv Fv].
    apply (rounds_to_le (SF2R v - SF2R f0_01) _ v); try assumption.
    - apply sub_rounds; try assumption; reflexivity.
    - lra. }
  assert (Madd : SFleb (v + f0_01)%f32 (v' + f0_01)%f32 = true)
    by (apply add_mono; try assumption; reflexivity).
  assert (Msub : SFleb (v - f0_01)%f32 (v' - f0_01)%f32 = true)
    by (apply sub_mono; try assumption; reflexivity).
  assert (P9 : proper f0_9 = true) by reflexivity.
  assert (Pm9 : proper (- f0_9)%f32 = true) by reflexivity.
  unfold increaseVelocity, decreaseVelocity, gtb, ltb. cbv zeta.
  repeat split.
  - destruct (SFltb f0_9 (v + f0_01)%f32); assumption.
  - destruct (SFltb (v - f0_01)%f32 (- f0_9)%f32); assumption.
  - destruct (SFltb f0_9 (v + f0_01)%f32) eqn:G1,
             (SFltb f0_9 (v' + f0_01)%f32) eqn:G2; try assumption; try reflexivity.
    + apply proper_ltb_iff in G1; try assumption.
      pose proof (proper_not_ltb _ _ PA' P9 G2) as G2'.
      apply proper_leb_iff in G2', Madd; try assumption. lra.
    + apply proper_not_ltb; assumption.
  - destruct (SFltb (v - f0_01)%f32 (- f0_9)%f32) eqn:G1,
             (SFltb (v' - f0_01)%f32 (- f0_9)%f32) eqn:G2; try assumption; try reflexivity.
    + apply proper_not_ltb; assumption.
    + apply proper_ltb_iff in G2; try assumption.
      pose proof (proper_not_ltb _ _ Pm9 PS G1) as G1'.
      apply proper_leb_iff in G1', Msub; try assumption. lra.
Qed.

Lemma velocity_steps_monotone_witness :
  (f0 <=? increaseVelocity f0)%f32 = true.
Proof.
  apply (velocity_steps_monotone f0 f0_5); vm_compute; reflexivity.
Defined.

(** ** Populations, reset, unbound keys, toggles *)

Lemma updateStar_fix obs s : colorDerived obs s -> updateStar obs s = s.
Proof.
  destruct s as [p v c d]. unfold colorDerived, updateStar.
  cbn [dopplerShiftedColor velocity position color]. intros ->. reflexivity.
Qed.

Lemma updateStar_absorb obs obs' s :
  updateStar obs' (updateStar obs s) = updateStar obs' s.
Proof. reflexivity. Qed.

Lemma map_updateStar_absorb obs obs' l :
  map (updateStar obs') (map (updateStar obs) l) = map (updateStar obs') l.
Proof. rewrite map_map. apply map_ext. intros s. apply updateStar_absorb. Qed.

Lemma map_updateStar_fix obs l :
  Forall (colorDerived obs) l -> map (updateStar obs) l = l.
Proof.
  induction 1 as [|s l Hs _ IH]; [reflexivity|].
  cbn [map]. rewrite IH, (updateStar_fix obs s Hs). reflexivity.
Qed.

Lemma start_observerVelocity sin cos draw : observerVelocity (start sin cos draw) = f0.
Proof. reflexivity. Qed.

Lemma start_refreshed sin cos draw :
  map (updateStar f0) (keplerianStars (start sin cos draw))
    = keplerianStars (start sin cos draw) /\
  map (updateStar f0) (flatRotationStars (start sin cos draw))
    = flatRotationStars (start sin cos draw).
Proof.
  pose proof (initializeStarsN_derived sin cos draw (Z.to_nat NUM_STARS) initial_state)
    as [Hk Hf].
  unfold start, initializeStars.
  split; [exact (map_updateStar_fix _ _ Hk) | exact (map_updateStar_fix _ _ Hf)].
Qed.

Lemma step_keeps_refreshed (K F : list Star) ev st st' :
  keplerianStars st = map (updateStar (observerVelocity st)) K /\
  flatRotationStars st = map (updateStar (observerVelocity st)) F ->
  step ev st = Some st' ->
  keplerianStars st' = map (updateStar (observerVelocity st')) K /\
  flatRotationStars st' = map (updateStar (observerVelocity st')) F.
Proof.
  intros [Hk Hf] Hs. destruct ev as [key|w h| |]; cbn [step] in Hs.
  - apply keyboard_cases in Hs.
    destruct Hs as [->|[->|[->|[->|[->|[->|[->| ->]]]]]]];
      cbn [keplerianStars flatRotationStars observerVelocity updateDopplerShifts
           set_observerVelocity set_viewAngle set_show];
      try (split; assumption);
      rewrite Hk, Hf, !map_updateStar_absorb; split; reflexivity.
  - inversion Hs. subst. split; assumption.
  - inversion Hs. subst. split; assumption.
  - inversion Hs. subst. split; assumption.
Qed.

Lemma reachable_refreshed sin cos draw st :
  reachable sin cos draw st ->
  keplerianStars st
    = map (updateStar (observerVelocity st)) (keplerianStars (start sin cos draw)) /\
  flatRotationStars st
    = map (updateStar (observerVelocity st)) (flatRotationStars (start sin cos draw)).
Proof.
  intros [evs Hr].
  apply (run_invariant
           (fun s =>
              keplerianStars s
                = map (updateStar (observerVelocity s)) (keplerianStars (start sin cos draw)) /\
              flatRotationStars s
                = map (updateStar (observerVelocity s)) (flatRotationStars (start sin cos draw)))
           (step_keeps_refreshed _ _) evs (start sin cos draw) st); [|exact Hr].
  rewrite start_observerVelocity.
  destruct (start_refreshed sin cos draw) as [-> ->]. split; reflexivity.
Qed.

Lemma start_lengths sin cos draw :
  length (keplerianStars (start sin cos draw)) = Z.to_nat NUM_STARS /\
  length (flatRotationStars (start sin cos draw)) = Z.to_nat NUM_STARS.
Proof.
  unfold start, initializeStars, initializeStarsN.
  cbn [keplerianStars flatRotationStars].
  rewrite !length_map, length_seq. split; reflexivity.
Qed.

(** X11.  In every state the program reaches, each population is exactly
    the generated population with the colours refreshed for the current
    observerVelocity: the same NUM_STARS stars in the same order, nothing
    added, dropped or reordered, the [color] field untouched. *)
Theorem populations_are_refreshed_generation sin cos draw (st : State) :
  reachable sin cos draw st ->
  keplerianStars st
    = map (updateStar (observerVelocity st)) (keplerianStars (start sin cos draw)) /\
  flatRotationStars st
    = map (updateStar (observerVelocity st)) (flatRotationStars (start sin cos draw)) /\
  Z.of_nat (length (keplerianStars st)) = NUM_STARS /\
  Z.of_nat (length (flatRotationStars st)) = NUM_STARS /\
  map color (keplerianStars st) = map color (keplerianStars (start sin cos draw)) /\
  map color (flatRotationStars st) = map color (flatRotationStars (start sin cos draw)).
Proof.
  intros Hr. destruct (reachable_refreshed sin cos draw st Hr) as [Hk Hf].
  destruct (start_lengths sin cos draw) as [Lk Lf].
  split; [exact Hk|]. split; [exact Hf|].
  rewrite Hk, Hf, !length_map, Lk, Lf, !map_map.
  repeat split; unfold NUM_STARS; lia.
Qed.

Lemma populations_are_refreshed_generation_witness :
  Z.of_nat (length (keplerianStars
     (start (fun _ => f0) (fun _ => f0) (fun _ => (f0, f0, f0))))) = NUM_STARS.
Proof.
  apply (populations_are_refreshed_generation
           (fun _ => f0) (fun _ => f0) (fun _ => (f0, f0, f0))).
  exists []. reflexivity.
Defined.

(** X12.  Reset undoes everything but the window size: from any reachable
    state the 'r' key leads to the state the program started in, with the
    current window width and height. *)
Theorem reset_returns_to_start sin cos draw (st : State) :
  reachable sin cos draw st ->
  keyboard "r" st
    = Some (reshape (windowWidth st) (windowHeight st) (start sin cos draw)) /\
  keyboard "R" st = keyboard "r" st.
Proof.
  intros Hr. destruct (reachable_refreshed sin cos draw st Hr) as [Hk Hf].
  destruct (start_refreshed sin cos draw) as [Sk Sf].
  split; [|reflexivity].
  change (keyboard "r" st) with
    (Some (updateDopplerShifts
             (set_observerVelocity f0 (set_show true true (set_viewAngle f0 st))))).
  f_equal. unfold updateDopplerShifts, reshape.
  cbn [windowWidth windowHeight showKeplerian showFlatRotation viewAngle
       observerVelocity keplerianStars flatRotationStars
       set_observerVelocity set_show set_viewAngle].
  rewrite Hk, Hf, !map_updateStar_absorb, Sk, Sf.
  reflexivity.
Qed.

Lemma reset_returns_to_start_witness :
  keyboard "r" (start (fun _ => f0) (fun _ => f0) (fun _ => (f0, f0, f0)))
  = Some (reshape
            (windowWidth (start (fun _ => f0) (fun _ => f0) (fun _ => (f0, f0, f0))))
            (windowHeight (start (fun _ => f0) (fun _ => f0) (fun _ => (f0, f0, f0))))
            (start (fun _ => f0) (fun _ => f0) (fun _ => (f0, f0, f0)))).
Proof.
  refine (proj1 (reset_returns_to_start
                   (fun _ => f0) (fun _ => f0) (fun _ => (f0, f0, f0))
                   (start (fun _ => f0) (fun _ => f0) (fun _ => (f0, f0, f0))) _)).
  exists []. reflexivity.
Defined.

Lemma wavelengthToRGB_base : wavelengthToRGB f0_5 = baseColor.
Proof. vm_compute. reflexivity. Qed.

Lemma initializeStars_body_color sin cos obs d :
  color (fst (initializeStars_body sin cos obs d)) = mkvec3 f0 f1 (snd baseColor) /\
  color (snd (initializeStars_body sin cos obs d)) = mkvec3 f0 f1 (snd baseColor).
Proof.
  destruct d as [[angle radius] height]. unfold initializeStars_body. cbv zeta.
  rewrite wavelengthToRGB_base. split; reflexivity.
Qed.

(** X13.  initializeStars replaces both populations wholesale: whatever
    they held before, each then holds exactly NUM_STARS stars (none when the
    count is zero), every one with the base colour (0, 1, 0.3333334) in its
    [color] field, and the result depends on the previous state only through
    observerVelocity and the display settings. *)
Theorem initializeStars_replaces_populations sin cos draw (st : State) (K F : list Star) :
  let st' := mkState (windowWidth st) (windowHeight st) (showKeplerian st)
                     (showFlatRotation st) (viewAngle st) (observerVelocity st) K F in
  initializeStars sin cos draw st' = initializeStars sin cos draw st /\
  Z.of_nat (length (keplerianStars (initializeStars sin cos draw st))) = NUM_STARS /\
  Z.of_nat (length (flatRotationStars (initializeStars sin cos draw st))) = NUM_STARS /\
  Forall (fun s => color s = mkvec3 f0 f1 (snd baseColor))
         (keplerianStars (initializeStars sin cos draw st)
          ++ flatRotationStars (initializeStars sin cos draw st)) /\
  keplerianStars (initializeStarsN sin cos draw 0 st) = [] /\
  flatRotationStars (initializeStarsN sin cos draw 0 st) = [].
Proof.
  cbv zeta. split; [reflexivity|].
  unfold initializeStars, initializeStarsN. cbn [keplerianStars flatRotationStars].
  rewrite !length_map, length_seq.
  split; [unfold NUM_STARS; lia|]. split; [unfold NUM_STARS; lia|].
  split; [|split; reflexivity].
  apply Forall_app. split; apply Forall_forall; intros s Hs;
    apply in_map_iff in Hs; destruct Hs as (p & <- & Hp);
    apply in_map_iff in Hp; destruct Hp as (i & <- & _);
    apply initializeStars_body_color.
Qed.

Lemma eqb_false_of_existsb key l :
  existsb (Ascii.eqb key) l = false -> forall k, In k l -> (key =? k)%char = false.
Proof.
  induction l as [|a l IH]; intros H k Hk; [destruct Hk|].
  cbn [existsb] in H. apply orb_false_elim in H. destruct H as [Ha Hl].
  destruct Hk as [<-|Hk]; [exact Ha|]. apply IH; assumption.
Qed.

(** X14.  A key [keyboard] has no case for changes nothing: the state after
    it is the state before it.  The ESC key ends the run, whatever events
    follow. *)
Theorem unbound_key_is_ignored (key : ascii) (st : State) (evs : list event) :
  existsb (Ascii.eqb key) boundKeys = false ->
  keyboard key st = Some st /\
  run (EvKey key :: evs) st = run evs st /\
  run (EvKey "027" :: evs) st = None.
Proof.
  intros H. pose proof (eqb_false_of_existsb key boundKeys H) as E.
  assert (Hk : keyboard key st = Some st).
  { unfold keyboard.
    rewrite !E by (unfold boundKeys; cbn [In]; tauto). reflexivity. }
  split; [exact Hk|]. split; [|reflexivity].
  cbn [run step]. rewrite Hk. reflexivity.
Qed.

Lemma unbound_key_is_ignored_witness :
  keyboard "x" initial_state = Some initial_state.
Proof.
  apply (unbound_key_is_ignored "x" initial_state []). vm_compute. reflexivity.
Defined.

(** X15.  The two visibility toggles are involutions that commute: pressing
    'k' (or 'f') twice restores the state exactly, 'k' then 'f' gives the
    same state as 'f' then 'k', and a toggle touches nothing but its own
    flag - no star, colour, velocity or angle. *)
Theorem toggles_are_involutions (st : State) :
  run [EvKey "k"; EvKey "k"] st = Some st /\
  run [EvKey "f"; EvKey "f"] st = Some st /\
  run [EvKey "k"; EvKey "f"] st = run [EvKey "f"; EvKey "k"] st /\
  keyboard "k" st =
    Some (mkState (windowWidth st) (windowHeight st) (negb (showKeplerian st))
                  (showFlatRotation st) (viewAngle st) (observerVelocity st)
                  (keplerianStars st) (flatRotationStars st)) /\
  keyboard "f" st =
    Some (mkState (windowWidth st) (windowHeight st) (showKeplerian st)
                  (negb (showFlatRotation st)) (viewAngle st) (observerVelocity st)
                  (keplerianStars st) (flatRotationStars st)) /\
  keyboard "K" st = keyboard "k" st /\ keyboard "F" st = keyboard "f" st.
Proof.
  destruct st as [w h k f a v K F].
  destruct k, f; repeat split.
Qed.

(** ** What display draws *)

Lemma drawnPoints_app cur l1 l2 :
  drawnPoints cur (l1 ++ l2)
  = drawnPoints cur l1 ++ drawnPoints (currentColor cur l1) l2.
Proof.
  revert cur. induction l1 as [|c l1 IH]; intros cur; [reflexivity|].
  destruct c; cbn [app drawnPoints currentColor]; rewrite IH; reflexivity.
Qed.

Lemma drawnPoints_drawString cur font s : drawnPoints cur (drawString font s) = [].
Proof. induction s as [|a s IH]; [reflexivity|exact IH]. Qed.

Lemma drawnPoints_drawStars cur stars :
  drawnPoints cur (drawStars stars) = map shown stars.
Proof.
  unfold drawStars. cbn [app drawnPoints]. revert cur.
  induction stars as [|s stars IH]; intros cur; [reflexivity|].
  cbn [flat_map app drawnPoints map]. rewrite IH. reflexivity.
Qed.

Lemma drawnPoints_half cur x st stars label :
  drawnPoints cur (setupHalf x st ++ drawStars stars ++ drawLabel label)
  = map shown stars.
Proof.
  rewrite !drawnPoints_app, drawnPoints_drawStars.
  unfold drawLabel. rewrite drawnPoints_app, drawnPoints_drawString.
  cbn [setupHalf drawnPoints app]. rewrite app_nil_r. reflexivity.
Qed.

Lemma display_draws_visible_stars_aux velocityInfo (st : State) (white : rgb) :
  drawnPoints white (display velocityInfo st)
  = (if showKeplerian st then map shown (keplerianStars st) else [])
    ++ (if showFlatRotation st then map shown (flatRotationStars st) else []).
Proof.
  unfold display. rewrite !drawnPoints_app, !drawnPoints_drawString.
  cbn [drawnPoints app]. rewrite !app_nil_r.
  destruct (showKeplerian st), (showFlatRotation st);
    rewrite ?drawnPoints_half; reflexivity.
Qed.

(** X16.  display draws every star of a visible population exactly once, in
    the population's order, at its position and in its Doppler-shifted
    colour - Keplerian first, flat rotation second - and draws no point of
    a hidden population. *)
Theorem display_draws_visible_stars velocityInfo (st : State) (white : rgb) :
  drawnPoints white (display velocityInfo st)
  = (if showKeplerian st then map shown (keplerianStars st) else [])
    ++ (if showFlatRotation st then map shown (flatRotationStars st) else []).
Proof. apply display_draws_visible_stars_aux. Qed.

Lemma scene_app l1 l2 : scene (l1 ++ l2) = scene l1 ++ scene l2.
Proof. apply filter_app. Qed.

Lemma scene_drawString font s : scene (drawString font s) = [].
Proof. induction s as [|a s IH]; [reflexivity|exact IH]. Qed.

Lemma scene_display_viewAngle vi vi' a st :
  scene (display vi (set_viewAngle a st)) = scene (display vi' st).
Proof.
  unfold display. rewrite !scene_app, !scene_drawString.
  cbn [set_viewAngle showKeplerian showFlatRotation windowWidth windowHeight
       keplerianStars flatRotationStars observerVelocity viewAngle].
  destruct (showKeplerian st), (showFlatRotation st); reflexivity.
Qed.

(** X17.  The view angle reaches the renderer only through the status line.
    After a rotation key or an idle tick display issues the same viewport,
    projection, camera, colour and vertex calls as before: the scene is not
    rotated (both glRotatef calls are commented out). *)
Theorem rotation_does_not_change_the_scene velocityInfo (st st' : State) :
  keyboard "a" st = Some st' \/ keyboard "d" st = Some st' \/ idle st = st' ->
  scene (display velocityInfo st') = scene (display velocityInfo st) /\
  drawnPoints (f1, f1, f1) (display velocityInfo st')
    = drawnPoints (f1, f1, f1) (display velocityInfo st).
Proof.
  intros H.
  assert (E : exists a, st' = set_viewAngle a st).
  { destruct H as [H|[H|H]].
    - inversion H. eexists. reflexivity.
    - inversion H. eexists. reflexivity.
    - subst st'. eexists. reflexivity. }
  destruct E as [a ->]. split; [apply scene_display_viewAngle|].
  rewrite !display_draws_visible_stars_aux. reflexivity.
Qed.

Lemma rotation_does_not_change_the_scene_witness :
  scene (display (fun _ _ => ["0"%char]) (idle initial_state))
    = scene (display (fun _ _ => ["0"%char]) initial_state) /\
  drawnPoints (f1, f1, f1) (display (fun _ _ => ["0"%char]) (idle initial_state))
    = drawnPoints (f1, f1, f1) (display (fun _ _ => ["0"%char]) initial_state).
Proof.
  apply (rotation_does_not_change_the_scene
           (fun _ _ => ["0"%char]) initial_state (idle initial_state)).
  right. right. reflexivity.
Defined.

(** an [int] from 1 to 2^31 converts to a positive finite float *)
Lemma of_Z_finite_pos n : 1 <= n <= 2 ^ 31 -> is_finite_pos (of_Z n) = true.
Proof.
  intros Hn. unfold of_Z.
  pose proof (binary_normalize_rounds n 0) as Hr.
  assert (W : within f1 (S754_finite false 8388608 8)
                (binary_normalize prec emax n 0 false) = true).
  { apply (rounds_to_within (val n 0)); try assumption; try reflexivity.
    rewrite SF2R_f1. change (SF2R (S754_finite false 8388608 8)) with (val (2 ^ 23) 8).
    rewrite val_pow by lia. unfold val. rewrite bpow_0, Rmult_1_r.
    rewrite (bpow_IZR (23 + 8)) by lia. split; apply IZR_le; simpl; lia. }
  apply (within_finite_pos _ _ _ W). reflexivity.
Qed.

(** X18.  display divides by the window height without a guard.  After a
    reshape to height 0 the aspect ratio handed to gluPerspective is plus
    infinity when the width is at least 2, and NaN (0/0) when the width is 0
    or 1. *)
Theorem aspect_ratio_at_zero_height velocityInfo (st : State) :
  windowHeight st = 0 -> 0 <= windowWidth st < 2 ^ 31 ->
  aspectRatio st
    = (if windowWidth st <? 2 then S754_nan else S754_infinity false) /\
  (showKeplerian st = true ->
   In (gluPerspective (of_Z 45) (aspectRatio st) f0_1 (of_Z 100))
      (display velocityInfo st)).
Proof.
  intros Hh Hw. split.
  - unfold aspectRatio. rewrite Hh.
    destruct (Z.ltb_spec (windowWidth st) 2) as [Hlt|Hge].
    + assert (Z.quot (windowWidth st) 2 = 0) as -> by (apply Z.quot_small; lia).
      reflexivity.
    + assert (Hq : 1 <= Z.quot (windowWidth st) 2 <= 2 ^ 31).
      { split.
        - apply Z.quot_le_lower_bound; lia.
        - apply Z.le_trans with (windowWidth st); [|lia].
          apply Z.quot_le_upper_bound; lia. }
      destruct (finite_pos_inv _ (of_Z_finite_pos _ Hq)) as (m & e & ->).
      reflexivity.
  - intros Hk. unfold display. rewrite Hk.
    apply in_or_app. right. apply in_or_app. left.
    apply in_or_app. left. unfold setupHalf, aspectRatio. cbn [In]. tauto.
Qed.

Lemma aspect_ratio_at_zero_height_witness :
  aspectRatio (reshape 800 0 initial_state)
    = (if windowWidth (reshape 800 0 initial_state) <? 2
       then S754_nan else S754_infinity false).
Proof.
  apply (aspect_ratio_at_zero_height (fun _ _ => []) (reshape 800 0 initial_state)).
  - reflexivity.
  - cbn [windowWidth reshape]. lia.
Defined.

(** ** The direction of the shift *)

Lemma leb_not_nan a b : SFleb a b = true -> is_nan a = false /\ is_nan b = false.
Proof.
  destruct a as [?|?| |? ? ?], b as [?|?| |? ? ?]; try discriminate; auto.
Qed.

Lemma clampBeta_nonneg beta :
  valid beta = true -> SFleb f0 beta = true ->
  within f0 pred_one (clampBeta beta) = true.
Proof.
  intros V H. rewrite clampBeta_eq.
  destruct (beta >=? f1)%f32 eqn:G; [reflexivity|].
  destruct (leb_not_nan _ _ H) as [_ N].
  assert (F : is_finite beta = true).
  { destruct beta as [?|[|]| |? ? ?]; try reflexivity; discriminate. }
  assert (P : proper beta = true) by (unfold proper; rewrite V, F; reflexivity).
  destruct (beta <=? - f1)%f32 eqn:L.
  { unfold leb in L. apply proper_leb_iff in L, H; try assumption; try reflexivity.
    unfold neg in L. rewrite SF2R_opp, SF2R_f1 in L. rewrite SF2R_f0 in H. lra. }
  pose proof (unclamped_within beta V N G L) as W.
  apply within_inv in W. destruct W as (_ & _ & _ & _ & Hu).
  apply within_intro; try assumption; reflexivity.
Qed.

Lemma clampBeta_nonpos beta :
  valid beta = true -> SFleb beta f0 = true ->
  within (- pred_one)%f32 f0 (clampBeta beta) = true.
Proof.
  intros V H. rewrite clampBeta_eq.
  destruct (leb_not_nan _ _ H) as [N _].
  destruct (beta >=? f1)%f32 eqn:G.
  { exfalso. unfold geb in G.
    assert (F : is_finite beta = true).
    { destruct beta as [?|[|]| |? ? ?]; try reflexivity; discriminate. }
    assert (P : proper beta = true) by (unfold proper; rewrite V, F; reflexivity).
    apply proper_leb_iff in H, G; try assumption; try reflexivity.
    rewrite SF2R_f1 in G. rewrite SF2R_f0 in H. lra. }
  destruct (beta <=? - f1)%f32 eqn:L; [reflexivity|].
  pose proof (unclamped_within beta V N G L) as W.
  apply within_inv in W. destruct W as (_ & _ & P & Hl & _).
  apply within_intro; try assumption; reflexivity.
Qed.

(** X19.  The factor has the direction of the shift: a raw beta that is
    zero or positive (source receding) gives a factor of at least 1; one
    that is zero or negative (approaching) gives a factor of at most 1 and
    above 0. *)
Theorem factor_direction (sv ov : vec3) :
  ((f0 <=? rawBeta sv ov)%f32 = true ->
   (f1 <=? calculateRelativisticDopplerShift sv ov)%f32 = true) /\
  ((rawBeta sv ov <=? f0)%f32 = true ->
   (calculateRelativisticDopplerShift sv ov <=? f1)%f32 = true /\
   (f0 <? calculateRelativisticDopplerShift sv ov)%f32 = true).
Proof.
  rewrite calculate_decompose. unfold leb, ltb. split; intros H.
  - pose proof (clampBeta_nonneg _ (rawBeta_valid sv ov) H) as W.
    assert (X : within f1 (S754_finite false 11863283 (-11))
                  (dopplerOfBeta (clampBeta (rawBeta sv ov))) = true).
    { unfold dopplerOfBeta. eapply within_weaken; [box | vm_compute; reflexivity ..]. }
    apply within_inv in X. tauto.
  - pose proof (clampBeta_nonpos _ (rawBeta_valid sv ov) H) as W.
    assert (X : within (S754_finite false 11863283 (-36)) f1
                  (dopplerOfBeta (clampBeta (rawBeta sv ov))) = true).
    { unfold dopplerOfBeta. eapply within_weaken; [box | vm_compute; reflexivity ..]. }
    pose proof (within_finite_pos _ _ _ X eq_refl) as Hp.
    apply within_inv in X. destruct X as (_ & _ & P & _ & U).
    split; [exact U|].
    apply proper_ltb_iff; try assumption; try reflexivity.
    rewrite SF2R_f0. apply finite_pos_SF2R. exact Hp.
Qed.

Lemma factor_direction_witness :
  (f1 <=? calculateRelativisticDopplerShift
            (mkvec3 f0 f0 f0) (mkvec3 f0 f0 (- f0_5)%f32))%f32 = true.
Proof.
  refine (proj1 (factor_direction (mkvec3 f0 f0 f0) (mkvec3 f0 f0 (- f0_5)%f32)) _).
  vm_compute. reflexivity.
Defined.
